(** * PostgreSQL/Rails analyzer scripts: a shallow embedding and its properties

    The three scripts [analyze_indexes.py], [analyze_n_plus_one.py] and
    [analyze_config.py] are embedded as Rocq functions.

    - A Python [str] is the list of its characters; a character is a code
      point below 256 ([ascii]), with the classes [\w] and [\s] that Python's
      [re] gives those code points for [str] patterns.
    - [re] is embedded as a backtracking matcher that lists the ways a
      pattern matches at a position in the order in which Python's engine
      tries them; the head of that list is the match Python reports.
    - A Python [dict] is an association list in insertion order.
    - Code that can raise returns a [result]; reading a file gives its text
      or the exception raised, and a [print] goes to a [stdout] whose encoding
      may lack what is printed. *)

From Stdlib Require Import List Ascii String ZArith Bool Arith Lia.
From Stdlib Require Import Sorting.Sorted.
From Stdlib Require Import Numbers.DecimalString.
Import ListNotations.

Set Implicit Arguments.

Local Open Scope string_scope.
Local Open Scope list_scope.

(** ** Text *)

Module Text.

Definition text := list ascii.

(** A string literal of the source. *)
Definition tx (s : string) : text := list_ascii_of_string s.

Fixpoint text_eqb (a b : text) : bool :=
  match a, b with
  | [], [] => true
  | x :: a', y :: b' => Ascii.eqb x y && text_eqb a' b'
  | _, _ => false
  end.

(** [x in l] for a list or a set of strings. *)
Definition mem (x : text) (l : list text) : bool := existsb (text_eqb x) l.

Fixpoint starts_with (p s : text) : bool :=
  match p, s with
  | [], _ => true
  | x :: p', y :: s' => Ascii.eqb x y && starts_with p' s'
  | _ :: _, [] => false
  end.

(** [sub in s] for two strings. *)
Fixpoint substring_of (sub s : text) : bool :=
  starts_with sub s ||
  match s with
  | [] => false
  | _ :: s' => substring_of sub s'
  end.

(** [sep.join(parts)] *)
Fixpoint join (sep : text) (parts : list text) : text :=
  match parts with
  | [] => []
  | [p] => p
  | p :: rest => p ++ sep ++ join sep rest
  end.

(** [s.split(sep)] for a one-character separator: never the empty list. *)
Fixpoint split (sep : ascii) (s : text) : list text :=
  match s with
  | [] => [[]]
  | c :: s' =>
      if Ascii.eqb c sep then [] :: split sep s'
      else match split sep s' with
           | [] => [[c]]
           | l :: ls => (c :: l) :: ls
           end
  end.

(** [str(n)] for an [int]. *)
Definition str_of_Z (z : Z) : text := tx (NilZero.string_of_int (Z.to_int z)).

Definition code (c : ascii) : N := N_of_ascii c.

Definition between (lo hi : N) (c : ascii) : bool :=
  (N.leb lo (code c) && N.leb (code c) hi)%bool.

(** [\w] on code points below 256: [[a-zA-Z0-9_]] and the Latin-1
    characters for which [str.isalnum] holds. *)
Definition is_word (c : ascii) : bool :=
  between 48 57 c || between 65 90 c || between 95 95 c || between 97 122 c
  || between 170 170 c || between 178 179 c || between 181 181 c
  || between 185 186 c || between 188 190 c || between 192 214 c
  || between 216 246 c || between 248 255 c.

(** [\s] on code points below 256. *)
Definition is_space (c : ascii) : bool :=
  between 9 13 c || between 28 32 c || between 133 133 c || between 160 160 c.

(** [.] under [re.DOTALL]. *)
Definition any_char (_ : ascii) : bool := true.

End Text.
Import Text.

(** ** Results of code that can raise *)

Inductive exn : Type :=
| KeyError
| OSError
| TypeError
| UnicodeDecodeError
| UnicodeEncodeError.

Inductive result (A : Type) : Type :=
| Ok (a : A)
| Raise (e : exn).

Arguments Ok {A} a.
Arguments Raise {A} e.

Definition bind {A B : Type} (r : result A) (f : A -> result B) : result B :=
  match r with
  | Ok a => f a
  | Raise e => Raise e
  end.

Notation "x <- c ;; k" := (bind c (fun x => k))
  (at level 61, c at next level, right associativity).

(** A loop whose body can raise: the first exception leaves the loop. *)
Fixpoint for_each {A S : Type} (body : S -> A -> result S) (l : list A) (s : S)
  : result S :=
  match l with
  | [] => Ok s
  | a :: l' => s' <- body s a ;; for_each body l' s'
  end.

(** ** Python dictionaries with string keys, in insertion order *)

Module Dict.

Definition dict (V : Type) := list (text * V).

Fixpoint get {V} (d : dict V) (k : text) : option V :=
  match d with
  | [] => None
  | (k', v) :: d' => if text_eqb k k' then Some v else get d' k
  end.

(** [k in d] *)
Definition contains {V} (d : dict V) (k : text) : bool :=
  match get d k with Some _ => true | None => false end.

(** [d[k]] raises [KeyError] on an absent key. *)
Definition item {V} (d : dict V) (k : text) : result V :=
  match get d k with Some v => Ok v | None => Raise KeyError end.

(** [d[k] = v]: an existing key keeps its place, a new key goes last. *)
Fixpoint set {V} (d : dict V) (k : text) (v : V) : dict V :=
  match d with
  | [] => [(k, v)]
  | (k', v') :: d' =>
      if text_eqb k k' then (k', v) :: d' else (k', v') :: set d' k v
  end.

Definition keys {V} (d : dict V) : list text := map fst d.

End Dict.

(** ** Regular expressions, as Python's [re] matches them *)

Module Re.

(** The constructs the scripts' patterns use.  A repetition is always over
    one character class in these patterns. *)
Inductive regex : Type :=
| Eps
| Chr (c : ascii)
| Cls (p : ascii -> bool)
| Seq (a b : regex)
| Alt (a b : regex)
| Star (greedy : bool) (p : ascii -> bool)
| Grp (n : nat) (a : regex)
| WordB.

Fixpoint Lit_chars (s : text) : regex :=
  match s with
  | [] => Eps
  | [c] => Chr c
  | c :: s' => Seq (Chr c) (Lit_chars s')
  end.

Definition Lit (s : string) : regex := Lit_chars (tx s).
Definition Plus (greedy : bool) (p : ascii -> bool) : regex :=
  Seq (Cls p) (Star greedy p).
Definition Opt (a : regex) : regex := Alt a Eps.

Fixpoint Seqs (l : list regex) : regex :=
  match l with
  | [] => Eps
  | [a] => a
  | a :: l' => Seq a (Seqs l')
  end.

Fixpoint Alts (l : list regex) : regex :=
  match l with
  | [] => Eps
  | [a] => a
  | a :: l' => Alt a (Alts l')
  end.

Definition caps := list (nat * text).

(** One way of matching: the text consumed, the text left, the groups set. *)
Definition way : Type := text * text * caps.

(** [X*?]: the shortest repetition is tried first. *)
Fixpoint star_lazy (p : ascii -> bool) (s : text) : list (text * text) :=
  ([], s) ::
  match s with
  | c :: s' =>
      if p c then map (fun w => (c :: fst w, snd w)) (star_lazy p s') else []
  | [] => []
  end.

(** [X*]: the longest repetition is tried first. *)
Fixpoint star_greedy (p : ascii -> bool) (s : text) : list (text * text) :=
  match s with
  | c :: s' =>
      if p c then map (fun w => (c :: fst w, snd w)) (star_greedy p s') else []
  | [] => []
  end ++ [([], s)].

(** The character before the current position after consuming [u]. *)
Definition prev_after (prev : option ascii) (u : text) : option ascii :=
  fold_left (fun _ c => Some c) u prev.

Definition word_at (c : option ascii) : bool :=
  match c with Some x => is_word x | None => false end.

(** All the ways [r] matches a prefix of [s], in the engine's order;
    [prev] is the character before [s] in the searched string. *)
Fixpoint ways (r : regex) (prev : option ascii) (s : text) : list way :=
  match r with
  | Eps => [([], s, [])]
  | Chr c =>
      match s with
      | x :: s' => if Ascii.eqb x c then [([x], s', [])] else []
      | [] => []
      end
  | Cls p =>
      match s with
      | x :: s' => if p x then [([x], s', [])] else []
      | [] => []
      end
  | Seq a b =>
      flat_map
        (fun wa : way =>
           let '(u, s1, c1) := wa in
           map (fun wb : way =>
                  let '(v, s2, c2) := wb in (u ++ v, s2, c1 ++ c2))
               (ways b (prev_after prev u) s1))
        (ways a prev s)
  | Alt a b => ways a prev s ++ ways b prev s
  | Star greedy p =>
      map (fun w => (fst w, snd w, []))
          (if greedy then star_greedy p s else star_lazy p s)
  | Grp n a =>
      map (fun wa : way => let '(u, s1, c1) := wa in (u, s1, c1 ++ [(n, u)]))
          (ways a prev s)
  | WordB =>
      if xorb (word_at prev) (word_at (hd_error s)) then [([], s, [])] else []
  end.

(** A match object: [group(0)] and the numbered groups. *)
Record rmatch : Type := { whole : text; groups : caps }.

Fixpoint last_group (n : nat) (c : caps) (acc : option text) : option text :=
  match c with
  | [] => acc
  | (m, g) :: c' => last_group n c' (if Nat.eqb m n then Some g else acc)
  end.

(** [m.group(n)]; a group that took no part in the match reads as the empty
    string here (Python gives [None]); every group the scripts read takes
    part in every match of its pattern, see [participates]. *)
Definition group (n : nat) (m : rmatch) : text :=
  match last_group n (groups m) None with
  | Some g => g
  | None => []
  end.

(** [re.match] at the current position. *)
Definition match_here (r : regex) (prev : option ascii) (s : text)
  : option rmatch :=
  match ways r prev s with
  | (u, _, c) :: _ => Some {| whole := u; groups := c |}
  | [] => None
  end.

(** [re.finditer]: scan left to right; [skip] characters are still covered
    by the previous match.  None of the scripts' patterns matches the empty
    string, see [nonempty]. *)
Fixpoint finditer_from (r : regex) (prev : option ascii) (skip : nat)
  (s : text) {struct s} : list rmatch :=
  match skip with
  | S k =>
      match s with
      | [] => []
      | c :: s' => finditer_from r (Some c) k s'
      end
  | O =>
      match match_here r prev s with
      | Some m =>
          m :: match s with
               | [] => []
               | c :: s' =>
                   finditer_from r (Some c) (Nat.pred (List.length (whole m))) s'
               end
      | None =>
          match s with
          | [] => []
          | c :: s' => finditer_from r (Some c) 0 s'
          end
      end
  end.

Definition finditer (r : regex) (s : text) : list rmatch :=
  finditer_from r None 0 s.

(** [re.search]: the leftmost match. *)
Definition search (r : regex) (s : text) : option rmatch :=
  hd_error (finditer r s).

Definition found (r : regex) (s : text) : bool :=
  match search r s with Some _ => true | None => false end.

(** [participates n r]: every way of matching [r] sets group [n]. *)
Fixpoint participates (n : nat) (r : regex) : bool :=
  match r with
  | Seq a b => participates n a || participates n b
  | Alt a b => participates n a && participates n b
  | Grp m a => Nat.eqb m n || participates n a
  | _ => false
  end.

(** [nonempty r]: every way of matching [r] consumes a character. *)
Fixpoint nonempty (r : regex) : bool :=
  match r with
  | Chr _ | Cls _ => true
  | Seq a b => nonempty a || nonempty b
  | Alt a b => nonempty a && nonempty b
  | Grp _ a => nonempty a
  | Eps | Star _ _ | WordB => false
  end.

(** [consumes P r]: [r] only ever consumes characters of [P]. *)
Fixpoint consumes (P : ascii -> Prop) (r : regex) : Prop :=
  match r with
  | Eps | WordB => True
  | Chr c => P c
  | Cls p | Star _ p => forall c, p c = true -> P c
  | Seq a b | Alt a b => consumes P a /\ consumes P b
  | Grp _ a => consumes P a
  end.

(** [captures P r]: every group of [r] only ever holds characters of [P]. *)
Fixpoint captures (P : ascii -> Prop) (r : regex) : Prop :=
  match r with
  | Seq a b | Alt a b => captures P a /\ captures P b
  | Grp _ a => consumes P a /\ captures P a
  | _ => True
  end.

End Re.
Import Re.

(** ** Findings: the dictionaries the analyzers append *)

Inductive pyval : Type :=
| PStr (s : text)
| PInt (z : Z).

Definition finding := list (string * pyval).

(** [issue.get(k)] *)
Fixpoint field (k : string) (f : finding) : option pyval :=
  match f with
  | [] => None
  | (k', v) :: f' => if String.eqb k k' then Some v else field k f'
  end.

(** [issue[k]] *)
Definition field_item (k : string) (f : finding) : result pyval :=
  match field k f with Some v => Ok v | None => Raise KeyError end.

Definition pyval_eqb (a b : pyval) : bool :=
  match a, b with
  | PStr s, PStr t => text_eqb s t
  | PInt x, PInt y => Z.eqb x y
  | _, _ => false
  end.

(** [by_severity] of the two [main]s that group by severity. *)
Definition group_by_severity (all_issues : list finding)
  : result (Dict.dict (list finding)) :=
  for_each
    (fun by_severity issue =>
       severity <- field_item "severity" issue ;;
       match severity with
       | PStr s =>
           l <- Dict.item by_severity s ;;
           Ok (Dict.set by_severity s (l ++ [issue]))
       | PInt _ => Raise KeyError
       end)
    all_issues [(tx "warning", []); (tx "info", [])].

Definition dquote : ascii := ascii_of_nat 34.
Definition squote : ascii := ascii_of_nat 39.
Definition newline : ascii := ascii_of_nat 10.

(** What a script's process ends with: [sys.exit(status)], or a traceback
    for an exception nobody caught (exit status 1). *)
Inductive outcome : Type :=
| Exit (status : Z)
| Uncaught (e : exn).

Definition exit_status (o : outcome) : Z :=
  match o with
  | Exit z => z
  | Uncaught _ => 1%Z
  end.

(** A file named by a glob: its path and what reading it gives
    ([None] when [open] or [read] raises). *)
Record source_file : Type := { file_path : text; file_content : option text }.

(** ** What the reports print *)

(** [sys.stdout] as far as a [print] can fail on it: whether its encoding
    has the line that names the Rails root, the signs of the reports (arrows,
    check marks, bullets and the like, all of them outside Latin-1), and a
    given character of the texts taken from the project.  ASCII is taken to
    be in every encoding and the stream to be open.  (What goes to
    [sys.stderr] is escaped where the encoding lacks it, and never fails.) *)
Record stdout : Type :=
  { encodes_root : bool;
    encodes_signs : bool;
    encodes_char : ascii -> bool }.

(** A printed line: its text, and for a line with signs the text before and
    the text after them. *)
Inductive printed : Type :=
| Plain (t : text)
| Signed (before after : text).

Definition encodable (out : stdout) (t : text) : bool :=
  forallb (fun c => N.ltb (code c) 128 || encodes_char out c) t.

(** [print(l)]: [UnicodeEncodeError] for what the encoding lacks. *)
Definition py_print (out : stdout) (l : printed) : result unit :=
  let ok :=
    match l with
    | Plain t => encodable out t
    | Signed before after =>
        encodes_signs out && encodable out before && encodable out after
    end in
  if ok then Ok tt else Raise UnicodeEncodeError.

(** The first [print] of each script, which names the Rails root. *)
Definition print_root (out : stdout) : result unit :=
  if encodes_root out then Ok tt else Raise UnicodeEncodeError.

(** The line of [print(c * 80)]. *)
Definition rule (c : ascii) : printed := Plain (repeat c 80).

(** [str(v)], as an f-string takes it. *)
Definition py_str (v : pyval) : text :=
  match v with
  | PStr s => s
  | PInt z => str_of_Z z
  end.

(** [len(l)] in an f-string. *)
Definition len_str {A} (l : list A) : text := str_of_Z (Z.of_nat (List.length l)).

(** What [sys.exit(main())] ends with. *)
Definition run (body : result Z) : outcome :=
  match body with
  | Ok status => Exit status
  | Raise e => Uncaught e
  end.

(** ** analyze_indexes.py *)

Module Indexes.

(** The patterns are quoted with [Q] for the double-quote character.

    [create_table\s+Q(\w+)Q.*?do\s*\|t\|(.*?)end] with [re.DOTALL] *)
Definition table_pattern : regex :=
  Seqs [Lit "create_table"; Plus true is_space; Chr dquote;
        Grp 1 (Plus true is_word); Chr dquote; Star false any_char;
        Lit "do"; Star true is_space; Lit "|t|";
        Grp 2 (Star false any_char); Lit "end"].

(** [t\.(\w+)\s+Q(\w+)Q] *)
Definition col_pattern : regex :=
  Seqs [Lit "t."; Grp 1 (Plus true is_word); Plus true is_space; Chr dquote;
        Grp 2 (Plus true is_word); Chr dquote].

(** [t\.\w+\s+Q(\w+_id)Q] *)
Definition fk_pattern : regex :=
  Seqs [Lit "t."; Plus true is_word; Plus true is_space; Chr dquote;
        Grp 1 (Seq (Plus true is_word) (Lit "_id")); Chr dquote].

(** [add_index\s+Q(\w+)Q,\s+\[?Q(\w+)Q?\]?] *)
Definition index_pattern : regex :=
  Seqs [Lit "add_index"; Plus true is_space; Chr dquote;
        Grp 1 (Plus true is_word); Chr dquote; Lit ","; Plus true is_space;
        Opt (Lit "["); Chr dquote; Grp 2 (Plus true is_word);
        Opt (Chr dquote); Opt (Lit "]")].

Record table_info : Type :=
  { columns : list text; foreign_keys : list text; indexes : list text }.

Definition schema := Dict.dict table_info.

(** The body of the loop over table blocks. *)
Definition add_table (tables : schema) (m : rmatch) : schema :=
  let table_name := group 1 m in
  let table_def := group 2 m in
  let columns := map (group 2) (finditer col_pattern table_def) in
  let foreign_keys := map (group 1) (finditer fk_pattern table_def) in
  Dict.set tables table_name
    {| columns := columns; foreign_keys := foreign_keys; indexes := [] |}.

Definition append_index (info : table_info) (column_name : text) : table_info :=
  {| columns := columns info; foreign_keys := foreign_keys info;
     indexes := indexes info ++ [column_name] |}.

(** The body of the loop over index statements. *)
Definition add_index (tables : schema) (m : rmatch) : result schema :=
  let table_name := group 1 m in
  let column_name := group 2 m in
  if Dict.contains tables table_name then
    info <- Dict.item tables table_name ;;
    Ok (Dict.set tables table_name (append_index info column_name))
  else Ok tables.

(** The model after the first loop. *)
Definition build_tables (content : text) : schema :=
  fold_left add_table (finditer table_pattern content) [].

Definition parse_schema (content : text) : result schema :=
  for_each add_index (finditer index_pattern content) (build_tables content).

Definition missing_index_issue (table_name fk : text) : finding :=
  [("table", PStr table_name);
   ("column", PStr fk);
   ("type", PStr (tx "missing_foreign_key_index"));
   ("severity", PStr (tx "warning"));
   ("message", PStr (tx "Foreign key " ++ fk ++ tx " on " ++ table_name
                       ++ tx " should have an index"));
   ("suggestion", PStr (tx "add_index :" ++ table_name ++ tx ", :" ++ fk))].

Definition analyze_missing_indexes (tables : schema) : list finding :=
  flat_map
    (fun entry : text * table_info =>
       let (table_name, table_info) := entry in
       flat_map
         (fun fk => if mem fk (indexes table_info) then []
                    else [missing_index_issue table_name fk])
         (foreign_keys table_info))
    tables.

Definition boolean_named (column : text) : bool :=
  starts_with (tx "is_") column || starts_with (tx "has_") column
  || mem column [tx "active"; tx "enabled"; tx "published"; tx "deleted"].

Definition boolean_issue (table_name column : text) : finding :=
  [("table", PStr table_name);
   ("column", PStr column);
   ("type", PStr (tx "boolean_index_opportunity"));
   ("severity", PStr (tx "info"));
   ("message", PStr (tx "Boolean column " ++ column ++ tx " on " ++ table_name
                       ++ tx " might benefit from a partial index"));
   ("suggestion", PStr (tx "add_index :" ++ table_name ++ tx ", :" ++ column
                          ++ tx ", where: " ++ [dquote] ++ column
                          ++ tx " = true" ++ [dquote]))].

Definition analyze_boolean_columns (tables : schema) : list finding :=
  flat_map
    (fun entry : text * table_info =>
       let (table_name, table_info) := entry in
       flat_map
         (fun column =>
            if boolean_named column then
              if mem column (indexes table_info) then []
              else [boolean_issue table_name column]
            else [])
         (columns table_info))
    tables.

(** [\.where\(\s*(\w+):\s*] *)
Definition where_keyword : regex :=
  Seqs [Lit ".where("; Star true is_space; Grp 1 (Plus true is_word);
        Lit ":"; Star true is_space].

Definition quote_char (c : ascii) : bool :=
  Ascii.eqb c dquote || Ascii.eqb c squote.

(** [\.where\([Q\'](\w+)\s*=] *)
Definition where_raw : regex :=
  Seqs [Lit ".where("; Cls quote_char; Grp 1 (Plus true is_word);
        Star true is_space; Lit "="].

Definition where_patterns : list regex := [where_keyword; where_raw].

(** [PurePath.name]: the last component of the path. *)
Definition path_name (p : text) : text := last (split "/"%char p) [].

(** [name.rfind('.')], [None] for -1. *)
Fixpoint rfind_dot (name : text) (i : nat) (acc : option nat) : option nat :=
  match name with
  | [] => acc
  | c :: name' =>
      rfind_dot name' (S i) (if Ascii.eqb c "."%char then Some i else acc)
  end.

(** [PurePath.stem]: the name without its last suffix. *)
Definition stem (p : text) : text :=
  let name := path_name p in
  match rfind_dot name 0 None with
  | Some i =>
      if Nat.ltb 0 i && Nat.ltb i (List.length name - 1) then firstn i name
      else name
  | None => name
  end.

Definition pattern_key (path column : text) : text :=
  stem path ++ tx ":" ++ column.

Definition where_issue (path column : text) : finding :=
  [("file", PStr path);
   ("column", PStr column);
   ("type", PStr (tx "where_clause_column"));
   ("severity", PStr (tx "info"));
   ("message", PStr (tx "Column " ++ [dquote] ++ column ++ [dquote]
                       ++ tx " used in WHERE clause - consider indexing if queries are slow"))].

(** The loop state of [analyze_where_clauses]: [issues] and [seen_patterns]. *)
Definition where_state : Type := list finding * list text.

(** The body of the innermost loop. *)
Definition note_match (path : text) (st : where_state) (m : rmatch)
  : where_state :=
  let column := group 1 m in
  let key := pattern_key path column in
  if mem key (snd st) then st
  else (fst st ++ [where_issue path column], key :: snd st).

Definition scan_pattern (path content : text) (st : where_state)
  (pattern_re : regex) : where_state :=
  fold_left (note_match path) (finditer pattern_re content) st.

(** One file of the scan; a file that cannot be read is passed over. *)
Definition scan_file (st : where_state) (f : source_file) : where_state :=
  match file_content f with
  | Some content =>
      fold_left (scan_pattern (file_path f) content) where_patterns st
  | None => st
  end.

(** What the script sees of the project: whether the Rails root is found,
    [db/schema.rb] ([None]: absent; otherwise its text, or what [open] or
    [read] raises: [OSError], or [UnicodeDecodeError] for bytes that are no
    text), and the files the two globs name, in glob order. *)
Record project : Type :=
  { root_found : bool;
    schema_rb : option (result text);
    models_rb : list source_file;
    controllers_rb : list source_file }.

Definition analyze_where_clauses (w : project) : list finding :=
  fst (fold_left scan_file (models_rb w ++ controllers_rb w) ([], [])).

(** [by_type] of [main]: findings grouped by their ['type']. *)
Fixpoint by_type_append (by_type : list (pyval * list finding)) (issue_type : pyval)
  (issue : finding) : list (pyval * list finding) :=
  match by_type with
  | [] => [(issue_type, [issue])]
  | (k, l) :: rest =>
      if pyval_eqb issue_type k then (k, l ++ [issue]) :: rest
      else (k, l) :: by_type_append rest issue_type issue
  end.

Definition group_by_type (all_issues : list finding)
  : result (list (pyval * list finding)) :=
  for_each
    (fun by_type issue =>
       issue_type <- field_item "type" issue ;;
       Ok (by_type_append by_type issue_type issue))
    all_issues [].

(** [t in by_type] and [by_type[t]]. *)
Fixpoint by_type_get (by_type : list (pyval * list finding)) (t : text)
  : option (list finding) :=
  match by_type with
  | [] => None
  | (k, l) :: rest =>
      if pyval_eqb (PStr t) k then Some l else by_type_get rest t
  end.

(** The lines for a missing index or a boolean column. *)
Definition report_issue (out : stdout) (issue : finding) : result unit :=
  table <- field_item "table" issue ;;
  column <- field_item "column" issue ;;
  _ <- py_print out (Plain (tx "  Table: " ++ py_str table
                            ++ tx ", Column: " ++ py_str column)) ;;
  message <- field_item "message" issue ;;
  _ <- py_print out (Signed (tx "  ") (tx " " ++ py_str message)) ;;
  suggestion <- field_item "suggestion" issue ;;
  _ <- py_print out (Plain (tx "  Migration: " ++ py_str suggestion)) ;;
  py_print out (Plain []).

(** [a < b] for two strings: by code points. *)
Fixpoint text_ltb (a b : text) : bool :=
  match a, b with
  | _, [] => false
  | [], _ :: _ => true
  | x :: a', y :: b' =>
      N.ltb (code x) (code y) || (N.eqb (code x) (code y) && text_ltb a' b')
  end.

Fixpoint insert_sorted (x : text) (l : list text) : list text :=
  match l with
  | [] => [x]
  | y :: l' =>
      if text_ltb x y then x :: l
      else if text_eqb x y then l
      else y :: insert_sorted x l'
  end.

(** [sorted(set(l))] *)
Definition sorted_set (l : list text) : list text :=
  fold_right insert_sorted [] l.

(** The section of the missing indexes. *)
Definition report_missing (out : stdout) (issues : list finding) : result unit :=
  _ <- py_print out
         (Signed [newline]
                 (tx "  MISSING FOREIGN KEY INDEXES (" ++ len_str issues
                  ++ tx " issues):")) ;;
  _ <- py_print out (rule "-") ;;
  for_each (fun _ issue => report_issue out issue) issues tt.

(** The section of the boolean columns: the first five are shown. *)
Definition report_boolean (out : stdout) (issues : list finding) : result unit :=
  _ <- py_print out
         (Signed [newline]
                 (tx "  BOOLEAN COLUMN INDEXING OPPORTUNITIES (" ++ len_str issues
                  ++ tx " suggestions):")) ;;
  _ <- py_print out (rule "-") ;;
  _ <- for_each (fun _ issue => report_issue out issue) (firstn 5 issues) tt ;;
  if Nat.ltb 5 (List.length issues) then
    py_print out (Plain (tx "  ... and "
                         ++ str_of_Z (Z.of_nat (List.length issues - 5))
                         ++ tx " more"))
  else Ok tt.

(** The section of the WHERE columns: the first ten of the sorted distinct
    columns are shown, each after a bullet (every ['column'] is a string). *)
Definition report_where (out : stdout) (issues : list finding) : result unit :=
  _ <- py_print out
         (Signed [newline]
                 (tx "  COLUMNS USED IN WHERE CLAUSES (" ++ len_str issues
                  ++ tx " columns):")) ;;
  _ <- py_print out (rule "-") ;;
  columns <- for_each (fun columns i =>
                         column <- field_item "column" i ;;
                         Ok (columns ++ [py_str column]))
                      issues [] ;;
  let unique_columns := sorted_set columns in
  _ <- py_print out
         (Plain (tx "  Consider adding indexes to these columns if queries are slow:")) ;;
  _ <- for_each (fun _ col => py_print out (Signed (tx "  ") (tx " " ++ col)))
                (firstn 10 unique_columns) tt ;;
  _ <- (if Nat.ltb 10 (List.length unique_columns) then
          py_print out
            (Signed (tx "  ")
                    (tx " ... and "
                     ++ str_of_Z (Z.of_nat (List.length unique_columns - 10))
                     ++ tx " more"))
        else Ok tt) ;;
  py_print out (Plain []).

(** A section is printed when its type is a key of [by_type]. *)
Definition report_section (by_type : list (pyval * list finding)) (t : string)
  (section : list finding -> result unit) : result unit :=
  match by_type_get by_type (tx t) with
  | Some issues => section issues
  | None => Ok tt
  end.

(** What [main] prints once the findings are grouped. *)
Definition report (out : stdout) (all_issues : list finding)
  (by_type : list (pyval * list finding)) : result unit :=
  _ <- py_print out (Plain ([newline] ++ tx "Found " ++ len_str all_issues
                            ++ tx " indexing opportunities:" ++ [newline])) ;;
  _ <- report_section by_type "missing_foreign_key_index" (report_missing out) ;;
  _ <- report_section by_type "boolean_index_opportunity" (report_boolean out) ;;
  _ <- report_section by_type "where_clause_column" (report_where out) ;;
  match all_issues with
  | [] => py_print out (Signed [] (tx " No obvious indexing issues detected!"))
  | _ :: _ => Ok tt
  end.

(** [main]: the schema file is read, inside [parse_schema], after the first
    two lines are printed. *)
Definition main (out : stdout) (w : project) : outcome :=
  if negb (root_found w) then Exit 1
  else
    match schema_rb w with
    | None => Exit 1
    | Some read =>
        run (_ <- print_root out ;;
             _ <- py_print out (rule "=") ;;
             content <- read ;;
             tables <- parse_schema content ;;
             _ <- py_print out (Plain (tx "Found " ++ len_str tables
                                       ++ tx " tables")) ;;
             let missing_fk_indexes := analyze_missing_indexes tables in
             let where_clause_columns := analyze_where_clauses w in
             let boolean_opportunities := analyze_boolean_columns tables in
             let all_issues :=
               missing_fk_indexes ++ where_clause_columns
               ++ boolean_opportunities in
             by_type <- group_by_type all_issues ;;
             _ <- report out all_issues by_type ;;
             Ok 0%Z)
    end.

End Indexes.

(** ** analyze_n_plus_one.py *)

Module NPlusOne.

(** [\.(all|where|find_by|find)\b] *)
Definition query_pattern : regex :=
  Seqs [Lit "."; Grp 1 (Alts [Lit "all"; Lit "where"; Lit "find_by"; Lit "find"]); WordB].

(** [\.(includes|preload|eager_load)\b] *)
Definition eager_pattern : regex :=
  Seqs [Lit "."; Grp 1 (Alts [Lit "includes"; Lit "preload"; Lit "eager_load"]); WordB].

(** [@(\w+)\s*=] *)
Definition var_pattern : regex :=
  Seqs [Lit "@"; Grp 1 (Plus true is_word); Star true is_space; Lit "="].

(** [rf'@{var_name}\.\w+\.\w+']; [var_name] is a run of word characters, so
    it stands for itself in the pattern. *)
Definition usage_pattern (var_name : text) : regex :=
  Seqs [Lit "@"; Lit_chars var_name; Lit "."; Plus true is_word; Lit ".";
        Plus true is_word].

(** [(\w+)\.(\w+)\.(each|map|size|count|\w+)] *)
Definition association_pattern : regex :=
  Seqs [Grp 1 (Plus true is_word); Lit "."; Grp 2 (Plus true is_word); Lit ".";
        Grp 3 (Alts [Lit "each"; Lit "map"; Lit "size"; Lit "count";
                      Plus true is_word])].

(** [l[a:b]] for [0 <= a] and [b <= len(l)]. *)
Definition slice {A} (a b : nat) (l : list A) : list A :=
  firstn (b - a) (skipn a l).

(** [enumerate(l, start)] *)
Definition enumerate {A} (start : nat) (l : list A) : list (nat * A) :=
  combine (seq start (List.length l)) l.

(** The lines searched for eager loading around line [i] (counted from 1). *)
Definition context (lines : list text) (i : nat) : text :=
  let context_start := Nat.max 0 (i - 3) in
  let context_end := Nat.min (List.length lines) (i + 2) in
  join [newline] (slice context_start context_end lines).

(** The inner loop: is [@var.a.b] found in [lines[j]] for some [j] of
    [range(i, min(len(lines), i + 20))]? *)
Definition used_later (lines : list text) (i : nat) (var_name : text) : bool :=
  existsb (fun j => found (usage_pattern var_name) (nth j lines []))
          (seq i (Nat.min (List.length lines) (i + 20) - i)).

Definition n_plus_one_issue (path : text) (i : nat) : finding :=
  [("file", PStr path);
   ("line", PInt (Z.of_nat i));
   ("type", PStr (tx "potential_n_plus_one"));
   ("severity", PStr (tx "warning"));
   ("message", PStr (tx "Potential N+1 query: Query at line "
                       ++ str_of_Z (Z.of_nat i)
                       ++ tx " may need eager loading"))].

(** The body of the loop over the lines. *)
Definition check_line (path : text) (lines : list text) (i : nat) (line : text)
  : list finding :=
  if found query_pattern line then
    if negb (found eager_pattern (context lines i)) then
      match search var_pattern line with
      | Some var_match =>
          let var_name := group 1 var_match in
          if used_later lines i var_name then [n_plus_one_issue path i] else []
      | None => []
      end
    else []
  else [].

Definition analyze_controller_action (path content : text) : list finding :=
  let lines := split newline content in
  flat_map (fun il : nat * text => check_line path lines (fst il) (snd il))
           (enumerate 1 lines).

Definition view_issue (path : text) (i : nat) : finding :=
  [("file", PStr path);
   ("line", PInt (Z.of_nat i));
   ("type", PStr (tx "view_association_access"));
   ("severity", PStr (tx "info"));
   ("message", PStr (tx "Association access in view - verify eager loading in controller"))].

Definition analyze_view_file (path content : text) : list finding :=
  let lines := split newline content in
  flat_map (fun il : nat * text =>
              if found association_pattern (snd il) then [view_issue path (fst il)]
              else [])
           (enumerate 1 lines).

(** A file that cannot be read is reported and passed over. *)
Definition scan_directory (files : list source_file)
  (analyzer_func : text -> text -> list finding) : list finding :=
  flat_map (fun f => match file_content f with
                     | Some content => analyzer_func (file_path f) content
                     | None => []
                     end)
           files.

(** What the script sees of the project: whether the Rails root is found and
    the files each [rglob] names. *)
Record project : Type :=
  { root_found : bool;
    controllers_rb : list source_file;
    views_erb : list source_file;
    views_haml : list source_file }.

Definition all_issues (w : project) : list finding :=
  let controller_issues := scan_directory (controllers_rb w) analyze_controller_action in
  let view_issues :=
    scan_directory (views_erb w) analyze_view_file
    ++ scan_directory (views_haml w) analyze_view_file in
  controller_issues ++ view_issues.

(** The lines for a finding. *)
Definition report_issue (out : stdout) (issue : finding) : result unit :=
  file <- field_item "file" issue ;;
  line <- field_item "line" issue ;;
  _ <- py_print out (Plain (tx "  " ++ py_str file ++ tx ":" ++ py_str line)) ;;
  message <- field_item "message" issue ;;
  _ <- py_print out (Signed (tx "  ") (tx " " ++ py_str message)) ;;
  py_print out (Plain []).

(** The body of the loop over ['warning'] and ['info'], with the name in
    upper case beside it. *)
Definition report_severity (out : stdout) (by_severity : Dict.dict (list finding))
  (severity : text * text) : result unit :=
  issues <- Dict.item by_severity (fst severity) ;;
  match issues with
  | [] => Ok tt
  | _ :: _ =>
      _ <- py_print out (Plain ([newline] ++ snd severity ++ tx " ("
                                ++ len_str issues ++ tx " issues):")) ;;
      _ <- py_print out (rule "-") ;;
      for_each (fun _ issue => report_issue out issue) issues tt
  end.

(** What [main] prints once the findings are grouped. *)
Definition report (out : stdout) (all_issues : list finding)
  (by_severity : Dict.dict (list finding)) : result unit :=
  _ <- py_print out (Plain ([newline] ++ tx "Found " ++ len_str all_issues
                            ++ tx " potential issues:" ++ [newline])) ;;
  _ <- for_each (fun _ severity => report_severity out by_severity severity)
                [(tx "warning", tx "WARNING"); (tx "info", tx "INFO")] tt ;;
  match all_issues with
  | [] => py_print out (Signed [] (tx " No obvious N+1 query issues detected!"))
  | _ :: _ => Ok tt
  end.

Definition main (out : stdout) (w : project) : outcome :=
  if negb (root_found w) then Exit 1
  else
    run (_ <- print_root out ;;
         _ <- py_print out (rule "=") ;;
         let all_issues := all_issues w in
         by_severity <- group_by_severity all_issues ;;
         _ <- report out all_issues by_severity ;;
         warnings <- Dict.item by_severity (tx "warning") ;;
         Ok (match warnings with [] => 0%Z | _ :: _ => 1%Z end)).

End NPlusOne.

(** ** analyze_config.py *)

Module Config.

(** What [yaml.safe_load] returns: null, booleans, integers, floats,
    strings, sequences and mappings, and for the tags [!!timestamp],
    [!!binary] and [!!set] a date (or date and time), bytes and a set.  Of a
    float only its truth value is kept and of a date nothing, since the
    script looks at no more; mappings are kept by their string keys, the only
    keys the script looks up; the pairs of [!!omap] and [!!pairs] are kept as
    sequences, since the script only compares the elements of a sequence with
    strings. *)
#[local] Unset Elimination Schemes.
Inductive yaml : Type :=
| YNull
| YBool (b : bool)
| YInt (z : Z)
| YFloat (nonzero : bool)
| YStr (s : text)
| YSeq (l : list yaml)
| YMap (m : list (text * yaml))
| YDate
| YBytes (b : text)
| YSet (l : list yaml).
#[local] Set Elimination Schemes.

(** [bool(v)] *)
Definition truthy (v : yaml) : bool :=
  match v with
  | YNull => false
  | YBool b => b
  | YInt z => negb (Z.eqb z 0)
  | YFloat nonzero => nonzero
  | YStr s => negb (text_eqb s [])
  | YSeq l => match l with [] => false | _ => true end
  | YMap m => match m with [] => false | _ => true end
  | YDate => true
  | YBytes b => match b with [] => false | _ => true end
  | YSet l => match l with [] => false | _ => true end
  end.

(** [v == s] for a string [s] *)
Definition eq_str (v : yaml) (s : text) : bool :=
  match v with
  | YStr t => text_eqb t s
  | _ => false
  end.

(** [s in v] for a string [s]: key of a mapping, substring of a string,
    element of a sequence or of a set; [TypeError] for a value that is no
    container, and for bytes, which only take bytes. *)
Definition py_in (s : text) (v : yaml) : result bool :=
  match v with
  | YMap m => Ok (Dict.contains m s)
  | YStr t => Ok (substring_of s t)
  | YSeq l | YSet l => Ok (existsb (fun y => eq_str y s) l)
  | YNull | YBool _ | YInt _ | YFloat _ | YDate | YBytes _ => Raise TypeError
  end.

(** [v[s]] for a string [s] *)
Definition py_item (v : yaml) (s : text) : result yaml :=
  match v with
  | YMap m => Dict.item m s
  | _ => Raise TypeError
  end.

Definition issue (env_name : text) (setting severity : string)
  (message recommendation : text) : finding :=
  [("environment", PStr env_name);
   ("setting", PStr (tx setting));
   ("severity", PStr (tx severity));
   ("message", PStr message);
   ("recommendation", PStr recommendation)].

(** The branch of [analyze_connection_pool] for an [int] of value [n] that
    prints as [shown]. *)
Definition pool_int_issues (env_name : text) (n : Z) (shown : text)
  : list finding :=
  if Z.ltb n 5 then
    [issue env_name "pool" "warning"
       (tx "Connection pool size (" ++ shown ++ tx ") is quite small")
       (tx "Consider increasing pool size to match your web server threads/workers")]
  else if Z.ltb 20 n then
    [issue env_name "pool" "info"
       (tx "Connection pool size (" ++ shown ++ tx ") is quite large")
       (tx "Verify this matches your actual concurrency needs. Too many connections can strain PostgreSQL")]
  else [].

(** [bool] is a subclass of [int]: [isinstance(True, int)] holds. *)
Definition analyze_connection_pool (env_config : Dict.dict yaml) (env_name : text)
  : list finding :=
  match Dict.get env_config (tx "pool") with
  | None | Some YNull =>
      [issue env_name "pool" "warning"
         (tx "Connection pool size not explicitly set (defaults to 5)")
         (tx "Set pool size based on your application threads/workers. For Puma with 5 threads: pool: 5")]
  | Some (YInt n) => pool_int_issues env_name n (str_of_Z n)
  | Some (YBool true) => pool_int_issues env_name 1 (tx "True")
  | Some (YBool false) => pool_int_issues env_name 0 (tx "False")
  | Some _ => []
  end.

Definition statement_timeout_recommendation : text :=
  tx "Add to database.yml:" ++ [newline] ++ tx "  variables:" ++ [newline]
  ++ tx "    statement_timeout: 30000  # 30 seconds in milliseconds".

Definition analyze_timeouts (env_config : Dict.dict yaml) (env_name : text)
  : result (list finding) :=
  no_statement_timeout <-
    (if negb (Dict.contains env_config (tx "variables")) then Ok true
     else
       let variables :=
         match Dict.get env_config (tx "variables") with
         | Some v => v
         | None => YMap []
         end in
       present <- py_in (tx "statement_timeout") variables ;;
       Ok (negb present)) ;;
  Ok ((if no_statement_timeout : bool then
         [issue env_name "statement_timeout" "warning"
            (tx "statement_timeout not configured")
            statement_timeout_recommendation]
       else [])
      ++ (if negb (Dict.contains env_config (tx "connect_timeout")) then
            [issue env_name "connect_timeout" "info"
               (tx "connect_timeout not configured")
               (tx "Add connect_timeout: 5 to prevent hanging on database connection issues")]
          else [])
      ++ (if negb (Dict.contains env_config (tx "checkout_timeout")) then
            [issue env_name "checkout_timeout" "info"
               (tx "checkout_timeout not configured (defaults to 5 seconds)")
               (tx "Explicitly set checkout_timeout: 5 for clarity")]
          else [])).

Definition analyze_prepared_statements (env_config : Dict.dict yaml)
  (env_name : text) : list finding :=
  match Dict.get env_config (tx "prepared_statements") with
  | Some (YBool false) =>
      [issue env_name "prepared_statements" "info"
         (tx "Prepared statements are disabled")
         (tx "Prepared statements improve performance. Only disable if using PgBouncer in transaction mode")]
  | None | Some YNull =>
      if text_eqb env_name (tx "production") then
        [issue env_name "prepared_statements" "info"
           (tx "Prepared statements setting not explicit")
           (tx "Add prepared_statements: true for better query performance (enabled by default)")]
      else []
  | Some _ => []
  end.

Definition analyze_reaping_frequency (env_config : Dict.dict yaml)
  (env_name : text) : list finding :=
  if negb (Dict.contains env_config (tx "reaping_frequency"))
     && text_eqb env_name (tx "production") then
    [issue env_name "reaping_frequency" "info"
       (tx "reaping_frequency not configured")
       (tx "Consider adding reaping_frequency: 60 to clean up stale connections (seconds)")]
  else [].

Definition check_ssl_configuration (env_config : Dict.dict yaml)
  (env_name : text) : list finding :=
  if text_eqb env_name (tx "production") then
    let sslmode :=
      match Dict.get env_config (tx "sslmode") with
      | Some v => v
      | None => YNull
      end in
    if negb (truthy sslmode) || eq_str sslmode (tx "disable") then
      [issue env_name "sslmode" "warning"
         (tx "SSL/TLS not enforced for production database connections")
         (tx "Add sslmode: require or sslmode: verify-full for secure connections")]
    else []
  else [].

Definition suggest_performance_extensions (env_name : text) : list finding :=
  [issue env_name "extensions" "info"
     (tx "Consider enabling pg_stat_statements extension")
     (tx "Enable in PostgreSQL config:" ++ [newline]
      ++ tx "  shared_preload_libraries = 'pg_stat_statements'" ++ [newline]
      ++ tx "Then run: CREATE EXTENSION IF NOT EXISTS pg_stat_statements;")].

(** The body of the loop over the environment names. *)
Definition analyze_environment (config : yaml) (all_issues : list finding)
  (env_name : text) : result (list finding) :=
  present <- py_in env_name config ;;
  if negb present then Ok all_issues
  else
    env_config <- py_item config env_name ;;
    match env_config with
    | YMap env_config =>
        let pool := analyze_connection_pool env_config env_name in
        timeouts <- analyze_timeouts env_config env_name ;;
        Ok (all_issues ++ pool ++ timeouts
            ++ analyze_prepared_statements env_config env_name
            ++ analyze_reaping_frequency env_config env_name
            ++ check_ssl_configuration env_config env_name)
    | _ => Ok all_issues
    end.

(** [all_issues] of [main] once the extension suggestion is added. *)
Definition analyze (config : yaml) : result (list finding) :=
  all_issues <-
    for_each (analyze_environment config)
             [tx "development"; tx "test"; tx "production"] [] ;;
  Ok (all_issues ++ suggest_performance_extensions (tx "all")).

(** The closing message of the report: [if not all_issues]. *)
Definition looks_good (all_issues : list finding) : bool :=
  match all_issues with [] => true | _ :: _ => false end.

(** What the script sees of the project: whether the Rails root is found,
    and [config/database.yml] ([None]: absent; otherwise what
    [load_database_config] returns or raises). *)
Record project : Type :=
  { root_found : bool;
    database_yml : option (result yaml) }.

(** The lines for a finding. *)
Definition report_issue (out : stdout) (issue : finding) : result unit :=
  let env :=
    match field "environment" issue with
    | Some v => v
    | None => PStr (tx "all")
    end in
  let setting :=
    match field "setting" issue with
    | Some v => v
    | None => PStr (tx "general")
    end in
  _ <- py_print out (Plain (tx "  [" ++ py_str env ++ tx "] " ++ py_str setting)) ;;
  message <- field_item "message" issue ;;
  _ <- py_print out (Signed (tx "  ") (tx " " ++ py_str message)) ;;
  recommendation <- field_item "recommendation" issue ;;
  _ <- py_print out (Signed (tx "  ") (tx " " ++ py_str recommendation)) ;;
  py_print out (Plain []).

(** The body of the loop over ['warning'] and ['info'], with the name in
    upper case beside it. *)
Definition report_severity (out : stdout) (by_severity : Dict.dict (list finding))
  (severity : text * text) : result unit :=
  issues <- Dict.item by_severity (fst severity) ;;
  match issues with
  | [] => Ok tt
  | _ :: _ =>
      _ <- py_print out (Plain ([newline] ++ snd severity ++ tx " ("
                                ++ len_str issues ++ tx " items):")) ;;
      _ <- py_print out (rule "-") ;;
      for_each (fun _ issue => report_issue out issue) issues tt
  end.

(** What [main] prints once the findings are grouped. *)
Definition report (out : stdout) (all_issues : list finding)
  (by_severity : Dict.dict (list finding)) : result unit :=
  _ <- py_print out (Plain ([newline] ++ tx "Found " ++ len_str all_issues
                            ++ tx " configuration recommendations:"
                            ++ [newline])) ;;
  _ <- for_each (fun _ severity => report_severity out by_severity severity)
                [(tx "warning", tx "WARNING"); (tx "info", tx "INFO")] tt ;;
  if looks_good all_issues then
    py_print out (Signed [] (tx " Database configuration looks good!"))
  else
    _ <- py_print out (Plain ([newline] ++ repeat "="%char 80)) ;;
    _ <- py_print out
           (Signed [] (tx " For more information, see the High Performance PostgreSQL for Rails book")) ;;
    py_print out
      (Plain (tx "   Chapters: 2 (Administration Basics), 5 (Optimizing Active Record)")).

(** [main]: the first two lines are printed before the file is loaded; a
    file that does not load ends the script with status 1. *)
Definition main (out : stdout) (w : project) : outcome :=
  if negb (root_found w) then Exit 1
  else
    match database_yml w with
    | None => Exit 1
    | Some loaded =>
        match (_ <- print_root out ;; py_print out (rule "=")) with
        | Raise e => Uncaught e
        | Ok _ =>
            match loaded with
            | Raise _ => Exit 1
            | Ok config =>
                run (all_issues <- analyze config ;;
                     by_severity <- group_by_severity all_issues ;;
                     _ <- report out all_issues by_severity ;;
                     Ok 0%Z)
            end
        end
    end.

End Config.

(** ** Functions of the scripts outside the analysis proper *)

(** [find_rails_root], the same in the three scripts.  A resolved path is the
    list of its components, innermost first: [current.parent] is the tail,
    and the filesystem root, which is its own parent, is the empty list.
    [has_application_rb current] tells whether
    [current / config / application.rb] exists; [None] stands for the
    [FileNotFoundError] raised after the loop. *)
Fixpoint find_rails_root (has_application_rb : list text -> bool)
  (current : list text) : option (list text) :=
  match current with
  | [] => None
  | _ :: parent =>
      if has_application_rb current then Some current
      else find_rails_root has_application_rb parent
  end.

(** [rf'{assoc_type}\s+:(\w+)'] of [extract_associations]; the three
    association types are runs of word characters, so each stands for itself
    in the pattern. *)
Definition declaration_pattern (assoc_type : text) : regex :=
  Seqs [Lit_chars assoc_type; Plus true is_space; Lit ":";
        Grp 1 (Plus true is_word)].

(** [re.findall] with a pattern of one group: the texts of the group. *)
Definition findall (r : regex) (s : text) : list text :=
  map (group 1) (finditer r s).

(** [extract_associations] of [analyze_n_plus_one.py]; [read] is what
    reading the model file gives: its text, or what [open] or [read] raises
    ([OSError], or [UnicodeDecodeError] for bytes that are no text), which
    the function lets through. *)
Definition extract_associations (read : result text)
  : result (Dict.dict (list text)) :=
  let associations : Dict.dict (list text) :=
    [(tx "has_many", []); (tx "has_one", []); (tx "belongs_to", [])] in
  content <- read ;;
  for_each
    (fun associations assoc_type =>
       let matches := findall (declaration_pattern assoc_type) content in
       names <- Dict.item associations assoc_type ;;
       Ok (Dict.set associations assoc_type (names ++ matches)))
    (Dict.keys associations) associations.

(** * Vocabulary of the statements *)

(** [matches r prev s w rest k]: the pattern [r] can consume [w] at the
    head of [s], leaving [rest] and setting the groups [k]. *)
Fixpoint matches (r : regex) (prev : option ascii) (s w rest : text) (k : caps)
  : Prop :=
  match r with
  | Eps => w = [] /\ rest = s /\ k = []
  | Chr c => s = c :: rest /\ w = [c] /\ k = []
  | Cls p => exists x, p x = true /\ s = x :: rest /\ w = [x] /\ k = []
  | Seq a b =>
      exists u s1 c1 v c2,
        matches a prev s u s1 c1 /\
        matches b (prev_after prev u) s1 v rest c2 /\
        w = u ++ v /\ k = c1 ++ c2
  | Alt a b => matches a prev s w rest k \/ matches b prev s w rest k
  | Star _ p => s = w ++ rest /\ forallb p w = true /\ k = []
  | Grp n a => exists k0, matches a prev s w rest k0 /\ k = k0 ++ [(n, w)]
  | WordB =>
      xorb (word_at prev) (word_at (hd_error s)) = true /\
      w = [] /\ rest = s /\ k = []
  end.


(** A schema text is written with a backquote where the file has a
    double quote. *)
Definition schema_text (s : string) : text :=
  map (fun c => if Ascii.eqb c "`"%char then dquote else c) (tx s).

(** [has_text k v f]: the finding [f] has the string [v] under key [k]. *)
Definition has_text (k : string) (v : text) (f : finding) : bool :=
  match field k f with
  | Some (PStr s) => text_eqb s v
  | _ => false
  end.

(** The finding names the table and column. *)
Definition names_pair (table column : text) (f : finding) : bool :=
  has_text "table" table f && has_text "column" column f.

(** [sub] occurs in [s]. *)
Definition occurs_in (sub s : text) : Prop :=
  exists pre post, s = pre ++ sub ++ post.

Definition occurrences (x : text) (l : list text) : nat :=
  List.length (filter (text_eqb x) l).

(** The distinct elements of a list, in the order of their first occurrence. *)
Fixpoint first_occurrences (l : list text) : list text :=
  match l with
  | [] => []
  | x :: l' => x :: filter (fun y => negb (text_eqb y x)) (first_occurrences l')
  end.

(** The last match in [ms] whose group 1 is [name]. *)
Fixpoint last_block (name : text) (ms : list rmatch) : option rmatch :=
  match ms with
  | [] => None
  | m :: ms' =>
      match last_block name ms' with
      | Some m' => Some m'
      | None => if text_eqb (group 1 m) name then Some m else None
      end
  end.

(** The columns (group 2) of the index statements [ms] on table [name]. *)
Definition indexed_columns (name : text) (ms : list rmatch) : list text :=
  map (group 2) (filter (fun m => text_eqb (group 1 m) name) ms).

(** [subseq a b]: [a] is [b] with some elements left out. *)
Inductive subseq {A : Type} : list A -> list A -> Prop :=
| subseq_nil : subseq [] []
| subseq_skip : forall x a b, subseq a b -> subseq a (x :: b)
| subseq_take : forall x a b, subseq a b -> subseq (x :: a) (x :: b).

(** What the first loop of [parse_schema] stores for a table block. *)
Definition block_info (m : rmatch) : Indexes.table_info :=
  {| Indexes.columns :=
       map (group 2) (finditer Indexes.col_pattern (group 2 m));
     Indexes.foreign_keys :=
       map (group 1) (finditer Indexes.fk_pattern (group 2 m));
     Indexes.indexes := [] |}.

Definition add_indexes (info : Indexes.table_info) (cols : list text)
  : Indexes.table_info :=
  {| Indexes.columns := Indexes.columns info;
     Indexes.foreign_keys := Indexes.foreign_keys info;
     Indexes.indexes := Indexes.indexes info ++ cols |}.

(** The matches of the parser's table pattern and of its index pattern in a
    schema text. *)
Definition table_blocks (content : text) : list rmatch :=
  finditer Indexes.table_pattern content.

Definition index_statements (content : text) : list rmatch :=
  finditer Indexes.index_pattern content.

(** ** The missing-foreign-key-index analyzer (C1, C2) *)

(** The finding is a warning of type [missing_foreign_key_index] whose
    suggestion holds the table name and the column name. *)
Definition well_formed_missing_index (table column : text) (f : finding) : Prop :=
  has_text "type" (tx "missing_foreign_key_index") f = true /\
  has_text "severity" (tx "warning") f = true /\
  exists suggestion,
    field "suggestion" f = Some (PStr suggestion) /\
    occurs_in table suggestion /\ occurs_in column suggestion.

(** C1 as the specification words it: exactly one finding for every
    foreign-key-shaped column that is not indexed. *)
Definition claim_C1_as_stated : Prop :=
  forall (tables : Indexes.schema) name info fk,
    NoDup (Dict.keys tables) ->
    In (name, info) tables ->
    In fk (Indexes.foreign_keys info) ->
    mem fk (Indexes.indexes info) = false ->
    exists f,
      filter (names_pair name fk) (Indexes.analyze_missing_indexes tables) = [f] /\
      well_formed_missing_index name fk f.

(** A block that declares [user_id] twice, and its model. *)
Definition twice_declared_text : text :=
  schema_text "create_table `posts` do |t|
  t.integer `user_id`
  t.bigint `user_id`
end".

Definition twice_declared : Indexes.schema :=
  [(tx "posts",
    {| Indexes.columns := [tx "user_id"; tx "user_id"];
       Indexes.foreign_keys := [tx "user_id"; tx "user_id"];
       Indexes.indexes := [] |})].

Definition quoted (s : text) : text := [dquote] ++ s ++ [dquote].



Definition second_column_text : text :=
  schema_text "create_table `posts` do |t|
  t.string `title`
  t.integer `user_id`
end
add_index `posts`, [`title`, `user_id`]".

Definition second_column_info : Indexes.table_info :=
  {| Indexes.columns := [tx "title"; tx "user_id"];
     Indexes.foreign_keys := [tx "user_id"];
     Indexes.indexes := [tx "title"] |}.

Definition second_column_tables : Indexes.schema :=
  [(tx "posts", second_column_info)].

(** ** The schema model (C3, C8, C9) *)

Definition two_blocks_text : text :=
  schema_text "create_table `users` do |t|
  t.string `name`
end
create_table `posts` do |t|
  t.integer `user_id`
end
add_index `comments`, [`post_id`]
add_index `posts`, [`user_id`]".

(** The text of a column declaration: [t.], the type [W], blanks [S] and the
    quoted name [X]. *)
Definition col_text (W S X : text) : text :=
  tx "t." ++ W ++ S ++ [dquote] ++ X ++ [dquote].

(** A table of the model without its index list. *)
Definition declared (entry : text * Indexes.table_info)
  : text * list text * list text :=
  (fst entry, Indexes.columns (snd entry), Indexes.foreign_keys (snd entry)).

(** ** The WHERE-clause analyzer (C5) *)

(** The finding names the file and the column. *)
Definition names_file_column (path column : text) (f : finding) : bool :=
  has_text "file" path f && has_text "column" column f.

(** The file can be read and one of the two patterns finds a filter on
    [column] in it. *)
Definition has_filter (f : source_file) (column : text) : Prop :=
  exists content pattern_re m,
    file_content f = Some content /\
    In pattern_re Indexes.where_patterns /\
    In m (finditer pattern_re content) /\
    group 1 m = column.

Definition scanned (w : Indexes.project) : list source_file :=
  Indexes.models_rb w ++ Indexes.controllers_rb w.

(** C5 as the specification words it: one finding for a file that filters
    twice on a column, and a finding for each of two distinct files that
    filter on the same column. *)
Definition claim_C5_as_stated : Prop :=
  (forall f column,
     has_filter f column ->
     List.length
       (filter (names_file_column (file_path f) column)
          (Indexes.analyze_where_clauses
             {| Indexes.root_found := true; Indexes.schema_rb := None;
                Indexes.models_rb := [f]; Indexes.controllers_rb := [] |})) = 1) /\
  (forall w f1 f2 column,
     In f1 (scanned w) -> In f2 (scanned w) ->
     file_path f1 <> file_path f2 ->
     has_filter f1 column -> has_filter f2 column ->
     In (Indexes.where_issue (file_path f1) column) (Indexes.analyze_where_clauses w) /\
     In (Indexes.where_issue (file_path f2) column) (Indexes.analyze_where_clauses w)).

Definition user_model : source_file :=
  {| file_path := tx "/srv/shop/app/models/user.rb";
     file_content := Some (tx "User.where(status: 'active')") |}.

Definition admin_user_model : source_file :=
  {| file_path := tx "/srv/shop/app/models/admin/user.rb";
     file_content := Some (tx "Admin::User.where(status: 'active')") |}.

Definition same_stem_project : Indexes.project :=
  {| Indexes.root_found := true; Indexes.schema_rb := None;
     Indexes.models_rb := [user_model; admin_user_model];
     Indexes.controllers_rb := [] |}.

Definition twice_filtered : source_file :=
  {| file_path := tx "/srv/shop/app/models/order.rb";
     file_content :=
       Some (tx "Order.where(status: 'x').or(Order.where(status: 'y'))") |}.

(** A filter call site: the file and the column. *)
Definition event : Type := text * text.

Definition file_events (f : source_file) : list event :=
  match file_content f with
  | Some content =>
      flat_map (fun pattern_re =>
                  map (fun m => (file_path f, group 1 m))
                      (finditer pattern_re content))
               Indexes.where_patterns
  | None => []
  end.

Definition note_event (st : Indexes.where_state) (e : event) : Indexes.where_state :=
  let key := Indexes.pattern_key (fst e) (snd e) in
  if mem key (snd st) then st
  else (fst st ++ [Indexes.where_issue (fst e) (snd e)], key :: snd st).

(** The call sites that get a finding when the keys [seen] are taken. *)
Fixpoint kept (seen : list text) (evs : list event) : list event :=
  match evs with
  | [] => []
  | e :: evs' =>
      let key := Indexes.pattern_key (fst e) (snd e) in
      if mem key seen then kept seen evs' else e :: kept (key :: seen) evs'
  end.

Definition event_eqb (a b : event) : bool :=
  text_eqb (fst a) (fst b) && text_eqb (snd a) (snd b).

(** ** The N+1 analyzer (C4) *)

(** Line number [n] of a file, counted from 1. *)
Definition line_at (lines : list text) (n : nat) : text := nth (n - 1) lines [].

(** The finding is a [potential_n_plus_one] warning located at line [L]. *)
Definition n_plus_one_at (L : nat) (f : finding) : Prop :=
  has_text "type" (tx "potential_n_plus_one") f = true /\
  has_text "severity" (tx "warning") f = true /\
  field "line" f = Some (PInt (Z.of_nat L)).

(** The four tests the analyzer makes at line [L], in terms of its own
    patterns; [flagged_text] below says what they come to in the text. *)
Definition flagged (lines : list text) (L : nat) : Prop :=
  1 <= L <= List.length lines /\
  found NPlusOne.query_pattern (line_at lines L) = true /\
  found NPlusOne.eager_pattern (NPlusOne.context lines L) = false /\
  exists var_match,
    search NPlusOne.var_pattern (line_at lines L) = Some var_match /\
    exists k,
      L < k <= L + 20 /\ k <= List.length lines /\
      found (NPlusOne.usage_pattern (group 1 var_match)) (line_at lines k) = true.

Definition posts_controller : text :=
  tx "def index" ++ [newline]
  ++ tx "  @posts = Post.where(published: true)" ++ [newline]
  ++ tx "  @count = @posts.first.comments.size" ++ [newline]
  ++ tx "end".

(** ** The connection-settings analyzers (C6, C7, C10) *)

(** The finding types the specification lists for these analyzers. *)
Definition connection_types : list text :=
  [tx "connection_pool_size"; tx "statement_timeout"; tx "connect_timeout";
   tx "checkout_timeout"; tx "prepared_statements"; tx "reaping_frequency";
   tx "ssl_configuration"].

(** The values of ['setting'] in the findings of the script. *)
Definition connection_settings : list string :=
  ["pool"; "statement_timeout"; "connect_timeout"; "checkout_timeout";
   "prepared_statements"; "reaping_frequency"; "sslmode"; "extensions"].

Definition severities : list string := ["warning"; "info"].

(** [f] is emitted by one of the analyzers for this environment. *)
Definition emitted (env_config : Dict.dict Config.yaml) (env_name : text)
  (f : finding) : Prop :=
  In f (Config.analyze_connection_pool env_config env_name) \/
  (exists fs, Config.analyze_timeouts env_config env_name = Ok fs /\ In f fs) \/
  In f (Config.analyze_prepared_statements env_config env_name) \/
  In f (Config.analyze_reaping_frequency env_config env_name) \/
  In f (Config.check_ssl_configuration env_config env_name) \/
  In f (Config.suggest_performance_extensions env_name).

(** The record of a connection-settings finding. *)
Definition settings_shape (env_name : text) (f : finding) : Prop :=
  exists setting severity message recommendation,
    In setting connection_settings /\ In severity severities /\
    f = Config.issue env_name setting severity message recommendation.

(** C6 as the specification words it: a ['type'] among the listed ones. *)
Definition claim_C6_as_stated : Prop :=
  forall env_config env_name f,
    emitted env_config env_name f ->
    (exists t, In t connection_types /\ field "type" f = Some (PStr t)) /\
    (exists severity message recommendation,
       field "severity" f = Some (PStr severity) /\
       field "message" f = Some (PStr message) /\
       field "recommendation" f = Some (PStr recommendation)).

(** A [database.yml] whose production section has [variables:] with
    nothing under it. *)
Definition unset_variables_config : Config.yaml :=
  Config.YMap
    [(tx "production",
      Config.YMap [(tx "adapter", Config.YStr (tx "postgresql"));
                   (tx "pool", Config.YInt 5);
                   (tx "variables", Config.YNull)])].

Definition unset_variables_project : Config.project :=
  {| Config.root_found := true;
     Config.database_yml := Some (Ok unset_variables_config) |}.

Definition is_warning (f : finding) : bool := has_text "severity" (tx "warning") f.
Definition is_info (f : finding) : bool := has_text "severity" (tx "info") f.

(** A table or column name: a word. *)
Definition is_name (t : text) : Prop := t <> [] /\ forallb is_word t = true.

(** An index statement up to its first quoted column, with the column list
    in brackets or a single bare column. *)
Definition index_head (table column : text) (bracket : bool) : text :=
  tx "add_index " ++ quoted table ++ tx ", "
  ++ (if bracket then tx "[" else []) ++ quoted column.

(** [stops p rest]: a run of [p] cannot go on into [rest]. *)
Definition stops (p : ascii -> bool) (rest : text) : bool :=
  match rest with
  | [] => true
  | c :: _ => negb (p c)
  end.





(** A run of blanks, at least one. *)
Definition blanks (S : text) : Prop := S <> [] /\ forallb is_space S = true.


(** ** More on the connection-settings analyzers *)

(** A value in which a string cannot be looked for: null, a boolean, a
    number, a date or bytes; [x in v] raises [TypeError] for it. *)
Definition is_scalar (v : Config.yaml) : bool :=
  match v with
  | Config.YNull | Config.YBool _ | Config.YInt _ | Config.YFloat _
  | Config.YDate | Config.YBytes _ => true
  | Config.YStr _ | Config.YSeq _ | Config.YMap _ | Config.YSet _ => false
  end.

(** The environment names [main] goes through, in its order. *)
Definition environments : list text :=
  [tx "development"; tx "test"; tx "production"].

(** The section of an environment when it is a mapping. *)
Definition env_section (m : Dict.dict Config.yaml) (env_name : text)
  : option (Dict.dict Config.yaml) :=
  match Dict.get m env_name with
  | Some (Config.YMap env_config) => Some env_config
  | _ => None
  end.

(** The section has a [variables] key whose value is null, a boolean, a
    number, a date or bytes. *)
Definition scalar_variables (env_config : Dict.dict Config.yaml) : bool :=
  match Dict.get env_config (tx "variables") with
  | Some v => is_scalar v
  | None => false
  end.

(** A production section with every setting the analyzers look at. *)
Definition tuned_production : Dict.dict Config.yaml :=
  [(tx "adapter", Config.YStr (tx "postgresql"));
   (tx "pool", Config.YInt 10);
   (tx "variables", Config.YMap [(tx "statement_timeout", Config.YInt 30000)]);
   (tx "connect_timeout", Config.YInt 5);
   (tx "checkout_timeout", Config.YInt 5);
   (tx "prepared_statements", Config.YBool true);
   (tx "reaping_frequency", Config.YInt 60);
   (tx "sslmode", Config.YStr (tx "require"))].

(** The environment is a mapping with such a [variables] key. *)
Definition raising_section (m : Dict.dict Config.yaml) (env_name : text) : bool :=
  match env_section m env_name with
  | Some env_config => scalar_variables env_config
  | None => false
  end.

(** The finding is about a setting that is checked for production only. *)
Definition production_only (f : finding) : bool :=
  has_text "setting" (tx "sslmode") f
  || has_text "setting" (tx "reaping_frequency") f.

(** A [database.yml] with nothing in it loads as null. *)
Definition empty_yml_project : Config.project :=
  {| Config.root_found := true;
     Config.database_yml := Some (Ok Config.YNull) |}.

(** A [database.yml] with an empty section for each environment. *)
Definition bare_sections_config : Config.yaml :=
  Config.YMap [(tx "development", Config.YMap []);
               (tx "test", Config.YMap []);
               (tx "production", Config.YMap [])].

(** ** More on the N+1 analyzer *)

Definition query_words : list text :=
  [tx "all"; tx "where"; tx "find_by"; tx "find"].

Definition eager_words : list text :=
  [tx "includes"; tx "preload"; tx "eager_load"].

(** The text has a dot, one of the words [K], and then no word character. *)
Definition calls (K : list text) (s : text) : Prop :=
  exists pre kw rest,
    In kw K /\ s = pre ++ "."%char :: kw ++ rest /\
    word_at (hd_error rest) = false.

(** The numbers of the lines searched for eager loading around line [L]. *)
Definition window (lines : list text) (L : nat) : list nat :=
  seq (S (L - 3)) (Nat.min (List.length lines) (L + 2) - (L - 3)).

(** The text has three words joined by dots. *)
Definition dotted_chain (s : text) : Prop :=
  exists pre a W1 b W2 c post,
    s = pre ++ a :: W1 ++ "."%char :: b :: W2 ++ "."%char :: c :: post /\
    is_word a = true /\ forallb is_word W1 = true /\
    is_word b = true /\ forallb is_word W2 = true /\ is_word c = true.

(** The finding is a [view_association_access] info located at line [L]. *)
Definition view_at (L : nat) (f : finding) : Prop :=
  has_text "type" (tx "view_association_access") f = true /\
  is_info f = true /\
  field "line" f = Some (PInt (Z.of_nat L)).

(** [\.(k1|k2|...)\b] for the words [K]. *)
Definition call_pattern (K : list text) : regex :=
  Seqs [Lit "."; Grp 1 (Alts (map Lit_chars K)); WordB].

Definition is_words (K : list text) : Prop :=
  forall kw, In kw K -> kw <> [] /\ forallb is_word kw = true.

(** ** The N+1 rule in terms of the text (C4) *)

(** [@var], blanks and [=] stand at the head of the text. *)
Definition assigns_at (var s : text) : Prop :=
  exists S post,
    s = "@"%char :: var ++ S ++ "="%char :: post /\
    is_name var /\ forallb is_space S = true.

(** The variable of the line: that of the first place in it where [@var],
    blanks and [=] stand, whatever follows the [=]. *)
Definition names_variable (line var : text) : Prop :=
  exists pre rest,
    line = pre ++ rest /\ assigns_at var rest /\
    forall pre1 pre2 v,
      pre = pre1 ++ pre2 -> pre2 <> [] -> ~ assigns_at v (pre2 ++ rest).

(** [@var.word.word] stands in the text. *)
Definition chain_on (var s : text) : Prop :=
  exists pre W c post,
    s = pre ++ "@"%char :: var ++ "."%char :: W ++ "."%char :: c :: post /\
    is_name W /\ is_word c = true.

(** What makes the controller analyzer report line [L]: a query call on the
    line, no eager-loading call on lines [L - 2] to [L + 2], and a chain
    [@var.a.b] on one of the next twenty lines for the variable of the
    line. *)
Definition flagged_text (lines : list text) (L : nat) : Prop :=
  1 <= L <= List.length lines /\
  calls query_words (line_at lines L) /\
  (forall n, In n (window lines L) -> ~ calls eager_words (line_at lines n)) /\
  exists var,
    names_variable (line_at lines L) var /\
    exists k,
      L < k <= L + 20 /\ k <= List.length lines /\
      chain_on var (line_at lines k).

(** C4 as the specification words it: the result of the fetch is assigned
    to the variable, so the query call stands in what follows an [=] that is
    an assignment, not the head of [==]. *)
Definition assigns_fetch (line var : text) : Prop :=
  exists pre S expr,
    line = pre ++ "@"%char :: var ++ S ++ "="%char :: expr /\
    is_name var /\ forallb is_space S = true /\
    hd_error expr <> Some "="%char /\
    calls query_words expr.

Definition flagged_as_stated (lines : list text) (L : nat) : Prop :=
  1 <= L <= List.length lines /\
  calls query_words (line_at lines L) /\
  (forall n, In n (window lines L) -> ~ calls eager_words (line_at lines n)) /\
  exists var,
    assigns_fetch (line_at lines L) var /\
    exists k,
      L < k <= L + 20 /\ k <= List.length lines /\
      chain_on var (line_at lines k).

Definition claim_C4_as_stated : Prop :=
  forall path content L,
    (exists f, In f (NPlusOne.analyze_controller_action path content) /\
               n_plus_one_at L f) <->
    flagged_as_stated (split newline content) L.

(** A controller that assigns another variable before the fetch, and one
    that compares a variable with the fetch. *)
Definition second_assignment : text :=
  tx "@a = 1; @posts = Post.all" ++ [newline] ++ tx "@posts.first.title".

Definition comparison : text :=
  tx "@w == User.all?" ++ [newline] ++ tx "@w.a.b".


(** ** More on the schema model *)

(** The name is [_id] after at least one more character. *)
Definition id_suffixed (x : text) : bool :=
  match rev x with
  | "d"%char :: "i"%char :: "_"%char :: _ :: _ => true
  | _ => false
  end.

(** The finding is an info of type [boolean_index_opportunity] whose
    suggestion holds the table name and the column name. *)
Definition well_formed_boolean (table column : text) (f : finding) : Prop :=
  has_text "type" (tx "boolean_index_opportunity") f = true /\
  is_info f = true /\
  exists suggestion,
    field "suggestion" f = Some (PStr suggestion) /\
    occurs_in table suggestion /\ occurs_in column suggestion.

(** The key of a filter call site before it is joined with a colon. *)
Definition stem_and_column (e : event) : text * text :=
  (Indexes.stem (fst e), snd e).

(** A table with a boolean-looking column that no index covers. *)
Definition users_info : Indexes.table_info :=
  {| Indexes.columns := [tx "name"; tx "is_admin"];
     Indexes.foreign_keys := [];
     Indexes.indexes := [tx "name"] |}.

Definition users_model : Indexes.schema := [(tx "users", users_info)].

(** ** The Rails root and the associations of a model *)

(** [content] has [kind], blanks, a colon and the word [name], which no word
    character follows. *)
Definition declares (kind name content : text) : Prop :=
  exists pre S post,
    content = pre ++ kind ++ S ++ ":"%char :: name ++ post /\
    S <> [] /\ forallb is_space S = true /\
    is_name name /\ word_at (hd_error post) = false.

Definition association_kinds : list text :=
  [tx "has_many"; tx "has_one"; tx "belongs_to"].

(** [up n current]: the [n]-th ancestor of the directory. *)
Definition up (n : nat) (current : list text) : list text := skipn n current.


(** [word_group n r]: what group [n] of [r] matches is never empty and is
    made of word characters. *)
Fixpoint word_group (n : nat) (r : regex) : Prop :=
  match r with
  | Seq a b | Alt a b => word_group n a /\ word_group n b
  | Grp m a =>
      (m = n -> nonempty a = true /\ consumes (fun c => is_word c = true) a)
      /\ word_group n a
  | _ => True
  end.

(** ** The standard output *)

(** A [stdout] whose encoding has everything the scripts print. *)
Definition capable (out : stdout) : Prop :=
  encodes_root out = true /\ encodes_signs out = true /\
  forall c, encodes_char out c = true.

(** A terminal in UTF-8, and one that only takes ASCII. *)
Definition unicode_stdout : stdout :=
  {| encodes_root := true; encodes_signs := true;
     encodes_char := fun _ => true |}.

Definition ascii_stdout : stdout :=
  {| encodes_root := true; encodes_signs := false;
     encodes_char := fun _ => false |}.

(** What printing ends with: nothing, or the error of the encoding. *)
Definition fine (r : result unit) : Prop :=
  r = Ok tt \/ r = Raise UnicodeEncodeError.





(** ** Table blocks in terms of the text (C3) *)

(** A table-definition block: [create_table], blanks, the quoted name, the
    options, [do], the block variable between bars, the body and [end]. *)
Record table_block : Type :=
  { tb_blanks : text;
    tb_name : text;
    tb_options : text;
    tb_gap : text;
    tb_variable : text;
    tb_body : text }.

(** The block after its quoted name. *)
Definition block_tail (b : table_block) : text :=
  tb_options b ++ tx "do" ++ tb_gap b ++ tx "|" ++ tb_variable b ++ tx "|"
  ++ tb_body b ++ tx "end".

Definition block_text (b : table_block) : text :=
  tx "create_table" ++ tb_blanks b ++ quoted (tb_name b) ++ block_tail b.

(** A schema text: the blocks one after the other, each followed by any
    text. *)
Fixpoint blocks_text (bs : list (table_block * text)) : text :=
  match bs with
  | [] => []
  | (b, sep) :: bs' => block_text b ++ sep ++ blocks_text bs'
  end.

Definition block_names (bs : list (table_block * text)) : list text :=
  map (fun b => tb_name (fst b)) bs.

(** [create_table] starts at none of the places of [t] in [t ++ rest]. *)
Definition no_table_in (t rest : text) : Prop :=
  forall j, j < List.length t ->
            starts_with (tx "create_table") (skipn j (t ++ rest)) = false.

(** The text [pre ++ blocks_text bs] has its table-declaration keywords at
    the heads of the blocks [bs] and nowhere else: the blocks do not nest
    and nothing else in the text declares a table. *)
Fixpoint laid_out (pre : text) (bs : list (table_block * text)) : Prop :=
  match bs with
  | [] => no_table_in pre []
  | (b, sep) :: bs' =>
      no_table_in pre (block_text b ++ sep ++ blocks_text bs') /\
      laid_out (tl (block_text b) ++ sep) bs'
  end.

(** A block as the specification has it: blanks after the keyword, a name
    between double quotes, a block variable that is a word. *)
Definition spec_block (b : table_block) : Prop :=
  blanks (tb_blanks b) /\
  tb_name b <> [] /\ ~ In dquote (tb_name b) /\
  forallb is_space (tb_gap b) = true /\
  is_name (tb_variable b).

(** A block as the parser reads it: moreover the name is a word and the
    block variable is [t]. *)
Definition parsed_block (b : table_block) : Prop :=
  blanks (tb_blanks b) /\
  is_name (tb_name b) /\
  forallb is_space (tb_gap b) = true /\
  tb_variable b = tx "t".

(** [first_at lit y]: [lit] does not start inside [y] in [y ++ lit]. *)
Definition first_at (lit y : text) : Prop :=
  forall j, j < List.length y -> starts_with lit (skipn j (y ++ lit)) = false.

(** [t] starts with [do |t|], with any blanks before the bar. *)
Definition opens_body (t : text) : Prop :=
  exists g u, forallb is_space g = true /\ t = tx "do" ++ g ++ tx "|t|" ++ u.

(** The part of a block the parser reads the columns from: the text [y]
    between the first [do |t|] of the block and the first [end] after it. *)
Definition read_from (b : table_block) (y : text) : Prop :=
  exists x g z,
    block_tail b = x ++ tx "do" ++ g ++ tx "|t|" ++ y ++ tx "end" ++ z /\
    forallb is_space g = true /\
    (forall j, j < List.length x -> ~ opens_body (skipn j (block_tail b))) /\
    first_at (tx "end") y.

(** C3 as the specification states it: a text laid out as [N] blocks with
    different names gives [N] tables. *)
Definition claim_C3_as_stated : Prop :=
  forall pre bs,
    laid_out pre bs ->
    Forall spec_block (map fst bs) ->
    NoDup (block_names bs) ->
    exists tables,
      Indexes.parse_schema (pre ++ blocks_text bs) = Ok tables /\
      List.length tables = List.length bs.

(** The two blocks of [two_blocks_text], the second followed by the index
    statements. *)
Definition users_block : table_block :=
  {| tb_blanks := tx " "; tb_name := tx "users"; tb_options := tx " ";
     tb_gap := tx " "; tb_variable := tx "t";
     tb_body := schema_text "
  t.string `name`
" |}.

Definition posts_block : table_block :=
  {| tb_blanks := tx " "; tb_name := tx "posts"; tb_options := tx " ";
     tb_gap := tx " "; tb_variable := tx "t";
     tb_body := schema_text "
  t.integer `user_id`
" |}.

Definition two_blocks : list (table_block * text) :=
  [(users_block, [newline]);
   (posts_block, schema_text "
add_index `comments`, [`post_id`]
add_index `posts`, [`user_id`]")].

(** A block whose table is named with its schema, [audit.logs]. *)
Definition logs_block : table_block :=
  {| tb_blanks := tx " "; tb_name := tx "audit.logs"; tb_options := tx " ";
     tb_gap := tx " "; tb_variable := tx "t";
     tb_body := schema_text "
  t.string `entry`
" |}.

Definition dotted_blocks : list (table_block * text) :=
  [(users_block, [newline]); (logs_block, [newline])].

(** The block of [users] with the block variable [tbl]. *)
Definition tbl_block : table_block :=
  {| tb_blanks := tx " "; tb_name := tx "users"; tb_options := tx " ";
     tb_gap := tx " "; tb_variable := tx "tbl";
     tb_body := schema_text "
  tbl.string `name`
" |}.

Definition renamed_blocks : list (table_block * text) :=
  [(tbl_block, [newline]); (posts_block, [newline])].

(** * Lemmas on text and dictionaries *)

Lemma text_eqb_refl (a : text) : text_eqb a a = true.
Proof.
  induction a as [|x a IH]; simpl; [reflexivity|].
  now rewrite Ascii.eqb_refl, IH.
Qed.

Lemma text_eqb_eq (a b : text) : text_eqb a b = true <-> a = b.
Proof.
  split.
  - revert b. induction a as [|x a IH]; intros [|y b]; simpl; try discriminate.
    + reflexivity.
    + intros H. apply andb_true_iff in H as [Hx Hab].
      apply Ascii.eqb_eq in Hx. apply IH in Hab. now subst.
  - intros ->. apply text_eqb_refl.
Qed.

Lemma text_eqb_neq (a b : text) : text_eqb a b = false <-> a <> b.
Proof.
  split.
  - intros H E. apply text_eqb_eq in E. congruence.
  - intros H. destruct (text_eqb a b) eqn:E; [|reflexivity].
    apply text_eqb_eq in E. contradiction.
Qed.

Lemma text_eqb_sym (a b : text) : text_eqb a b = text_eqb b a.
Proof.
  destruct (text_eqb a b) eqn:E.
  - apply text_eqb_eq in E. subst. symmetry. apply text_eqb_refl.
  - symmetry. apply text_eqb_neq. apply text_eqb_neq in E. congruence.
Qed.

Lemma mem_In (x : text) (l : list text) : mem x l = true <-> In x l.
Proof.
  unfold mem. rewrite existsb_exists. split.
  - intros (y & Hy & E). apply text_eqb_eq in E. now subst.
  - intros H. exists x. split; [assumption|apply text_eqb_refl].
Qed.

Lemma mem_not_In (x : text) (l : list text) : mem x l = false <-> ~ In x l.
Proof.
  rewrite <- mem_In. destruct (mem x l); split; congruence.
Qed.

Lemma mem_app (x : text) (l1 l2 : list text) :
  mem x (l1 ++ l2) = mem x l1 || mem x l2.
Proof. unfold mem. apply existsb_app. Qed.

Section DictFacts.

Context {V : Type}.
Implicit Types (d : Dict.dict V) (k : text) (v : V).

Lemma contains_keys d k : Dict.contains d k = mem k (Dict.keys d).
Proof.
  unfold Dict.contains. induction d as [|[k' v'] d IH]; simpl; [reflexivity|].
  destruct (text_eqb k k'); simpl; [reflexivity|exact IH].
Qed.

Lemma get_set_same d k v : Dict.get (Dict.set d k v) k = Some v.
Proof.
  induction d as [|[k' v'] d IH]; simpl.
  - now rewrite text_eqb_refl.
  - destruct (text_eqb k k') eqn:E; simpl; rewrite E; [reflexivity|exact IH].
Qed.

Lemma get_set_other d k k' v :
  k <> k' -> Dict.get (Dict.set d k v) k' = Dict.get d k'.
Proof.
  intros Hne. induction d as [|[k0 v0] d IH]; simpl.
  - apply not_eq_sym, text_eqb_neq in Hne. now rewrite Hne.
  - destruct (text_eqb k k0) eqn:E; simpl.
    + apply text_eqb_eq in E. subst k0.
      apply not_eq_sym, text_eqb_neq in Hne. now rewrite Hne.
    + now rewrite IH.
Qed.

Lemma keys_set d k v :
  Dict.keys (Dict.set d k v) =
  Dict.keys d ++ (if Dict.contains d k then [] else [k]).
Proof.
  unfold Dict.contains, Dict.keys.
  induction d as [|[k' v'] d IH]; simpl; [reflexivity|].
  destruct (text_eqb k k') eqn:E; simpl.
  - now rewrite app_nil_r.
  - now rewrite IH.
Qed.


Lemma In_get d k v : NoDup (Dict.keys d) -> In (k, v) d -> Dict.get d k = Some v.
Proof.
  induction d as [|[k' v'] d IH]; simpl; [contradiction|].
  intros Hnd [H|H].
  - injection H as -> ->. now rewrite text_eqb_refl.
  - inversion Hnd as [|? ? Hnot Hnd']; subst.
    destruct (text_eqb k k') eqn:E.
    + apply text_eqb_eq in E. subst k'. exfalso. apply Hnot.
      apply (in_map fst) in H. exact H.
    + now apply IH.
Qed.

Lemma item_contains d k :
  Dict.contains d k = true -> exists v, Dict.item d k = Ok v /\ Dict.get d k = Some v.
Proof.
  unfold Dict.contains, Dict.item. destruct (Dict.get d k) as [v|]; [|discriminate].
  intros _. now exists v.
Qed.

End DictFacts.

Lemma filter_filter_weaker {A} (f g : A -> bool) (l : list A) :
  (forall x, f x = true -> g x = true) ->
  filter f (filter g l) = filter f l.
Proof.
  intros H. induction l as [|x l IH]; simpl; [reflexivity|].
  destruct (g x) eqn:Eg; simpl.
  - now rewrite IH.
  - destruct (f x) eqn:Ef; [|exact IH].
    apply H in Ef. congruence.
Qed.

Lemma filter_filter_and {A} (f g : A -> bool) (l : list A) :
  filter f (filter g l) = filter (fun x => g x && f x) l.
Proof.
  induction l as [|x l IH]; simpl; [reflexivity|].
  destruct (g x); simpl; [destruct (f x)|]; now rewrite IH.
Qed.

Lemma first_occurrences_In (l : list text) (x : text) :
  In x (first_occurrences l) <-> In x l.
Proof.
  induction l as [|y l IH]; simpl; [tauto|].
  rewrite filter_In, IH. split.
  - intros [H|[H _]]; auto.
  - intros [H|H]; [now left|].
    destruct (text_eqb x y) eqn:E.
    + apply text_eqb_eq in E. now left.
    + right. split; [assumption|reflexivity].
Qed.

Lemma NoDup_filter {A} (f : A -> bool) (l : list A) : NoDup l -> NoDup (filter f l).
Proof.
  induction 1 as [|x l Hx Hnd IH]; simpl; [constructor|].
  destruct (f x); [|assumption].
  constructor; [|assumption]. rewrite filter_In. tauto.
Qed.

Lemma first_occurrences_NoDup (l : list text) : NoDup (first_occurrences l).
Proof.
  induction l as [|x l IH]; simpl; constructor.
  - rewrite filter_In. intros [_ H]. now rewrite text_eqb_refl in H.
  - now apply NoDup_filter.
Qed.

Lemma first_occurrences_NoDup_id (l : list text) : NoDup l -> first_occurrences l = l.
Proof.
  induction 1 as [|x l Hx Hnd IH]; simpl; [reflexivity|].
  rewrite IH. f_equal.
  apply forallb_filter_id. apply forallb_forall. intros y Hy.
  apply negb_true_iff, text_eqb_neq. intros ->. contradiction.
Qed.

(** * The schema parser *)

Lemma build_keys (ms : list rmatch) (d : Indexes.schema) :
  Dict.keys (fold_left Indexes.add_table ms d) =
  Dict.keys d ++
  filter (fun x => negb (mem x (Dict.keys d)))
         (first_occurrences (map (group 1) ms)).
Proof.
  revert d. induction ms as [|m ms IH]; intros d; simpl.
  - now rewrite app_nil_r.
  - rewrite IH. unfold Indexes.add_table at 1 2. rewrite keys_set.
    rewrite contains_keys.
    destruct (mem (group 1 m) (Dict.keys d)) eqn:E; simpl.
    + rewrite app_nil_r. f_equal. symmetry.
      apply filter_filter_weaker. intros x Hx.
      apply negb_true_iff. apply negb_true_iff in Hx.
      apply text_eqb_neq. intros ->. congruence.
    + rewrite <- app_assoc. simpl. f_equal. f_equal.
      rewrite filter_filter_and. apply filter_ext. intros x.
      rewrite mem_app. simpl. rewrite orb_false_r.
      rewrite negb_orb. apply andb_comm.
Qed.

Lemma build_get (ms : list rmatch) (d : Indexes.schema) (name : text) :
  Dict.get (fold_left Indexes.add_table ms d) name =
  match last_block name ms with
  | Some m => Some (block_info m)
  | None => Dict.get d name
  end.
Proof.
  revert d. induction ms as [|m ms IH]; intros d; simpl; [reflexivity|].
  rewrite IH. destruct (last_block name ms) as [m'|]; [reflexivity|].
  unfold Indexes.add_table.
  destruct (text_eqb (group 1 m) name) eqn:E.
  - apply text_eqb_eq in E. subst name. apply get_set_same.
  - apply text_eqb_neq in E. now apply get_set_other.
Qed.

Lemma last_block_Some (name : text) (ms : list rmatch) (m : rmatch) :
  last_block name ms = Some m -> In m ms /\ group 1 m = name.
Proof.
  induction ms as [|m0 ms IH]; simpl; [discriminate|].
  destruct (last_block name ms) as [m'|].
  - intros [= <-]. destruct (IH eq_refl). auto.
  - destruct (text_eqb (group 1 m0) name) eqn:E; [|discriminate].
    intros [= <-]. apply text_eqb_eq in E. auto.
Qed.

Lemma last_block_In (name : text) (ms : list rmatch) :
  In name (map (group 1) ms) ->
  exists m, last_block name ms = Some m /\ In m ms /\ group 1 m = name.
Proof.
  intros H.
  assert (Hex : exists m, last_block name ms = Some m).
  { induction ms as [|m0 ms IH]; simpl in *; [contradiction|].
    destruct (last_block name ms) as [m'|]; [now exists m'|].
    destruct H as [H|H].
    - rewrite H, text_eqb_refl. now exists m0.
    - destruct (IH H) as (m1 & H1). discriminate. }
  destruct Hex as (m & Hm). exists m. split; [exact Hm|].
  now apply last_block_Some.
Qed.

Lemma last_block_None (name : text) (ms : list rmatch) :
  ~ In name (map (group 1) ms) -> last_block name ms = None.
Proof.
  induction ms as [|m ms IH]; simpl; [reflexivity|].
  intros H. rewrite IH by tauto.
  destruct (text_eqb (group 1 m) name) eqn:E; [|reflexivity].
  apply text_eqb_eq in E. tauto.
Qed.

Lemma add_index_absent (tables : Indexes.schema) (m : rmatch) :
  Dict.contains tables (group 1 m) = false ->
  Indexes.add_index tables m = Ok tables.
Proof. unfold Indexes.add_index. now intros ->. Qed.

Lemma merge_indexes (ims : list rmatch) (d : Indexes.schema) :
  exists d',
    for_each Indexes.add_index ims d = Ok d' /\
    Dict.keys d' = Dict.keys d /\
    forall name,
      Dict.get d' name =
      option_map (fun info => add_indexes info (indexed_columns name ims))
                 (Dict.get d name).
Proof.
  revert d. induction ims as [|m ims IH]; intros d; simpl.
  - exists d. repeat split. intros name.
    destruct (Dict.get d name) as [[c f i]|]; simpl; [|reflexivity].
    unfold add_indexes. simpl. now rewrite app_nil_r.
  - unfold Indexes.add_index at 1.
    destruct (Dict.contains d (group 1 m)) eqn:Ec.
    + destruct (item_contains _ _ Ec) as (info & Hitem & Hget).
      rewrite Hitem. simpl.
      destruct (IH (Dict.set d (group 1 m) (Indexes.append_index info (group 2 m))))
        as (d' & Hd' & Hk & Hg).
      exists d'. split; [exact Hd'|]. split.
      * rewrite Hk, keys_set, Ec. apply app_nil_r.
      * intros name. rewrite Hg. unfold indexed_columns. simpl.
        destruct (text_eqb (group 1 m) name) eqn:E.
        -- apply text_eqb_eq in E. subst name.
           rewrite get_set_same, Hget. simpl. f_equal.
           unfold add_indexes, Indexes.append_index. simpl.
           now rewrite <- app_assoc.
        -- apply text_eqb_neq in E. now rewrite get_set_other.
    + simpl. destruct (IH d) as (d' & Hd' & Hk & Hg).
      exists d'. split; [exact Hd'|]. split; [exact Hk|].
      intros name. rewrite Hg. unfold indexed_columns. simpl.
      destruct (text_eqb (group 1 m) name) eqn:E; [|reflexivity].
      apply text_eqb_eq in E. subst name.
      unfold Dict.contains in Ec. destruct (Dict.get d (group 1 m)); [discriminate|].
      reflexivity.
Qed.

(** The model [parse_schema] returns, table by table. *)
Lemma parse_schema_spec (content : text) :
  exists tables,
    Indexes.parse_schema content = Ok tables /\
    Dict.keys tables = first_occurrences (map (group 1) (table_blocks content)) /\
    Dict.keys tables = Dict.keys (Indexes.build_tables content) /\
    forall name,
      Dict.get tables name =
      match last_block name (table_blocks content) with
      | Some m =>
          Some (add_indexes (block_info m)
                            (indexed_columns name (index_statements content)))
      | None => None
      end.
Proof.
  unfold Indexes.parse_schema.
  destruct (merge_indexes (finditer Indexes.index_pattern content)
                          (Indexes.build_tables content)) as (d' & Hd' & Hk & Hg).
  exists d'. split; [exact Hd'|]. split; [|split; [exact Hk|]].
  - rewrite Hk. unfold Indexes.build_tables. rewrite build_keys. simpl.
    apply forallb_filter_id. apply forallb_forall. reflexivity.
  - intros name. rewrite Hg. unfold Indexes.build_tables. rewrite build_get.
    unfold table_blocks, index_statements.
    destruct (last_block name (finditer Indexes.table_pattern content)); reflexivity.
Qed.

(** * The missing-foreign-key-index analyzer *)

Lemma filter_flat_map {A B} (f : B -> bool) (g : A -> list B) (l : list A) :
  filter f (flat_map g l) = flat_map (fun x => filter f (g x)) l.
Proof.
  induction l as [|x l IH]; simpl; [reflexivity|].
  now rewrite filter_app, IH.
Qed.

Lemma names_pair_missing (name fk name' fk' : text) :
  names_pair name fk (Indexes.missing_index_issue name' fk') =
  text_eqb name' name && text_eqb fk' fk.
Proof. reflexivity. Qed.

Lemma missing_in_table (name fk name' : text) (idx fks : list text) :
  filter (names_pair name fk)
    (flat_map (fun fk' => if mem fk' idx then []
                          else [Indexes.missing_index_issue name' fk']) fks) =
  if text_eqb name' name && negb (mem fk idx)
  then repeat (Indexes.missing_index_issue name fk) (occurrences fk fks)
  else [].
Proof.
  unfold occurrences. induction fks as [|x fks IH]; simpl.
  - now destruct (text_eqb name' name && negb (mem fk idx)).
  - rewrite filter_app, IH. clear IH.
    rewrite (text_eqb_sym fk x).
    destruct (text_eqb x fk) eqn:Ex.
    + apply text_eqb_eq in Ex. subst x.
      destruct (mem fk idx) eqn:Em; simpl.
      * now rewrite andb_false_r.
      * rewrite names_pair_missing, text_eqb_refl, andb_true_r.
        destruct (text_eqb name' name) eqn:En; simpl; [|reflexivity].
        apply text_eqb_eq in En. now subst.
    + destruct (mem x idx); simpl; [reflexivity|].
      rewrite names_pair_missing, Ex, andb_false_r. reflexivity.
Qed.

Lemma missing_absent_table (tables : Indexes.schema) (name fk : text) :
  ~ In name (Dict.keys tables) ->
  filter (names_pair name fk) (Indexes.analyze_missing_indexes tables) = [].
Proof.
  unfold Indexes.analyze_missing_indexes.
  induction tables as [|[n0 i0] tables IH]; simpl; [reflexivity|].
  intros H. rewrite filter_app, IH by tauto.
  rewrite missing_in_table.
  destruct (text_eqb n0 name) eqn:E; [|reflexivity].
  apply text_eqb_eq in E. tauto.
Qed.

(** The findings that name a table and a column of the model. *)
Lemma missing_for_pair (tables : Indexes.schema) name info fk :
  NoDup (Dict.keys tables) ->
  In (name, info) tables ->
  filter (names_pair name fk) (Indexes.analyze_missing_indexes tables) =
  if mem fk (Indexes.indexes info) then []
  else repeat (Indexes.missing_index_issue name fk)
              (occurrences fk (Indexes.foreign_keys info)).
Proof.
  induction tables as [|[n0 i0] tables IH]; simpl; [contradiction|].
  intros Hnd Hin. inversion Hnd as [|? ? Hnot Hnd']; subst.
  unfold Indexes.analyze_missing_indexes in *. simpl.
  rewrite filter_app, missing_in_table.
  destruct Hin as [Heq|Hin].
  - injection Heq as -> ->. rewrite text_eqb_refl. simpl.
    fold (Indexes.analyze_missing_indexes tables).
    rewrite (@missing_absent_table tables name fk Hnot), app_nil_r.
    now destruct (mem fk (Indexes.indexes info)).
  - assert (Hne : text_eqb n0 name = false).
    { apply text_eqb_neq. intros ->. apply Hnot.
      apply (in_map fst) in Hin. exact Hin. }
    rewrite Hne. simpl. now apply IH.
Qed.

Lemma occurs_in_middle (a b c : text) : occurs_in b (a ++ b ++ c).
Proof. now exists a, c. Qed.

Lemma missing_index_issue_well_formed (name fk : text) :
  well_formed_missing_index name fk (Indexes.missing_index_issue name fk).
Proof.
  repeat split. eexists. split; [reflexivity|]. split.
  - apply occurs_in_middle.
  - exists (tx "add_index :" ++ name ++ tx ", :"), []. 
    now rewrite app_nil_r, <- !app_assoc.
Qed.

Lemma occurrences_pos (x : text) (l : list text) : In x l -> 1 <= occurrences x l.
Proof.
  unfold occurrences. induction l as [|y l IH]; simpl; [contradiction|].
  intros [->|H].
  - rewrite text_eqb_refl. simpl. lia.
  - destruct (text_eqb x y); simpl; [lia|auto].
Qed.

(** C1 (amended): for a table of the model and a foreign-key-shaped column
    of it that is not in the table's indexed-column list, the analyzer emits
    one finding per occurrence of the column in the foreign-key list, each a
    [missing_foreign_key_index] warning naming the table and the column whose
    suggestion holds both names; so exactly one finding when the column is
    listed once, as for a table that declares [user_id] once. *)
Theorem C1_missing_index_findings :
  forall (tables : Indexes.schema) name info fk,
    NoDup (Dict.keys tables) ->
    In (name, info) tables ->
    In fk (Indexes.foreign_keys info) ->
    mem fk (Indexes.indexes info) = false ->
    let hits :=
      filter (names_pair name fk) (Indexes.analyze_missing_indexes tables) in
    hits = repeat (Indexes.missing_index_issue name fk)
                  (occurrences fk (Indexes.foreign_keys info)) /\
    1 <= List.length hits /\
    (forall f, In f hits -> well_formed_missing_index name fk f) /\
    (occurrences fk (Indexes.foreign_keys info) = 1 ->
     hits = [Indexes.missing_index_issue name fk]).
Proof.
  intros tables name info fk Hnd Hin Hfk Hidx hits.
  assert (Hhits : hits = repeat (Indexes.missing_index_issue name fk)
                           (occurrences fk (Indexes.foreign_keys info))).
  { unfold hits. rewrite (@missing_for_pair tables name info fk Hnd Hin), Hidx.
    reflexivity. }
  split; [exact Hhits|]. split; [|split].
  - rewrite Hhits, repeat_length. now apply occurrences_pos.
  - intros f Hf. rewrite Hhits in Hf. apply repeat_spec in Hf. subst f.
    apply missing_index_issue_well_formed.
  - intros H1. now rewrite Hhits, H1.
Qed.

Lemma C1_missing_index_findings_witness :
  filter (names_pair (tx "posts") (tx "user_id"))
         (Indexes.analyze_missing_indexes
            [(tx "posts",
              {| Indexes.columns := [tx "title"; tx "user_id"];
                 Indexes.foreign_keys := [tx "user_id"];
                 Indexes.indexes := [tx "title"] |})])
  = [Indexes.missing_index_issue (tx "posts") (tx "user_id")].
Proof.
  refine (proj2 (proj2 (proj2
    (@C1_missing_index_findings
       [(tx "posts",
         {| Indexes.columns := [tx "title"; tx "user_id"];
            Indexes.foreign_keys := [tx "user_id"];
            Indexes.indexes := [tx "title"] |})]
       (tx "posts") _ (tx "user_id") _ _ _ _))) _).
  - repeat constructor. simpl. tauto.
  - left. reflexivity.
  - left. reflexivity.
  - reflexivity.
  - reflexivity.
Defined.

Example twice_declared_parsed :
  Indexes.parse_schema twice_declared_text = Ok twice_declared.
Proof. vm_compute. reflexivity. Qed.

(** C1 as stated fails: a column listed twice among the foreign keys of a
    table gets two findings. *)
Lemma C1_counterexample : ~ claim_C1_as_stated.
Proof.
  intros H.
  destruct (H twice_declared (tx "posts")
              {| Indexes.columns := [tx "user_id"; tx "user_id"];
                 Indexes.foreign_keys := [tx "user_id"; tx "user_id"];
                 Indexes.indexes := [] |}
              (tx "user_id")) as (f & Hf & _).
  - repeat constructor. simpl. tauto.
  - left. reflexivity.
  - left. reflexivity.
  - reflexivity.
  - vm_compute in Hf. discriminate.
Qed.

(** The end-to-end scenario: one block, one foreign key, no index. *)
Example posts_user_id_end_to_end :
  exists tables,
    Indexes.parse_schema
      (schema_text "create_table `posts` do |t| t.integer `user_id` end")
    = Ok tables /\
    Indexes.analyze_missing_indexes tables
    = [Indexes.missing_index_issue (tx "posts") (tx "user_id")] /\
    field "suggestion" (Indexes.missing_index_issue (tx "posts") (tx "user_id"))
    = Some (PStr (tx "add_index :posts, :user_id")).
Proof. eexists. split; [vm_compute; reflexivity|]. split; reflexivity. Qed.


Lemma parse_schema_keys_NoDup (content : text) (tables : Indexes.schema) :
  Indexes.parse_schema content = Ok tables -> NoDup (Dict.keys tables).
Proof.
  destruct (parse_schema_spec content) as (t & Ht & Hk & _).
  rewrite Ht. intros [= <-]. rewrite Hk. apply first_occurrences_NoDup.
Qed.

(** C8: the parser returns a model for every text, never an error; for the
    empty text the model has no table, and the schema-based analyzers find
    nothing in it. *)
Theorem C8_parse_schema_total :
  (forall content, exists tables, Indexes.parse_schema content = Ok tables) /\
  Indexes.parse_schema [] = Ok [] /\
  Indexes.analyze_missing_indexes [] = [] /\
  Indexes.analyze_boolean_columns [] = [].
Proof.
  split; [|repeat split].
  intros content. destruct (parse_schema_spec content) as (tables & Hp & _).
  now exists tables.
Qed.

(** * The matcher *)

Lemma in_star_greedy (p : ascii -> bool) (s w r : text) :
  In (w, r) (star_greedy p s) <-> s = w ++ r /\ forallb p w = true.
Proof.
  revert w. induction s as [|c s IH]; intros w; simpl.
  - split.
    + intros [[= <- <-]|[]]. auto.
    + intros [H _]. symmetry in H. apply app_eq_nil in H as [-> ->]. now left.
  - rewrite in_app_iff. split.
    + intros [H|[[= <- <-]|[]]]; [|auto].
      destruct (p c) eqn:Ep; [|contradiction].
      apply in_map_iff in H as ([w' r'] & [= <- <-] & H).
      apply IH in H as [-> Hw]. simpl. now rewrite Ep.
    + intros [H Hw]. destruct w as [|x w]; simpl in *.
      * subst r. right. now left.
      * injection H as <- ->. apply andb_true_iff in Hw as [Hx Hw].
        rewrite Hx. left. apply in_map_iff. exists (w, r). split; [reflexivity|].
        apply IH. auto.
Qed.

Lemma in_star_lazy (p : ascii -> bool) (s w r : text) :
  In (w, r) (star_lazy p s) <-> s = w ++ r /\ forallb p w = true.
Proof.
  revert w. induction s as [|c s IH]; intros w; simpl.
  - split.
    + intros [[= <- <-]|[]]. auto.
    + intros [H _]. symmetry in H. apply app_eq_nil in H as [-> ->]. now left.
  - split.
    + intros [[= <- <-]|H]; [auto|].
      destruct (p c) eqn:Ep; [|contradiction].
      apply in_map_iff in H as ([w' r'] & [= <- <-] & H).
      apply IH in H as [-> Hw]. simpl. now rewrite Ep.
    + intros [H Hw]. destruct w as [|x w]; simpl in *.
      * subst r. now left.
      * injection H as <- ->. apply andb_true_iff in Hw as [Hx Hw].
        rewrite Hx. right. apply in_map_iff. exists (w, r). split; [reflexivity|].
        apply IH. auto.
Qed.

(** The matcher lists exactly the ways the pattern can match. *)
Lemma ways_matches (r : regex) :
  forall prev s w rest k,
    In (w, rest, k) (ways r prev s) <-> matches r prev s w rest k.
Proof.
  induction r as [|c|p|a IHa b IHb|a IHa b IHb|g p|n a IHa|];
    intros prev s w rest k; simpl.
  - split.
    + intros [[= <- <- <-]|[]]. auto.
    + intros (-> & -> & ->). now left.
  - destruct s as [|x s]; [split; [contradiction|intros ([=] & _)]|].
    destruct (Ascii.eqb x c) eqn:E.
    + apply Ascii.eqb_eq in E. subst x. split.
      * intros [[= <- <- <-]|[]]. auto.
      * intros ([= <-] & -> & ->). now left.
    + split; [contradiction|]. intros ([= -> _] & _).
      now rewrite Ascii.eqb_refl in E.
  - destruct s as [|x s]; [split; [contradiction|intros (? & _ & [=] & _)]|].
    destruct (p x) eqn:E.
    + split.
      * intros [[= <- <- <-]|[]]. exists x. auto.
      * intros (y & _ & [= <- <-] & -> & ->). now left.
    + split; [contradiction|]. intros (y & Hy & [= <- _] & _). congruence.
  - rewrite in_flat_map. split.
    + intros ([[u s1] c1] & Ha & Hb).
      apply in_map_iff in Hb as ([[v s2] c2] & [= <- <- <-] & Hb).
      exists u, s1, c1, v, c2. rewrite <- IHa, <- IHb. auto.
    + intros (u & s1 & c1 & v & c2 & Ha & Hb & -> & ->).
      exists (u, s1, c1). split; [now apply IHa|].
      apply in_map_iff. exists (v, rest, c2). split; [reflexivity|now apply IHb].
  - rewrite in_app_iff, IHa, IHb. reflexivity.
  - rewrite in_map_iff. split.
    + intros ([w' r'] & [= <- <- <-] & H). simpl.
      destruct g; [apply in_star_greedy in H|apply in_star_lazy in H]; tauto.
    + intros (Hs & Hw & ->). exists (w, rest). split; [reflexivity|].
      destruct g; [apply in_star_greedy|apply in_star_lazy]; auto.
  - rewrite in_map_iff. split.
    + intros ([[u s1] c1] & [= <- <- <-] & H). exists c1. now rewrite <- IHa.
    + intros (k0 & H & ->). exists (w, rest, k0). split; [reflexivity|].
      now apply IHa.
  - destruct (xorb (word_at prev) (word_at (hd_error s))); split.
    + intros [[= <- <- <-]|[]]. auto.
    + intros (_ & -> & -> & ->). now left.
    + contradiction.
    + intros ([=] & _).
Qed.


Lemma match_here_Some (r : regex) (prev : option ascii) (s : text) (m : rmatch) :
  match_here r prev s = Some m ->
  exists rest, In (whole m, rest, groups m) (ways r prev s).
Proof.
  unfold match_here. destruct (ways r prev s) as [|[[u rest] c] l]; [discriminate|].
  intros [= <-]. exists rest. now left.
Qed.

Lemma match_here_None (r : regex) (prev : option ascii) (s : text) :
  match_here r prev s = None <-> ways r prev s = [].
Proof.
  unfold match_here. destruct (ways r prev s) as [|[[u rest] c] l]; split;
    congruence.
Qed.

(** A pattern that can match in one way only matches that way. *)
Lemma match_here_unique (r : regex) (prev : option ascii) (s w rest : text)
  (k : caps) :
  In (w, rest, k) (ways r prev s) ->
  (forall w' rest' k', In (w', rest', k') (ways r prev s) ->
                       w' = w /\ k' = k) ->
  match_here r prev s = Some {| whole := w; groups := k |}.
Proof.
  unfold match_here. intros Hin Huniq.
  destruct (ways r prev s) as [|[[u r0] c] l]; [contradiction|].
  destruct (Huniq u r0 c) as [-> ->]; [now left|reflexivity].
Qed.

Lemma matches_nonempty (r : regex) :
  nonempty r = true ->
  forall prev s w rest k, matches r prev s w rest k -> w <> [].
Proof.
  induction r as [|c|p|a IHa b IHb|a IHa b IHb|gr p|n a IHa|];
    intros Hn prev s w rest k; simpl in *; try discriminate.
  - intros (_ & -> & _). discriminate.
  - intros (x & _ & _ & -> & _). discriminate.
  - intros (u & s1 & c1 & v & c2 & Ha & Hb & -> & _) E.
    apply app_eq_nil in E as [-> ->].
    apply orb_true_iff in Hn as [Hn|Hn]; [now apply IHa in Ha|now apply IHb in Hb].
  - apply andb_true_iff in Hn as [Hna Hnb]. intros [H|H]; eauto.
  - intros (k0 & H & _). eauto.
Qed.

Lemma last_group_app (n : nat) (c1 c2 : caps) (acc : option text) :
  last_group n (c1 ++ c2) acc = last_group n c2 (last_group n c1 acc).
Proof.
  revert acc. induction c1 as [|[m g] c1 IH]; intros acc; simpl; [reflexivity|].
  apply IH.
Qed.

Lemma last_group_keeps (n : nat) (c : caps) (g : text) :
  last_group n c (Some g) <> None.
Proof.
  revert g. induction c as [|[m h] c IH]; intros g; simpl; [discriminate|].
  destruct (Nat.eqb m n); apply IH.
Qed.

Lemma matches_participates (n : nat) (r : regex) :
  participates n r = true ->
  forall prev s w rest k acc,
    matches r prev s w rest k -> last_group n k acc <> None.
Proof.
  induction r as [|c|p|a IHa b IHb|a IHa b IHb|gr p|m a IHa|];
    intros Hp prev s w rest k acc; simpl in *; try discriminate.
  - intros (u & s1 & c1 & v & c2 & Ha & Hb & _ & ->).
    rewrite last_group_app. apply orb_true_iff in Hp as [Hp|Hp].
    + destruct (last_group n c1 acc) as [g|] eqn:E.
      * apply last_group_keeps.
      * exfalso. now apply (IHa Hp _ _ _ _ _ acc Ha).
    + now apply (IHb Hp _ _ _ _ _ _ Hb).
  - apply andb_true_iff in Hp as [Hpa Hpb]. intros [H|H]; eauto.
  - intros (k0 & H & ->). rewrite last_group_app. simpl.
    destruct (Nat.eqb m n) eqn:E; [discriminate|].
    simpl in Hp. now apply (IHa Hp _ _ _ _ _ acc H).
Qed.

(** The groups the scripts read are set by every match of their pattern,
    and no pattern of the scripts matches the empty string. *)
Example patterns_participate :
  forallb (fun nr => participates (fst nr) (snd nr))
    [(1, Indexes.table_pattern); (2, Indexes.table_pattern);
     (2, Indexes.col_pattern); (1, Indexes.fk_pattern);
     (1, Indexes.index_pattern); (2, Indexes.index_pattern);
     (1, Indexes.where_keyword); (1, Indexes.where_raw);
     (1, NPlusOne.var_pattern)] = true.
Proof. reflexivity. Qed.

Example patterns_nonempty (var_name : text) :
  forallb nonempty
    [Indexes.table_pattern; Indexes.col_pattern; Indexes.fk_pattern;
     Indexes.index_pattern; Indexes.where_keyword; Indexes.where_raw;
     NPlusOne.query_pattern; NPlusOne.eager_pattern; NPlusOne.var_pattern;
     NPlusOne.usage_pattern var_name; NPlusOne.association_pattern] = true.
Proof. reflexivity. Qed.

(** * Column and foreign-key declarations *)

Ltac break :=
  repeat match goal with
  | H : exists _, _ |- _ => destruct H
  | H : _ /\ _ |- _ => destruct H
  end; subst.

Ltac list_eq := repeat (progress (cbn; rewrite <- ?app_assoc)); reflexivity.

Lemma matches_seq_intro a b prev s u s1 c1 v rest c2 :
  matches a prev s u s1 c1 ->
  matches b (prev_after prev u) s1 v rest c2 ->
  matches (Seq a b) prev s (u ++ v) rest (c1 ++ c2).
Proof. intros Ha Hb. now exists u, s1, c1, v, c2. Qed.

Lemma matches_chr_intro c prev rest : matches (Chr c) prev (c :: rest) [c] rest [].
Proof. simpl. auto. Qed.

Lemma matches_cls_intro p prev x rest :
  p x = true -> matches (Cls p) prev (x :: rest) [x] rest [].
Proof. intros H. exists x. auto. Qed.

Lemma matches_star_intro g p prev W rest :
  forallb p W = true -> matches (Star g p) prev (W ++ rest) W rest [].
Proof. simpl. auto. Qed.

Lemma matches_plus_intro g p prev x W rest :
  p x = true -> forallb p W = true ->
  matches (Plus g p) prev (x :: W ++ rest) (x :: W) rest [].
Proof.
  intros Hx HW. apply (@matches_seq_intro (Cls p) (Star g p) prev _ [x] (W ++ rest) [] W rest []).
  - now apply matches_cls_intro.
  - now apply matches_star_intro.
Qed.

Lemma matches_grp_intro n a prev s w rest k :
  matches a prev s w rest k -> matches (Grp n a) prev s w rest (k ++ [(n, w)]).
Proof. intros H. now exists k. Qed.

Lemma matches_cast r prev s w w' rest k k' :
  matches r prev s w rest k -> w = w' -> k = k' -> matches r prev s w' rest k'.
Proof. now intros H <- <-. Qed.

Ltac build_match :=
  repeat first
    [ eapply matches_plus_intro; [eassumption|eassumption]
    | eapply matches_chr_intro
    | eapply matches_grp_intro
    | eapply matches_seq_intro ].

Lemma col_matches prev s w rest k :
  matches Indexes.col_pattern prev s w rest k <->
  exists W S X,
    forallb is_word W = true /\ W <> [] /\
    forallb is_space S = true /\ S <> [] /\
    forallb is_word X = true /\ X <> [] /\
    w = col_text W S X /\ s = w ++ rest /\ k = [(1, W); (2, X)].
Proof.
  split.
  - intros H. cbn in H. break.
    match goal with
    | Hw : is_word ?a = true, Hs : is_space ?b = true, Hx : is_word ?c = true,
      HW : forallb is_word ?W = true, HS : forallb is_space ?S = true,
      HX : forallb is_word ?X = true |- _ =>
        exists (a :: W), (b :: S), (c :: X)
    end.
    cbn [forallb].
    repeat match goal with H : _ = true |- _ => rewrite H end.
    repeat split; try discriminate; unfold col_text; list_eq.
  - intros (W & S & X & HW & HW0 & HS & HS0 & HX & HX0 & -> & -> & ->).
    destruct W as [|a W]; [contradiction|].
    destruct S as [|b S]; [contradiction|].
    destruct X as [|c X]; [contradiction|].
    cbn in HW, HS, HX.
    apply andb_true_iff in HW as [Ha HW].
    apply andb_true_iff in HS as [Hb HS].
    apply andb_true_iff in HX as [Hc HX].
    unfold col_text. repeat (progress (cbn [app tx list_ascii_of_string]; rewrite <- ?app_assoc)).
    eapply matches_cast.
    + unfold Indexes.col_pattern. cbn [Seqs Lit Lit_chars tx list_ascii_of_string].
      build_match.
    + list_eq.
    + list_eq.
Qed.

Lemma space_not_word (c : ascii) : is_space c = true -> is_word c = false.
Proof.
  destruct c as [b0 b1 b2 b3 b4 b5 b6 b7].
  destruct b0, b1, b2, b3, b4, b5, b6, b7; vm_compute; congruence.
Qed.

Lemma fk_matches prev s w rest k :
  matches Indexes.fk_pattern prev s w rest k ->
  exists W S Y,
    forallb is_word W = true /\ W <> [] /\
    forallb is_space S = true /\ S <> [] /\
    forallb is_word Y = true /\ Y <> [] /\
    w = col_text W S (Y ++ tx "_id") /\ s = w ++ rest /\
    k = [(1, Y ++ tx "_id")].
Proof.
  intros H. cbn in H. break.
  match goal with
  | Hw : is_word ?a = true, Hs : is_space ?b = true, Hx : is_word ?c = true,
    HW : forallb is_word ?W = true, HS : forallb is_space ?S = true,
    HX : forallb is_word ?X = true |- _ =>
      exists (a :: W), (b :: S), (c :: X)
  end.
  cbn [forallb].
  repeat match goal with H : _ = true |- _ => rewrite H end.
  repeat split; try discriminate; unfold col_text; list_eq.
Qed.

Lemma run_unique (p : ascii -> bool) (a b ra rb : text) (c d : ascii) :
  forallb p a = true -> forallb p b = true -> p c = false -> p d = false ->
  a ++ c :: ra = b ++ d :: rb -> a = b /\ c :: ra = d :: rb.
Proof.
  revert b. induction a as [|x a IH]; intros [|y b]; simpl; intros Ha Hb Hc Hd E.
  - auto.
  - injection E as -> _. apply andb_true_iff in Hb as [Hy _]. congruence.
  - injection E as -> _. apply andb_true_iff in Ha as [Hx _]. congruence.
  - injection E as -> E.
    apply andb_true_iff in Ha as [_ Ha]. apply andb_true_iff in Hb as [_ Hb].
    destruct (IH b Ha Hb Hc Hd E) as [-> E']. auto.
Qed.

Lemma col_text_unique (W S X W' S' X' rest rest' : text) :
  forallb is_word W = true -> forallb is_space S = true -> S <> [] ->
  forallb is_word X = true ->
  forallb is_word W' = true -> forallb is_space S' = true -> S' <> [] ->
  forallb is_word X' = true ->
  col_text W S X ++ rest = col_text W' S' X' ++ rest' ->
  W = W' /\ S = S' /\ X = X' /\ rest = rest'.
Proof.
  intros HW HS HS0 HX HW' HS' HS0' HX' E.
  destruct S as [|b S]; [contradiction|]. destruct S' as [|b' S']; [contradiction|].
  unfold col_text in E. repeat (progress (cbn in E; rewrite <- ?app_assoc in E)).
  injection E as E.
  cbn in HS, HS'.
  apply andb_true_iff in HS as [Hb HS]. apply andb_true_iff in HS' as [Hb' HS'].
  apply run_unique with (p := is_word) in E as [-> E]; auto using space_not_word.
  injection E as -> E.
  apply run_unique with (p := is_space) in E as [-> E]; auto.
  injection E as E.
  apply run_unique with (p := is_word) in E as [-> E]; auto.
  injection E as ->. auto.
Qed.

Lemma col_match_here prev s W S X rest :
  forallb is_word W = true -> W <> [] ->
  forallb is_space S = true -> S <> [] ->
  forallb is_word X = true -> X <> [] ->
  s = col_text W S X ++ rest ->
  match_here Indexes.col_pattern prev s =
  Some {| whole := col_text W S X; groups := [(1, W); (2, X)] |}.
Proof.
  intros HW HW0 HS HS0 HX HX0 ->.
  apply match_here_unique with (rest := rest).
  - apply ways_matches, col_matches. exists W, S, X. repeat split; auto.
  - intros w' rest' k' H. apply ways_matches, col_matches in H.
    destruct H as (W' & S' & X' & HW' & _ & HS' & HS0' & HX' & _ & -> & E & ->).
    apply col_text_unique in E as (-> & -> & -> & _); auto.
Qed.

Lemma forallb_word_id (Y : text) :
  forallb is_word Y = true -> forallb is_word (Y ++ tx "_id") = true.
Proof. intros H. rewrite forallb_app, H. reflexivity. Qed.

Lemma fk_then_col prev s mf :
  match_here Indexes.fk_pattern prev s = Some mf ->
  exists mc,
    match_here Indexes.col_pattern prev s = Some mc /\
    whole mc = whole mf /\ group 2 mc = group 1 mf.
Proof.
  intros H. apply match_here_Some in H as (rest & H).
  apply ways_matches, fk_matches in H.
  destruct H as (W & S & Y & HW & HW0 & HS & HS0 & HY & HY0 & Hw & Hs & Hk).
  eexists. split.
  - apply col_match_here with (W := W) (S := S) (X := Y ++ tx "_id") (rest := rest);
      auto using forallb_word_id.
    + destruct Y; [contradiction|discriminate].
    + now rewrite Hs, Hw.
  - destruct mf as [w k]. simpl in *. subst. split; reflexivity.
Qed.

Lemma fk_needs_prefix p z :
  ways Indexes.fk_pattern p z <> [] -> exists z', z = "t"%char :: "."%char :: z'.
Proof.
  destruct (ways Indexes.fk_pattern p z) as [|[[w r] k] l] eqn:E; [congruence|].
  intros _.
  assert (H : In (w, r, k) (ways Indexes.fk_pattern p z)) by (rewrite E; now left).
  apply ways_matches, fk_matches in H.
  destruct H as (W & S & Y & _ & _ & _ & _ & _ & _ & -> & -> & _).
  unfold col_text. cbn. eauto.
Qed.

Lemma col_needs_prefix p z :
  ways Indexes.col_pattern p z <> [] -> exists z', z = "t"%char :: "."%char :: z'.
Proof.
  destruct (ways Indexes.col_pattern p z) as [|[[w r] k] l] eqn:E; [congruence|].
  intros _.
  assert (H : In (w, r, k) (ways Indexes.col_pattern p z)) by (rewrite E; now left).
  apply ways_matches, col_matches in H.
  destruct H as (W & S & Y & _ & _ & _ & _ & _ & _ & -> & -> & _).
  unfold col_text. cbn. eauto.
Qed.

(** No [t.] starts inside a run of characters other than the dot that a double
    quote ends. *)
Lemma no_prefix_inside (body rest : text) (j : nat) :
  Forall (fun c => c <> "."%char) body ->
  j <= List.length body ->
  ~ exists z', skipn j (body ++ dquote :: rest) = "t"%char :: "."%char :: z'.
Proof.
  intros Hb. revert j. induction Hb as [|c body Hc Hb IH]; intros j Hj (z' & E).
  - simpl in Hj. assert (j = 0) by lia. subst j. simpl in E. discriminate.
  - destruct j as [|j].
    + simpl in E. injection E as -> E.
      destruct body as [|c' body]; simpl in E.
      * discriminate.
      * injection E as -> _. inversion Hb. congruence.
    + simpl in E, Hj. apply (IH j); [lia|]. eauto.
Qed.

Lemma word_not_dot (W : text) :
  forallb is_word W = true -> Forall (fun c => c <> "."%char) W.
Proof.
  rewrite forallb_forall, Forall_forall. intros H c Hc ->.
  apply H in Hc. discriminate.
Qed.

Lemma space_not_dot (W : text) :
  forallb is_space W = true -> Forall (fun c => c <> "."%char) W.
Proof.
  rewrite forallb_forall, Forall_forall. intros H c Hc ->.
  apply H in Hc. discriminate.
Qed.

Lemma col_no_overlap prev s mc :
  match_here Indexes.col_pattern prev s = Some mc ->
  forall i, 0 < i < List.length (whole mc) ->
  forall p r, (r = Indexes.col_pattern \/ r = Indexes.fk_pattern) ->
              ways r p (skipn i s) = [].
Proof.
  intros H i Hi p r Hr.
  apply match_here_Some in H as (rest & H).
  apply ways_matches, col_matches in H.
  destruct H as (W & S & X & HW & _ & HS & _ & HX & _ & Hw & Hs & _).
  destruct (ways r p (skipn i s)) eqn:E; [reflexivity|exfalso].
  assert (Hpre : exists z', skipn i s = "t"%char :: "."%char :: z').
  { destruct Hr as [-> | ->]; [apply (@col_needs_prefix p)|apply (@fk_needs_prefix p)];
      rewrite E; discriminate. }
  clear E. rewrite Hw in Hi. rewrite Hs, Hw in Hpre. clear Hs Hw.
  unfold col_text in *.
  set (body := W ++ S ++ [dquote] ++ X) in *.
  assert (Hbody : Forall (fun c => c <> "."%char) body).
  { unfold body. rewrite !Forall_app. repeat split;
      auto using word_not_dot, space_not_dot.
    repeat constructor. discriminate. }
  assert (Es : (tx "t." ++ W ++ S ++ [dquote] ++ X ++ [dquote]) ++ rest
               = "t"%char :: "."%char :: body ++ dquote :: rest).
  { unfold body. list_eq. }
  assert (El : List.length (tx "t." ++ W ++ S ++ [dquote] ++ X ++ [dquote])
               = 3 + List.length body).
  { unfold body. repeat (rewrite ?length_app; simpl). lia. }
  rewrite Es in Hpre. rewrite El in Hi.
  destruct i as [|[|i]]; [lia| |].
  - destruct Hpre as (z' & E). simpl in E. discriminate.
  - simpl in Hpre. apply (@no_prefix_inside body rest i Hbody); [lia|exact Hpre].
Qed.

Lemma subseq_nil_l {A} (l : list A) : subseq [] l.
Proof. induction l; constructor; assumption. Qed.

Lemma fk_here_nil prev : match_here Indexes.fk_pattern prev [] = None.
Proof. reflexivity. Qed.

Lemma fk_subseq_col_from (s : text) :
  forall prev a b,
    a = b \/ (a = 0 /\ forall i, i < b ->
                       forall p, ways Indexes.fk_pattern p (skipn i s) = []) ->
    subseq (map (group 1) (finditer_from Indexes.fk_pattern prev a s))
           (map (group 2) (finditer_from Indexes.col_pattern prev b s)).
Proof.
  induction s as [|c s IH]; intros prev a b Hab.
  - destruct a; simpl; apply subseq_nil_l.
  - destruct Hab as [<-|[-> Hb]].
    + destruct a as [|a].
      * cbn [finditer_from].
        destruct (match_here Indexes.fk_pattern prev (c :: s)) as [mf|] eqn:Ef.
        -- destruct (fk_then_col _ _ Ef) as (mc & Ec & Hw & Hg).
           rewrite Ec. cbn [map]. rewrite Hg, Hw.
           apply subseq_take. apply IH. now left.
        -- destruct (match_here Indexes.col_pattern prev (c :: s)) as [mc|] eqn:Ec.
           ++ cbn [map]. apply subseq_skip. apply IH. right. split; [reflexivity|].
              intros i Hi p.
              apply (@col_no_overlap prev (c :: s) mc Ec (S i)); [|now right].
              assert (List.length (whole mc) <> 0); [|lia].
              intros E0. rewrite E0 in Hi. simpl in Hi. lia.
           ++ apply IH. now left.
      * cbn [finditer_from]. apply IH. now left.
    + destruct b as [|b].
      * cbn [finditer_from].
        pose proof (IH (Some c) 0 0 (or_introl eq_refl)) as IH0.
        destruct (match_here Indexes.fk_pattern prev (c :: s)) as [mf|] eqn:Ef.
        -- destruct (fk_then_col _ _ Ef) as (mc & Ec & Hw & Hg).
           rewrite Ec. cbn [map]. rewrite Hg, Hw.
           apply subseq_take. apply IH. now left.
        -- destruct (match_here Indexes.col_pattern prev (c :: s)) as [mc|] eqn:Ec.
           ++ cbn [map]. apply subseq_skip. apply IH. right. split; [reflexivity|].
              intros i Hi p.
              apply (@col_no_overlap prev (c :: s) mc Ec (S i)); [|now right].
              assert (List.length (whole mc) <> 0); [|lia].
              intros E0. rewrite E0 in Hi. simpl in Hi. lia.
           ++ exact IH0.
      * cbn [finditer_from].
        assert (Ef : match_here Indexes.fk_pattern prev (c :: s) = None).
        { apply match_here_None. apply (Hb 0). lia. }
        rewrite Ef. apply IH. right. split; [reflexivity|].
        intros i Hi p. apply (Hb (S i)). lia.
Qed.

Lemma fk_subseq_col (table_def : text) :
  subseq (map (group 1) (finditer Indexes.fk_pattern table_def))
         (map (group 2) (finditer Indexes.col_pattern table_def)).
Proof. apply fk_subseq_col_from. now left. Qed.

(** * The model keeps foreign keys among the columns *)

Lemma set_declared (d : Indexes.schema) (k c : text) (info : Indexes.table_info) :
  Dict.get d k = Some info ->
  map declared (Dict.set d k (Indexes.append_index info c)) = map declared d.
Proof.
  induction d as [|[k' v'] d IH]; simpl; [discriminate|].
  destruct (text_eqb k k') eqn:E.
  - intros [= ->]. reflexivity.
  - intros H. simpl. now rewrite IH.
Qed.

Lemma merge_declared (ims : list rmatch) :
  forall d d',
    for_each Indexes.add_index ims d = Ok d' -> map declared d' = map declared d.
Proof.
  induction ims as [|m ims IH]; intros d d'; simpl.
  - now intros [= ->].
  - unfold Indexes.add_index at 1.
    destruct (Dict.contains d (group 1 m)) eqn:Ec.
    + destruct (item_contains _ _ Ec) as (info & Hitem & Hget).
      rewrite Hitem. simpl. intros H. apply IH in H. rewrite H.
      now apply set_declared.
    + simpl. apply IH.
Qed.

(** C9: in the model of every schema text, each table's foreign-key list is
    its column list with some names left out, in the same order; and the
    index statements change neither list of any table. *)
Theorem C9_foreign_keys_among_columns :
  forall content,
    exists tables,
      Indexes.parse_schema content = Ok tables /\
      (forall name info,
         In (name, info) tables ->
         subseq (Indexes.foreign_keys info) (Indexes.columns info)) /\
      map declared tables = map declared (Indexes.build_tables content).
Proof.
  intros content.
  destruct (parse_schema_spec content) as (tables & Hp & _ & _ & Hget).
  exists tables. split; [exact Hp|]. split.
  - intros name info Hin.
    pose proof (@In_get _ tables name info
                  (parse_schema_keys_NoDup _ Hp) Hin) as E.
    rewrite Hget in E.
    destruct (last_block name (table_blocks content)) as [m|]; [|discriminate].
    injection E as <-. simpl. apply fk_subseq_col.
  - unfold Indexes.parse_schema in Hp. now apply merge_declared in Hp.
Qed.

Lemma C9_foreign_keys_among_columns_witness :
  subseq [tx "user_id"] [tx "user_id"].
Proof.
  destruct (C9_foreign_keys_among_columns two_blocks_text)
    as (tables & Hp & Hsub & _).
  vm_compute in Hp. injection Hp as <-.
  apply (Hsub (tx "posts")
              {| Indexes.columns := [tx "user_id"];
                 Indexes.foreign_keys := [tx "user_id"];
                 Indexes.indexes := [tx "user_id"] |}).
  right. left. reflexivity.
Defined.

(** * What the groups of a match hold *)

Lemma matches_consumes (P : ascii -> Prop) (r : regex) :
  consumes P r ->
  forall prev s w rest k, matches r prev s w rest k -> Forall P w.
Proof.
  induction r as [|c|p|a IHa b IHb|a IHa b IHb|gr p|n a IHa|];
    intros Hc prev s w rest k; simpl in *.
  - intros (-> & _). constructor.
  - intros (_ & -> & _). repeat constructor. exact Hc.
  - intros (x & Hx & _ & -> & _). repeat constructor. auto.
  - intros (u & s1 & c1 & v & c2 & Ha & Hb & -> & _).
    destruct Hc as [Hca Hcb]. apply Forall_app. eauto.
  - destruct Hc as [Hca Hcb]. intros [H|H]; eauto.
  - intros (_ & Hw & _). apply Forall_forall. intros x Hx.
    rewrite forallb_forall in Hw. auto.
  - intros (k0 & H & _). eauto.
  - intros (_ & -> & _). constructor.
Qed.

Lemma matches_captures (P : ascii -> Prop) (r : regex) :
  captures P r ->
  forall prev s w rest k,
    matches r prev s w rest k -> forall n g, In (n, g) k -> Forall P g.
Proof.
  induction r as [|c|p|a IHa b IHb|a IHa b IHb|gr p|n a IHa|];
    intros Hc prev s w rest k; simpl in *.
  - intros (_ & _ & ->) n g [].
  - intros (_ & _ & ->) n g [].
  - intros (x & _ & _ & _ & ->) n g [].
  - intros (u & s1 & c1 & v & c2 & Ha & Hb & _ & ->) n g Hin.
    destruct Hc as [Hca Hcb]. apply in_app_iff in Hin as [Hin|Hin]; eauto.
  - destruct Hc as [Hca Hcb]. intros [H|H]; eauto.
  - intros (_ & _ & ->) n g [].
  - intros (k0 & H & ->) m g Hin. destruct Hc as [Hco Hca].
    apply in_app_iff in Hin as [Hin|[[= _ <-]|[]]]; [eauto|].
    eapply matches_consumes; eauto.
  - intros (_ & _ & _ & ->) n g [].
Qed.

Lemma last_group_In (n : nat) (k : caps) (acc : option text) (g : text) :
  last_group n k acc = Some g -> acc = Some g \/ In (n, g) k.
Proof.
  revert acc. induction k as [|[m h] k IH]; intros acc; simpl; [auto|].
  intros H. apply IH in H as [H|H]; [|auto].
  destruct (Nat.eqb_spec m n) as [->|]; [|auto].
  injection H as ->. auto.
Qed.

Lemma finditer_from_In (r : regex) (s : text) :
  forall prev skip m,
    In m (finditer_from r prev skip s) ->
    exists prev' s', match_here r prev' s' = Some m.
Proof.
  induction s as [|c s IH]; intros prev skip m.
  - destruct skip; simpl; [|contradiction].
    destruct (match_here r prev []) eqn:E; [|contradiction].
    intros [<-|[]]. eauto.
  - destruct skip; cbn [finditer_from].
    + destruct (match_here r prev (c :: s)) eqn:E.
      * intros [<-|H]; eauto.
      * eauto.
    + eauto.
Qed.

(** What a pattern captures is what a match found with it holds. *)
Lemma finditer_captures (P : ascii -> Prop) (r : regex) (s : text) (m : rmatch)
  (n : nat) :
  captures P r -> In m (finditer r s) -> Forall P (group n m).
Proof.
  intros Hc Hin. apply finditer_from_In in Hin as (prev & s' & H).
  apply match_here_Some in H as (rest & H). apply ways_matches in H.
  unfold group. destruct (last_group n (groups m) None) as [g|] eqn:E; [|constructor].
  apply last_group_In in E as [E|E]; [discriminate|].
  eapply matches_captures; eauto.
Qed.

Lemma where_patterns_capture_words (pattern_re : regex) :
  In pattern_re Indexes.where_patterns ->
  captures (fun c => is_word c = true) pattern_re.
Proof.
  intros [<-|[<-|[]]]; cbn; intuition.
Qed.

Lemma has_filter_word (f : source_file) (column : text) :
  has_filter f column -> Forall (fun c => is_word c = true) column.
Proof.
  intros (content & r & m & _ & Hr & Hm & <-).
  eapply finditer_captures; eauto using where_patterns_capture_words.
Qed.

(** * The WHERE-clause analyzer *)

Lemma fold_left_map {A B S} (f : S -> B -> S) (g : A -> B) (l : list A) (s : S) :
  fold_left (fun st a => f st (g a)) l s = fold_left f (map g l) s.
Proof. revert s. induction l as [|a l IH]; intros s; simpl; auto. Qed.

Lemma scan_file_events (st : Indexes.where_state) (f : source_file) :
  Indexes.scan_file st f = fold_left note_event (file_events f) st.
Proof.
  unfold Indexes.scan_file, file_events.
  destruct (file_content f) as [content|]; [|reflexivity].
  revert st. induction Indexes.where_patterns as [|r rs IH]; intros st; simpl.
  - reflexivity.
  - rewrite fold_left_app, <- IH. f_equal.
    unfold Indexes.scan_pattern.
    apply (fold_left_map note_event (fun m => (file_path f, group 1 m))).
Qed.

Lemma scan_events (files : list source_file) (st : Indexes.where_state) :
  fold_left Indexes.scan_file files st =
  fold_left note_event (flat_map file_events files) st.
Proof.
  revert st. induction files as [|f files IH]; intros st; simpl.
  - reflexivity.
  - now rewrite fold_left_app, IH, scan_file_events.
Qed.

Lemma note_events_kept (evs : list event) :
  forall issues seen,
    fst (fold_left note_event evs (issues, seen)) =
    issues ++ map (fun e => Indexes.where_issue (fst e) (snd e)) (kept seen evs).
Proof.
  induction evs as [|e evs IH]; intros issues seen; simpl.
  - now rewrite app_nil_r.
  - unfold note_event at 2. simpl.
    destruct (mem (Indexes.pattern_key (fst e) (snd e)) seen).
    + apply IH.
    + rewrite IH, <- app_assoc. reflexivity.
Qed.

Lemma analyze_where_clauses_kept (w : Indexes.project) :
  Indexes.analyze_where_clauses w =
  map (fun e => Indexes.where_issue (fst e) (snd e))
      (kept [] (flat_map file_events (scanned w))).
Proof.
  unfold Indexes.analyze_where_clauses. rewrite scan_events.
  apply (note_events_kept _ [] []).
Qed.

Lemma names_file_column_issue (path column : text) (e : event) :
  names_file_column path column (Indexes.where_issue (fst e) (snd e)) =
  event_eqb e (path, column).
Proof. reflexivity. Qed.

Lemma event_eqb_eq (a b : event) : event_eqb a b = true <-> a = b.
Proof.
  destruct a as [p c], b as [p' c']. unfold event_eqb. simpl.
  rewrite andb_true_iff, !text_eqb_eq. split; [intros [-> ->]|intros [= -> ->]]; auto.
Qed.

(** One call site gets the finding of its key. *)
Lemma kept_once (e0 : event) (evs : list event) :
  (forall e, In e evs ->
             Indexes.pattern_key (fst e) (snd e)
             = Indexes.pattern_key (fst e0) (snd e0) -> e = e0) ->
  forall seen,
    List.length (filter (fun e => event_eqb e e0) (kept seen evs)) =
    if mem (Indexes.pattern_key (fst e0) (snd e0)) seen then 0
    else if existsb (fun e => event_eqb e e0) evs then 1 else 0.
Proof.
  set (K := Indexes.pattern_key (fst e0) (snd e0)).
  induction evs as [|e evs IH]; intros Hkey seen; simpl.
  - now destruct (mem K seen).
  - assert (Hkey' : forall e', In e' evs ->
              Indexes.pattern_key (fst e') (snd e') = K -> e' = e0).
    { intros e' He'. apply Hkey. now right. }
    destruct (event_eqb e e0) eqn:Ee.
    + apply event_eqb_eq in Ee. subst e. fold K.
      destruct (mem K seen) eqn:Em; [now rewrite IH, Em|].
      simpl. replace (event_eqb e0 e0) with true
        by (symmetry; now apply event_eqb_eq).
      simpl. rewrite IH by assumption. simpl.
      now rewrite text_eqb_refl.
    + assert (Hne : Indexes.pattern_key (fst e) (snd e) <> K).
      { intros E. apply (Hkey e) in E; [|now left]. subst e.
        assert (event_eqb e0 e0 = true) by now apply event_eqb_eq. congruence. }
      destruct (mem (Indexes.pattern_key (fst e) (snd e)) seen) eqn:Em.
      * now apply IH.
      * simpl. rewrite Ee. rewrite IH by assumption. simpl.
        replace (text_eqb K (Indexes.pattern_key (fst e) (snd e))) with false.
        -- reflexivity.
        -- symmetry. apply text_eqb_neq. congruence.
Qed.

Lemma key_inj (s1 c1 s2 c2 : text) :
  ~ In ":"%char c1 -> ~ In ":"%char c2 ->
  s1 ++ ":"%char :: c1 = s2 ++ ":"%char :: c2 -> s1 = s2 /\ c1 = c2.
Proof.
  intros H1 H2. revert s2. induction s1 as [|x s1 IH]; intros [|y s2]; simpl; intros E.
  - injection E as ->. auto.
  - injection E as <- ->. exfalso. apply H1. apply in_app_iff. right. now left.
  - injection E as -> <-. exfalso. apply H2. apply in_app_iff. right. now left.
  - injection E as -> E. apply IH in E as [-> ->]. auto.
Qed.

Lemma word_no_colon (c : text) :
  Forall (fun x => is_word x = true) c -> ~ In ":"%char c.
Proof.
  rewrite Forall_forall. intros H Hin. apply H in Hin. discriminate.
Qed.

Lemma file_events_In (f : source_file) (e : event) :
  In e (file_events f) <-> fst e = file_path f /\ has_filter f (snd e).
Proof.
  unfold file_events, has_filter. destruct e as [p c]. cbn [fst snd].
  destruct (file_content f) as [content|].
  - rewrite in_flat_map. split.
    + intros (r & Hr & Hm). apply in_map_iff in Hm as (m & [= <- <-] & Hm).
      split; [reflexivity|]. exists content, r, m. auto.
    + intros (-> & content' & r & m & [= <-] & Hr & Hm & <-).
      exists r. split; [assumption|]. apply in_map_iff. now exists m.
  - split; [contradiction|]. intros (_ & ? & ? & ? & [=] & _).
Qed.

Lemma filter_map_length {A B} (P : B -> bool) (g : A -> B) (l : list A) :
  List.length (filter P (map g l)) = List.length (filter (fun a => P (g a)) l).
Proof.
  induction l as [|a l IH]; simpl; [reflexivity|].
  destruct (P (g a)); simpl; now rewrite IH.
Qed.

(** C5 (amended): the findings are deduplicated by the key made of the file
    stem and the column.  A scanned file whose stem no other scanned file has
    gets exactly one finding for a column it filters on, however many filter
    calls name that column; so two scanned files of different stems, shared
    with no other scanned file, each get their finding for a common column. *)
Theorem C5_one_finding_per_stem_and_column :
  forall (w : Indexes.project) before f after column,
    scanned w = before ++ f :: after ->
    (forall g, In g (before ++ after) ->
               Indexes.stem (file_path g) <> Indexes.stem (file_path f)) ->
    has_filter f column ->
    List.length (filter (names_file_column (file_path f) column)
                        (Indexes.analyze_where_clauses w)) = 1.
Proof.
  intros w before f after column Hfiles Hstem Hf.
  rewrite analyze_where_clauses_kept, filter_map_length.
  rewrite (filter_ext _ (fun e => event_eqb e (file_path f, column)))
    by (intros e; apply names_file_column_issue).
  rewrite kept_once.
  - simpl. replace (existsb _ _) with true; [reflexivity|].
    symmetry. apply existsb_exists. exists (file_path f, column). split.
    + apply in_flat_map. exists f. split.
      * rewrite Hfiles. apply in_elt.
      * apply file_events_In. auto.
    + now apply event_eqb_eq.
  - intros e He Hkey. apply in_flat_map in He as (g & Hg & He).
    apply file_events_In in He as [Hpath Hgf].
    unfold Indexes.pattern_key in Hkey. cbn [fst snd tx list_ascii_of_string app] in Hkey.
    apply key_inj in Hkey as [Hs Hc];
      eauto using word_no_colon, has_filter_word.
    rewrite Hpath in Hs. rewrite Hfiles in Hg.
    apply in_app_iff in Hg as [Hg|[Hg|Hg]].
    + exfalso. apply (Hstem g); [apply in_app_iff; auto|assumption].
    + subst g. destruct e as [p c]. simpl in *. now subst.
    + exfalso. apply (Hstem g); [apply in_app_iff; auto|assumption].
Qed.

Lemma twice_filtered_has_filter : has_filter twice_filtered (tx "status").
Proof.
  exists (tx "Order.where(status: 'x').or(Order.where(status: 'y'))"),
         Indexes.where_keyword,
         {| whole := tx ".where(status: "; groups := [(1, tx "status")] |}.
  split; [reflexivity|]. split; [now left|]. split; [|reflexivity].
  vm_compute. now left.
Qed.

Lemma C5_one_finding_per_stem_and_column_witness :
  List.length
    (filter (names_file_column (tx "/srv/shop/app/models/order.rb") (tx "status"))
       (Indexes.analyze_where_clauses
          {| Indexes.root_found := true; Indexes.schema_rb := None;
             Indexes.models_rb := [twice_filtered];
             Indexes.controllers_rb := [] |})) = 1.
Proof.
  apply (@C5_one_finding_per_stem_and_column _ [] twice_filtered [] (tx "status")).
  - reflexivity.
  - intros g [].
  - exact twice_filtered_has_filter.
Defined.

(** C5 as stated fails: of two files with the same stem that filter on the
    same column, only the first scanned gets a finding. *)
Lemma C5_counterexample : ~ claim_C5_as_stated.
Proof.
  intros [_ H].
  destruct (H same_stem_project user_model admin_user_model (tx "status"))
    as [_ H2].
  - now left.
  - right. now left.
  - discriminate.
  - exists (tx "User.where(status: 'active')"), Indexes.where_keyword,
           {| whole := tx ".where(status: "; groups := [(1, tx "status")] |}.
    split; [reflexivity|]. split; [now left|]. split; [|reflexivity].
    vm_compute. now left.
  - exists (tx "Admin::User.where(status: 'active')"), Indexes.where_keyword,
           {| whole := tx ".where(status: "; groups := [(1, tx "status")] |}.
    split; [reflexivity|]. split; [now left|]. split; [|reflexivity].
    vm_compute. now left.
  - vm_compute in H2. destruct H2 as [H2|[]]. discriminate H2.
Qed.

(** * The N+1 analyzer *)

Lemma enumerate_In {A} (l : list A) :
  forall start i x,
    In (i, x) (NPlusOne.enumerate start l) <->
    start <= i /\ nth_error l (i - start) = Some x.
Proof.
  unfold NPlusOne.enumerate.
  induction l as [|a l IH]; intros start i x; simpl.
  - split; [contradiction|]. intros [_ H]. destruct (i - start); discriminate.
  - rewrite IH. split.
    + intros [[= <- <-]|[Hle H]].
      * rewrite Nat.sub_diag. auto.
      * split; [lia|]. replace (i - start) with (S (i - S start)) by lia.
        exact H.
    + intros [Hle H]. destruct (Nat.eq_dec i start) as [->|Hne].
      * rewrite Nat.sub_diag in H. injection H as ->. now left.
      * right. split; [lia|].
        replace (i - start) with (S (i - S start)) in H by lia. exact H.
Qed.

Lemma nth_error_line_at (lines : list text) (i : nat) (line : text) :
  1 <= i -> nth_error lines (i - 1) = Some line ->
  i <= List.length lines /\ line_at lines i = line.
Proof.
  intros Hi H. split.
  - assert (i - 1 < List.length lines); [|lia].
    apply nth_error_Some. congruence.
  - unfold line_at. now apply nth_error_nth.
Qed.

Lemma used_later_spec (lines : list text) (i : nat) (var_name : text) :
  NPlusOne.used_later lines i var_name = true <->
  exists k,
    i < k <= i + 20 /\ k <= List.length lines /\
    found (NPlusOne.usage_pattern var_name) (line_at lines k) = true.
Proof.
  unfold NPlusOne.used_later, line_at. rewrite existsb_exists. split.
  - intros (j & Hj & Hf). apply in_seq in Hj. exists (S j).
    replace (S j - 1) with j by lia. repeat split; try lia. exact Hf.
  - intros (k & Hk & Hlen & Hf). exists (k - 1). split; [|exact Hf].
    apply in_seq. lia.
Qed.

Lemma check_line_In (path : text) (lines : list text) (i : nat) (line : text)
  (f : finding) :
  In f (NPlusOne.check_line path lines i line) <->
  f = NPlusOne.n_plus_one_issue path i /\
  found NPlusOne.query_pattern line = true /\
  found NPlusOne.eager_pattern (NPlusOne.context lines i) = false /\
  exists var_match,
    search NPlusOne.var_pattern line = Some var_match /\
    NPlusOne.used_later lines i (group 1 var_match) = true.
Proof.
  unfold NPlusOne.check_line.
  destruct (found NPlusOne.query_pattern line);
    [|split; [contradiction|intros (_ & [=] & _)]].
  destruct (found NPlusOne.eager_pattern (NPlusOne.context lines i)); simpl;
    [split; [contradiction|intros (_ & _ & [=] & _)]|].
  destruct (search NPlusOne.var_pattern line) as [vm|];
    [|split; [contradiction|intros (_ & _ & _ & ? & [=] & _)]].
  destruct (NPlusOne.used_later lines i (group 1 vm)) eqn:E; split.
  - intros [<-|[]]. repeat split. exists vm. auto.
  - intros (-> & _). now left.
  - contradiction.
  - intros (_ & _ & _ & vm' & [= <-] & H). congruence.
Qed.

(** The findings of a controller file are the flagged lines. *)
Lemma analyze_controller_action_In (path content : text) (f : finding) :
  In f (NPlusOne.analyze_controller_action path content) <->
  exists L, f = NPlusOne.n_plus_one_issue path L /\
            flagged (split newline content) L.
Proof.
  unfold NPlusOne.analyze_controller_action. rewrite in_flat_map. split.
  - intros ([i line] & Hin & Hf). simpl in Hf.
    apply enumerate_In in Hin as [Hi Hnth].
    apply nth_error_line_at in Hnth as [Hlen Hline]; [|exact Hi].
    apply check_line_In in Hf as (-> & Hq & He & vm & Hv & Hu).
    exists i. split; [reflexivity|]. unfold flagged. rewrite Hline.
    repeat split; auto. exists vm. split; [exact Hv|].
    now apply used_later_spec.
  - intros (L & -> & (HL1 & HL2) & Hq & He & vm & Hv & Hu).
    exists (L, line_at (split newline content) L). split.
    + apply enumerate_In. split; [exact HL1|].
      unfold line_at. apply nth_error_nth'. lia.
    + simpl. apply check_line_In. repeat split; auto.
      exists vm. split; [exact Hv|]. now apply used_later_spec.
Qed.

Lemma n_plus_one_issue_at (path : text) (L L' : nat) :
  n_plus_one_at L (NPlusOne.n_plus_one_issue path L') <-> L' = L.
Proof.
  unfold n_plus_one_at. split.
  - intros (_ & _ & H). cbn in H. injection H as H. lia.
  - intros ->. repeat split.
Qed.

Lemma slice_lines (lines : list text) (a b : nat) :
  b <= List.length lines ->
  NPlusOne.slice a b lines = map (fun n => line_at lines n) (seq (S a) (b - a)).
Proof.
  unfold NPlusOne.slice, line_at. revert a b.
  induction lines as [|l lines IH]; intros a b Hb; simpl in Hb.
  - assert (b = 0) by lia. subst b. reflexivity.
  - destruct (b - a) as [|n] eqn:E; [reflexivity|].
    destruct a as [|a].
    + destruct b as [|b]; [discriminate|].
      assert (n = b) by lia. subst n.
      specialize (IH 0 b ltac:(lia)). simpl in IH. rewrite Nat.sub_0_r in IH.
      simpl. f_equal. rewrite IH, <- (seq_shift b 1), map_map.
      apply map_ext_in. intros k Hk. apply in_seq in Hk.
      destruct k as [|k]; [lia|]. simpl. now rewrite Nat.sub_0_r.
    + destruct b as [|b]; [discriminate|].
      simpl skipn. specialize (IH a b ltac:(lia)).
      replace (b - a) with (S n) in IH by lia. rewrite IH.
      rewrite <- (seq_shift (S n) (S a)), map_map.
      apply map_ext_in. intros k Hk. apply in_seq in Hk.
      destruct k as [|k]; [lia|]. simpl. now rewrite Nat.sub_0_r.
Qed.

(** The window searched for eager loading around line [L]: lines [L - 2] to
    [L + 2], cut at the first and the last line of the file. *)
Lemma context_window (lines : list text) (L : nat) :
  NPlusOne.context lines L =
  join [newline]
       (map (fun n => line_at lines n)
            (seq (S (L - 3)) (Nat.min (List.length lines) (L + 2) - (L - 3)))).
Proof.
  unfold NPlusOne.context. simpl Nat.max. f_equal.
  apply slice_lines. apply Nat.le_min_l.
Qed.

Example posts_controller_flagged :
  NPlusOne.analyze_controller_action (tx "/srv/shop/app/controllers/posts_controller.rb")
                                     posts_controller
  = [NPlusOne.n_plus_one_issue (tx "/srv/shop/app/controllers/posts_controller.rb") 2].
Proof. vm_compute. reflexivity. Qed.

(** * The connection-settings analyzers *)

Lemma issue_shape (env_name : text) (setting severity : string)
  (message recommendation : text) :
  In setting connection_settings -> In severity severities ->
  settings_shape env_name (Config.issue env_name setting severity message recommendation).
Proof. intros Hs Hv. now exists setting, severity, message, recommendation. Qed.

Ltac in_list := cbn [In connection_settings severities]; tauto.

Ltac shape_of H :=
  repeat match type of H with
         | In _ (_ ++ _) => apply in_app_iff in H; destruct H as [H|H]
         | In _ (if ?b then _ else _) => destruct b
         | In _ [] => contradiction H
         | In _ [_] => destruct H as [<-|[]]; apply issue_shape; in_list
         end.

Lemma pool_int_shape env_name n shown f :
  In f (Config.pool_int_issues env_name n shown) -> settings_shape env_name f.
Proof. unfold Config.pool_int_issues. intros H. shape_of H. Qed.

Lemma connection_pool_shape env_config env_name f :
  In f (Config.analyze_connection_pool env_config env_name) ->
  settings_shape env_name f.
Proof.
  unfold Config.analyze_connection_pool. intros H.
  destruct (Dict.get env_config (tx "pool")) as [[| [|] | | | | | | | |]|];
    try (now apply pool_int_shape in H); shape_of H.
Qed.

Lemma timeouts_shape env_config env_name fs f :
  Config.analyze_timeouts env_config env_name = Ok fs -> In f fs ->
  settings_shape env_name f.
Proof.
  unfold Config.analyze_timeouts, bind.
  destruct (if negb (Dict.contains env_config (tx "variables")) then Ok true else _)
    as [b|]; [|discriminate].
  intros [= <-] H. shape_of H.
Qed.

Lemma prepared_statements_shape env_config env_name f :
  In f (Config.analyze_prepared_statements env_config env_name) ->
  settings_shape env_name f.
Proof.
  unfold Config.analyze_prepared_statements. intros H.
  destruct (Dict.get env_config (tx "prepared_statements")) as [[| [|] | | | | | | | |]|];
    shape_of H.
Qed.

Lemma reaping_frequency_shape env_config env_name f :
  In f (Config.analyze_reaping_frequency env_config env_name) ->
  settings_shape env_name f.
Proof. unfold Config.analyze_reaping_frequency. intros H. shape_of H. Qed.

Lemma ssl_shape env_config env_name f :
  In f (Config.check_ssl_configuration env_config env_name) ->
  settings_shape env_name f.
Proof. unfold Config.check_ssl_configuration. intros H. shape_of H. Qed.

Lemma extensions_shape env_name f :
  In f (Config.suggest_performance_extensions env_name) ->
  settings_shape env_name f.
Proof. unfold Config.suggest_performance_extensions. intros H. shape_of H. Qed.

Lemma emitted_shape env_config env_name f :
  emitted env_config env_name f -> settings_shape env_name f.
Proof.
  intros [H|[(fs & Hfs & H)|[H|[H|[H|H]]]]];
    eauto using connection_pool_shape, timeouts_shape, prepared_statements_shape,
      reaping_frequency_shape, ssl_shape, extensions_shape.
Qed.

(** C6 (amended): a finding of the connection-settings analyzers has no
    ['type']; it names a ['setting'] among [pool], [statement_timeout],
    [connect_timeout], [checkout_timeout], [prepared_statements],
    [reaping_frequency], [sslmode] and [extensions], and carries the
    environment, a severity that is [warning] or [info], a message and a
    recommendation. *)
Theorem C6_settings_findings_shape :
  forall env_config env_name f,
    emitted env_config env_name f ->
    field "type" f = None /\
    exists setting severity message recommendation,
      In setting connection_settings /\ In severity severities /\
      f = [("environment", PStr env_name);
           ("setting", PStr (tx setting));
           ("severity", PStr (tx severity));
           ("message", PStr message);
           ("recommendation", PStr recommendation)].
Proof.
  intros env_config env_name f H.
  apply emitted_shape in H as (setting & severity & message & rec & Hs & Hv & ->).
  split; [reflexivity|]. now exists setting, severity, message, rec.
Qed.

Lemma C6_settings_findings_shape_witness :
  field "type"
    (Config.issue (tx "production") "sslmode" "warning"
       (tx "SSL/TLS not enforced for production database connections")
       (tx "Add sslmode: require or sslmode: verify-full for secure connections"))
  = None.
Proof.
  refine (proj1 (@C6_settings_findings_shape [] (tx "production") _ _)).
  right. right. right. right. left. left. reflexivity.
Defined.

(** C6 as stated fails: the findings carry no ['type'] at all. *)
Lemma C6_counterexample : ~ claim_C6_as_stated.
Proof.
  intros H.
  destruct (H [] (tx "production")
              (Config.issue (tx "production") "pool" "warning"
                 (tx "Connection pool size not explicitly set (defaults to 5)")
                 (tx "Set pool size based on your application threads/workers. For Puma with 5 threads: pool: 5")))
    as [(t & _ & Ht) _].
  - left. left. reflexivity.
  - discriminate Ht.
Qed.

(** * What the reports print *)

Lemma unicode_stdout_capable : capable unicode_stdout.
Proof. repeat split. Qed.

Lemma encodable_capable (out : stdout) (t : text) :
  capable out -> encodable out t = true.
Proof.
  intros (_ & _ & H). unfold encodable. apply forallb_forall.
  intros c _. rewrite H. apply orb_true_r.
Qed.

Lemma py_print_capable (out : stdout) (l : printed) :
  capable out -> py_print out l = Ok tt.
Proof.
  intros H. unfold py_print. destruct l as [t|a b].
  - now rewrite (encodable_capable t H).
  - destruct H as (Hr & Hs & Hc).
    now rewrite Hs, !(@encodable_capable out _ (conj Hr (conj Hs Hc))).
Qed.

Lemma py_print_fine (out : stdout) (l : printed) : fine (py_print out l).
Proof. unfold py_print, fine. destruct (match l with Plain _ => _ | _ => _ end); auto. Qed.

Lemma py_print_no_signs (out : stdout) (a b : text) :
  encodes_signs out = false -> py_print out (Signed a b) = Raise UnicodeEncodeError.
Proof. intros H. unfold py_print. now rewrite H. Qed.

Lemma rule_printed (out : stdout) :
  py_print out (rule "="%char) = Ok tt /\ py_print out (rule "-"%char) = Ok tt.
Proof. split; reflexivity. Qed.

Lemma bind_fine (c : result unit) (k : unit -> result unit) :
  fine c -> fine (k tt) -> fine (bind c k).
Proof. intros [->| ->] Hk; simpl; [exact Hk|now right]. Qed.

Lemma bind_fails (c : result unit) (k : unit -> result unit) :
  fine c -> k tt = Raise UnicodeEncodeError ->
  bind c k = Raise UnicodeEncodeError.
Proof. intros [->| ->] Hk; simpl; [exact Hk|reflexivity]. Qed.

Lemma for_each_fine {A} (body : unit -> A -> result unit) (l : list A) :
  (forall x, In x l -> fine (body tt x)) -> fine (for_each body l tt).
Proof.
  induction l as [|x l IH]; intros H; simpl; [now left|].
  destruct (H x (or_introl eq_refl)) as [E|E]; rewrite E; simpl.
  - apply IH. intros y Hy. apply H. now right.
  - now right.
Qed.

Lemma for_each_done {A} (body : unit -> A -> result unit) (l : list A) :
  (forall x, In x l -> body tt x = Ok tt) -> for_each body l tt = Ok tt.
Proof.
  induction l as [|x l IH]; intros H; simpl; [reflexivity|].
  rewrite (H x (or_introl eq_refl)). simpl.
  apply IH. intros y Hy. apply H. now right.
Qed.


Ltac prints :=
  repeat first
    [ apply py_print_fine
    | apply bind_fine
    | match goal with |- fine (Ok tt) => now left end ].

(** * Exit statuses *)

Lemma has_text_field (k : string) (v : text) (f : finding) :
  has_text k v f = true -> field k f = Some (PStr v).
Proof.
  unfold has_text. destruct (field k f) as [[s|z]|]; try discriminate.
  intros H. apply text_eqb_eq in H. now subst.
Qed.

Lemma warning_not_info (f : finding) : is_warning f = true -> is_info f = false.
Proof.
  unfold is_warning, is_info. intros H. apply has_text_field in H.
  unfold has_text. now rewrite H.
Qed.

Lemma info_not_warning (f : finding) : is_info f = true -> is_warning f = false.
Proof.
  unfold is_warning, is_info. intros H. apply has_text_field in H.
  unfold has_text. now rewrite H.
Qed.

(** Grouping by severity succeeds on findings that are warnings or infos. *)
Lemma group_by_severity_from (issues : list finding) :
  (forall f, In f issues -> is_warning f = true \/ is_info f = true) ->
  forall a b,
    for_each
      (fun by_severity issue =>
         severity <- field_item "severity" issue ;;
         match severity with
         | PStr s =>
             l <- Dict.item by_severity s ;;
             Ok (Dict.set by_severity s (l ++ [issue]))
         | PInt _ => Raise KeyError
         end)
      issues [(tx "warning", a); (tx "info", b)]
    = Ok [(tx "warning", a ++ filter is_warning issues);
          (tx "info", b ++ filter is_info issues)].
Proof.
  induction issues as [|f issues IH]; intros H a b.
  - simpl. now rewrite !app_nil_r.
  - cbn [for_each filter].
    assert (Hrest : forall g, In g issues -> is_warning g = true \/ is_info g = true)
      by (intros g Hg; apply H; now right).
    destruct (H f (or_introl eq_refl)) as [Hw|Hi].
    + rewrite Hw, (@warning_not_info f Hw).
      unfold field_item. rewrite (@has_text_field _ _ f Hw). cbn.
      rewrite (IH Hrest). now rewrite <- app_assoc.
    + rewrite Hi, (@info_not_warning f Hi).
      unfold field_item. rewrite (@has_text_field _ _ f Hi). cbn.
      rewrite (IH Hrest). now rewrite <- app_assoc.
Qed.

Lemma group_by_severity_ok (issues : list finding) :
  (forall f, In f issues -> is_warning f = true \/ is_info f = true) ->
  group_by_severity issues
  = Ok [(tx "warning", filter is_warning issues);
        (tx "info", filter is_info issues)].
Proof.
  intros H. unfold group_by_severity.
  now rewrite (@group_by_severity_from issues H [] []).
Qed.





























Lemma shape_severity (env_name : text) (f : finding) :
  settings_shape env_name f -> is_warning f = true \/ is_info f = true.
Proof.
  intros (setting & severity & message & rec & _ & Hv & ->).
  destruct Hv as [<-|[<-|[]]]; [left|right]; reflexivity.
Qed.

Lemma analyze_environment_shape (config : Config.yaml) (acc : list finding)
  (env_name : text) (issues : list finding) :
  Config.analyze_environment config acc env_name = Ok issues ->
  forall f, In f issues -> In f acc \/ settings_shape env_name f.
Proof.
  unfold Config.analyze_environment, bind.
  destruct (Config.py_in env_name config) as [[|]|]; simpl; try discriminate.
  - destruct (Config.py_item config env_name) as [[| | | | | |env_config| | |]|];
      try discriminate; try (intros [= <-]; auto).
    destruct (Config.analyze_timeouts env_config env_name) as [ts|] eqn:Et;
      [|discriminate].
    intros [= <-] f Hf. rewrite !in_app_iff in Hf.
    destruct Hf as [Hf|[Hf|[Hf|[Hf|[Hf|Hf]]]]]; [now left|right..];
      apply (@emitted_shape env_config); unfold emitted; eauto 8.
  - intros [= <-]. auto.
Qed.

Lemma analyze_severities (config : Config.yaml) (issues : list finding) :
  Config.analyze config = Ok issues ->
  forall f, In f issues -> is_warning f = true \/ is_info f = true.
Proof.
  unfold Config.analyze. cbn [for_each]. unfold bind.
  destruct (Config.analyze_environment config [] (tx "development")) as [i1|] eqn:E1;
    [|discriminate].
  destruct (Config.analyze_environment config i1 (tx "test")) as [i2|] eqn:E2;
    [|discriminate].
  destruct (Config.analyze_environment config i2 (tx "production")) as [i3|] eqn:E3;
    [|discriminate].
  intros [= <-] f Hf. apply in_app_iff in Hf as [Hf|Hf].
  - eapply analyze_environment_shape in Hf; [|exact E3].
    destruct Hf as [Hf|Hf]; [|eauto using shape_severity].
    eapply analyze_environment_shape in Hf; [|exact E2].
    destruct Hf as [Hf|Hf]; [|eauto using shape_severity].
    eapply analyze_environment_shape in Hf; [|exact E1].
    destruct Hf as [[]|Hf]. eauto using shape_severity.
  - apply extensions_shape in Hf. eauto using shape_severity.
Qed.

Lemma analyze_shape (config : Config.yaml) (issues : list finding) :
  Config.analyze config = Ok issues ->
  forall f, In f issues -> exists env_name, settings_shape env_name f.
Proof.
  unfold Config.analyze. cbn [for_each]. unfold bind.
  destruct (Config.analyze_environment config [] (tx "development")) as [i1|] eqn:E1;
    [|discriminate].
  destruct (Config.analyze_environment config i1 (tx "test")) as [i2|] eqn:E2;
    [|discriminate].
  destruct (Config.analyze_environment config i2 (tx "production")) as [i3|] eqn:E3;
    [|discriminate].
  intros [= <-] f Hf. apply in_app_iff in Hf as [Hf|Hf].
  - eapply analyze_environment_shape in Hf; [|exact E3].
    destruct Hf as [Hf|Hf]; [|eauto].
    eapply analyze_environment_shape in Hf; [|exact E2].
    destruct Hf as [Hf|Hf]; [|eauto].
    eapply analyze_environment_shape in Hf; [|exact E1].
    destruct Hf as [[]|Hf]. eauto.
  - apply extensions_shape in Hf. eauto.
Qed.

(** The report never ends on the message for no recommendation: the
    extension suggestion is always there when the analysis runs to its end. *)
Lemma analyze_never_looks_good (config : Config.yaml) (issues : list finding) :
  Config.analyze config = Ok issues ->
  Config.looks_good issues = false /\
  In (Config.issue (tx "all") "extensions" "info"
        (tx "Consider enabling pg_stat_statements extension")
        (tx "Enable in PostgreSQL config:" ++ [newline]
         ++ tx "  shared_preload_libraries = 'pg_stat_statements'" ++ [newline]
         ++ tx "Then run: CREATE EXTENSION IF NOT EXISTS pg_stat_statements;"))
     issues.
Proof.
  unfold Config.analyze, bind.
  destruct (for_each _ _ _) as [acc|]; [|discriminate].
  intros [= <-]. split.
  - unfold Config.suggest_performance_extensions. now destruct acc.
  - apply in_app_iff. right. now left.
Qed.

(** The lines of a finding of the configuration script. *)
Lemma config_report_issue (out : stdout) (f : finding) :
  (exists env_name, settings_shape env_name f) ->
  fine (Config.report_issue out f) /\
  (capable out -> Config.report_issue out f = Ok tt) /\
  (encodes_signs out = false ->
   Config.report_issue out f = Raise UnicodeEncodeError).
Proof.
  intros (env_name & setting & severity & message & recommendation & _ & _ & ->).
  unfold Config.report_issue, field_item.
  cbn [Config.issue field String.eqb Ascii.eqb Bool.eqb bind].
  split; [prints|split].
  - intros H. now rewrite !(@py_print_capable out _ H).
  - intros H. apply bind_fails; [apply py_print_fine|].
    now rewrite (@py_print_no_signs out _ _ H).
Qed.

Lemma config_report_severity (out : stdout) (all_issues : list finding)
  (severity : text * text) :
  (forall f, In f all_issues -> exists env_name, settings_shape env_name f) ->
  let by_severity :=
    [(tx "warning", filter is_warning all_issues);
     (tx "info", filter is_info all_issues)] in
  forall issues,
    Dict.item by_severity (fst severity) = Ok issues ->
    incl issues all_issues ->
    fine (Config.report_severity out by_severity severity) /\
    (capable out -> Config.report_severity out by_severity severity = Ok tt).
Proof.
  intros Hall by_severity issues Hitem Hincl.
  unfold Config.report_severity. rewrite Hitem. cbn [bind].
  destruct issues as [|f issues].
  - split; [now left|reflexivity].
  - rewrite (proj2 (rule_printed out)). cbn [bind].
    split.
    + apply bind_fine; [apply py_print_fine|].
      apply for_each_fine. intros g Hg.
      now apply config_report_issue, Hall, Hincl.
    + intros H. rewrite (@py_print_capable out _ H). cbn [bind].
      apply for_each_done. intros g Hg.
      now apply config_report_issue; [apply Hall, Hincl|].
Qed.

Lemma config_report (out : stdout) (all_issues : list finding) :
  (forall f, In f all_issues -> exists env_name, settings_shape env_name f) ->
  all_issues <> [] ->
  let by_severity :=
    [(tx "warning", filter is_warning all_issues);
     (tx "info", filter is_info all_issues)] in
  fine (Config.report out all_issues by_severity) /\
  (capable out -> Config.report out all_issues by_severity = Ok tt) /\
  (encodes_signs out = false ->
   Config.report out all_issues by_severity = Raise UnicodeEncodeError).
Proof.
  intros Hall Hne by_severity.
  destruct (@config_report_severity out all_issues (tx "warning", tx "WARNING")
              Hall (filter is_warning all_issues) eq_refl)
    as (Wf & Wc); [intros f Hf; now apply filter_In in Hf|].
  destruct (@config_report_severity out all_issues (tx "info", tx "INFO")
              Hall (filter is_info all_issues) eq_refl)
    as (If & Ic); [intros f Hf; now apply filter_In in Hf|].
  fold by_severity in Wf, Wc, If, Ic.
  unfold Config.report. cbn [for_each].
  destruct all_issues as [|f0 rest]; [now contradiction Hne|].
  cbn [Config.looks_good].
  assert (Hloops : fine (s' <- Config.report_severity out by_severity
                                 (tx "warning", tx "WARNING") ;;
                         s'' <- Config.report_severity out by_severity
                                  (tx "info", tx "INFO") ;;
                         Ok s'')).
  { apply bind_fine; [exact Wf|]. apply bind_fine; [exact If|now left]. }
  split; [|split].
  - apply bind_fine; [apply py_print_fine|].
    apply bind_fine; [exact Hloops|]. prints.
  - intros H. rewrite !(@py_print_capable out _ H), (Wc H), (Ic H).
    reflexivity.
  - intros H. apply bind_fails; [apply py_print_fine|].
    apply bind_fails; [exact Hloops|].
    apply bind_fails; [apply py_print_fine|].
    now rewrite (@py_print_no_signs out _ _ H).
Qed.

(** How the configuration script ends when the analysis runs to its end. *)
Lemma config_main_status (out : stdout) (w : Config.project)
  (config : Config.yaml) (issues : list finding) :
  Config.root_found w = true ->
  Config.database_yml w = Some (Ok config) ->
  Config.analyze config = Ok issues ->
  encodes_root out = true ->
  (capable out -> Config.main out w = Exit 0) /\
  (encodes_signs out = false ->
   Config.main out w = Uncaught UnicodeEncodeError) /\
  (Config.main out w = Exit 0 \/
   Config.main out w = Uncaught UnicodeEncodeError).
Proof.
  intros Hroot Hyml Han Hr. unfold Config.main, print_root.
  rewrite Hroot, Hyml, Hr, Han, (proj1 (rule_printed out)). cbn [negb bind].
  rewrite (@group_by_severity_ok issues (@analyze_severities config issues Han)).
  cbn [bind].
  destruct (@config_report out issues (analyze_shape config Han))
    as (Rf & Rc & Rs).
  { intros E. apply analyze_never_looks_good in Han as [Hl _].
    rewrite E in Hl. discriminate. }
  split; [|split].
  - intros H. now rewrite (Rc H).
  - intros H. now rewrite (Rs H).
  - destruct Rf as [E|E]; rewrite E; cbn [bind run]; auto.
Qed.

(** C7: the exit status of the configuration analysis.  A [database.yml]
    that parses, with [variables:] left empty under [production], makes
    [analyze_timeouts] raise [TypeError]; nothing catches it, and the process
    ends with status 1 where the claim has 0, whatever the standard output:
    with the [TypeError] uncaught on a terminal in UTF-8 and on every
    standard output that takes the line naming the Rails root (where it
    lacks that line, the uncaught exception is the [UnicodeEncodeError] of
    the line). *)
Theorem C7_config_main_uncaught :
  Config.root_found unset_variables_project = true /\
  Config.database_yml unset_variables_project = Some (Ok unset_variables_config) /\
  Config.main unicode_stdout unset_variables_project = Uncaught TypeError /\
  (forall out,
     Config.main out unset_variables_project
     = Uncaught (if encodes_root out then TypeError else UnicodeEncodeError)) /\
  (forall out, exit_status (Config.main out unset_variables_project) = 1%Z).
Proof.
  split; [reflexivity|]. split; [reflexivity|]. split; [reflexivity|].
  assert (H : forall out,
             Config.main out unset_variables_project
             = Uncaught (if encodes_root out then TypeError
                         else UnicodeEncodeError)).
  { intros out. unfold Config.main, print_root. cbn [negb].
    change (Config.root_found unset_variables_project) with true.
    change (Config.database_yml unset_variables_project)
      with (Some (Ok unset_variables_config)).
    cbn [negb]. destruct (encodes_root out); [|reflexivity].
    cbn [bind]. rewrite (proj1 (rule_printed out)). reflexivity. }
  split; [exact H|]. intros out. now rewrite H.
Qed.

(** C10: the findings of the configuration analysis.  For the mapping with
    [variables:] left empty under [production], [analyze_timeouts] raises
    [TypeError] and the analysis emits no finding at all. *)
Theorem C10_analyze_raises :
  Config.analyze_timeouts
    [(tx "adapter", Config.YStr (tx "postgresql"));
     (tx "pool", Config.YInt 5);
     (tx "variables", Config.YNull)]
    (tx "production") = Raise TypeError /\
  Config.analyze unset_variables_config = Raise TypeError.
Proof. split; reflexivity. Qed.


(** * Index statements after a clear text *)

Lemma first_seq (a b : regex) prev s u s1 c1 v s2 c2 :
  hd_error (ways a prev s) = Some (u, s1, c1) ->
  hd_error (ways b (prev_after prev u) s1) = Some (v, s2, c2) ->
  hd_error (ways (Seq a b) prev s) = Some (u ++ v, s2, c1 ++ c2).
Proof.
  simpl. destruct (ways a prev s) as [|wa ta]; [discriminate|].
  intros [= ->]. simpl.
  destruct (ways b (prev_after prev u) s1) as [|wb tb]; [discriminate|].
  intros [= ->]. reflexivity.
Qed.

Lemma first_chr (c : ascii) prev s :
  hd_error (ways (Chr c) prev (c :: s)) = Some ([c], s, []).
Proof. simpl. now rewrite Ascii.eqb_refl. Qed.

Lemma first_lit (l : text) prev s :
  l <> [] -> hd_error (ways (Lit_chars l) prev (l ++ s)) = Some (l, s, []).
Proof.
  revert prev. induction l as [|c l IH]; intros prev Hl; [contradiction|].
  destruct l as [|c' l].
  - apply first_chr.
  - change (Lit_chars (c :: c' :: l)) with (Seq (Chr c) (Lit_chars (c' :: l))).
    apply (@first_seq (Chr c) (Lit_chars (c' :: l)) prev ((c :: c' :: l) ++ s)
             [c] ((c' :: l) ++ s) [] (c' :: l) s []).
    + apply first_chr.
    + apply IH. discriminate.
Qed.

Lemma first_star_greedy (p : ascii -> bool) (W rest : text) :
  forallb p W = true -> stops p rest = true ->
  hd_error (star_greedy p (W ++ rest)) = Some (W, rest).
Proof.
  intros HW Hrest. induction W as [|x W IH]; simpl in *.
  - destruct rest as [|c rest]; [reflexivity|].
    simpl in Hrest. apply negb_true_iff in Hrest. simpl. now rewrite Hrest.
  - apply andb_true_iff in HW as [Hx HW]. rewrite Hx.
    specialize (IH HW).
    destruct (star_greedy p (W ++ rest)) as [|w t]; [discriminate|].
    injection IH as ->. reflexivity.
Qed.

Lemma first_plus (p : ascii -> bool) prev (x : ascii) (W rest : text) :
  p x = true -> forallb p W = true -> stops p rest = true ->
  hd_error (ways (Plus true p) prev (x :: W ++ rest)) = Some (x :: W, rest, []).
Proof.
  intros Hx HW Hrest.
  apply (@first_seq (Cls p) (Star true p) prev (x :: W ++ rest)
           [x] (W ++ rest) [] W rest []).
  - simpl. now rewrite Hx.
  - simpl. pose proof (@first_star_greedy p W rest HW Hrest) as H.
    destruct (star_greedy p (W ++ rest)) as [|w t]; [discriminate|].
    injection H as ->. reflexivity.
Qed.

Lemma first_grp (n : nat) (a : regex) prev s u s1 c1 :
  hd_error (ways a prev s) = Some (u, s1, c1) ->
  hd_error (ways (Grp n a) prev s) = Some (u, s1, c1 ++ [(n, u)]).
Proof.
  simpl. destruct (ways a prev s) as [|wa ta]; [discriminate|].
  now intros [= ->].
Qed.

Lemma first_opt_chr (c : ascii) prev s :
  exists u s', hd_error (ways (Opt (Chr c)) prev s) = Some (u, s', []).
Proof.
  unfold Opt. destruct s as [|x s]; simpl; [eauto|].
  destruct (Ascii.eqb x c); simpl; eauto.
Qed.

Lemma first_opt_chr_yes (c : ascii) prev s :
  hd_error (ways (Opt (Chr c)) prev (c :: s)) = Some ([c], s, []).
Proof. unfold Opt. simpl. now rewrite Ascii.eqb_refl. Qed.

Lemma first_opt_chr_no (c x : ascii) prev s :
  x <> c -> hd_error (ways (Opt (Chr c)) prev (x :: s)) = Some ([], x :: s, []).
Proof.
  intros H. unfold Opt. simpl.
  destruct (Ascii.eqb x c) eqn:E; [|reflexivity].
  apply Ascii.eqb_eq in E. contradiction.
Qed.

Lemma first_plus_one (p : ascii -> bool) prev (x : ascii) (rest : text) :
  p x = true -> stops p rest = true ->
  hd_error (ways (Plus true p) prev (x :: rest)) = Some ([x], rest, []).
Proof. intros Hx Hr. now apply (@first_plus p prev x [] rest). Qed.

Ltac first_step :=
  first [ apply first_chr
        | match goal with
          | |- hd_error (ways (Lit_chars ?l) _ _) = _ =>
              apply (@first_lit l); discriminate
          end
        | apply first_plus_one; reflexivity
        | apply first_plus; [assumption|assumption|reflexivity]
        | apply first_opt_chr_yes
        | apply first_opt_chr_no; discriminate ].

(** The index pattern reads the head of an index statement: the table and
    the first column. *)
Lemma index_first (table column : text) (bracket : bool) prev (tail : text) :
  is_name table -> is_name column ->
  exists m,
    match_here Indexes.index_pattern prev
               (index_head table column bracket ++ tail) = Some m /\
    group 1 m = table /\ group 2 m = column.
Proof.
  intros [Ht0 Ht] [Hc0 Hc].
  destruct table as [|t0 T]; [contradiction|].
  destruct column as [|c0 C]; [contradiction|].
  cbn in Ht, Hc.
  apply andb_true_iff in Ht as [Ht1 Ht]. apply andb_true_iff in Hc as [Hc1 Hc].
  assert (H : exists u s' k,
             hd_error (ways Indexes.index_pattern prev
                            (index_head (t0 :: T) (c0 :: C) bracket ++ tail))
             = Some (u, s', k) /\ k = [(1, t0 :: T); (2, c0 :: C)]).
  { destruct (first_opt_chr "]"%char (Some dquote) tail) as (u2 & s2 & H2).
    unfold index_head, quoted.
    repeat (progress (cbn [app tx list_ascii_of_string]; rewrite <- ?app_assoc)).
    unfold Indexes.index_pattern, Lit. cbn [Seqs].
    destruct bracket; cbn [app]; do 3 eexists; split.
    - eapply first_seq; [first_step|].
      eapply first_seq; [first_step|].
      eapply first_seq; [first_step|].
      eapply first_seq; [apply first_grp; first_step|].
      eapply first_seq; [first_step|].
      eapply first_seq; [first_step|].
      eapply first_seq; [first_step|].
      eapply first_seq; [first_step|].
      eapply first_seq; [first_step|].
      eapply first_seq; [apply first_grp; first_step|].
      eapply first_seq; [first_step|].
      exact H2.
    - reflexivity.
    - eapply first_seq; [first_step|].
      eapply first_seq; [first_step|].
      eapply first_seq; [first_step|].
      eapply first_seq; [apply first_grp; first_step|].
      eapply first_seq; [first_step|].
      eapply first_seq; [first_step|].
      eapply first_seq; [first_step|].
      eapply first_seq; [first_step|].
      eapply first_seq; [first_step|].
      eapply first_seq; [apply first_grp; first_step|].
      eapply first_seq; [first_step|].
      exact H2.
    - reflexivity. }
  destruct H as (u & s' & k & H & ->).
  unfold match_here.
  destruct (ways Indexes.index_pattern prev _) as [|[[u' r'] k'] tl]; [discriminate|].
  injection H as -> -> ->. eexists. split; [reflexivity|]. split; reflexivity.
Qed.







Ltac break_or :=
  repeat match goal with
  | H : exists _, _ |- _ => destruct H
  | H : _ /\ _ |- _ => destruct H
  | H : _ \/ _ |- _ => destruct H
  end; subst.

Lemma app_split_long (u rest : text) (A B : text) :
  u ++ rest = A ++ B -> List.length A < List.length u ->
  exists y, u = A ++ y /\ y <> [] /\ B = y ++ rest.
Proof.
  revert u. induction A as [|a A IH]; intros u E Hlen.
  - exists u. simpl in *. repeat split; [|now symmetry].
    destruct u; [simpl in Hlen; lia|discriminate].
  - destruct u as [|a' u]; [simpl in Hlen; lia|].
    simpl in E, Hlen. injection E as -> E.
    destruct (IH u E ltac:(lia)) as (y & -> & Hy & ->).
    now exists y.
Qed.
















Example second_column_parsed :
  Indexes.parse_schema second_column_text = Ok second_column_tables.
Proof. vm_compute. reflexivity. Qed.


(** * More on the connection-settings analyzers *)

(** X1: [analyze_connection_pool] emits at most one finding, decided by the
    value of [pool]: a warning when it is missing or null, for an integer a
    warning below 5, an info above 20 and nothing from 5 to 20; a boolean
    counts as the integer 0 or 1 and gets the warning; any other value (a
    string, a float, a list, a mapping) gets nothing. *)
Theorem connection_pool_by_value :
  forall env_config env_name,
    let issues := Config.analyze_connection_pool env_config env_name in
    match Dict.get env_config (tx "pool") with
    | None | Some Config.YNull | Some (Config.YBool _) =>
        exists f, issues = [f] /\ is_warning f = true
    | Some (Config.YInt n) =>
        ((n < 5)%Z -> exists f, issues = [f] /\ is_warning f = true) /\
        ((20 < n)%Z -> exists f, issues = [f] /\ is_info f = true) /\
        ((5 <= n <= 20)%Z -> issues = [])
    | Some _ => issues = []
    end.
Proof.
  intros env_config env_name issues. unfold issues, Config.analyze_connection_pool.
  destruct (Dict.get env_config (tx "pool")) as [[| [|] |n| | | | | | |]|];
    try (eexists; split; reflexivity); try reflexivity.
  unfold Config.pool_int_issues.
  destruct (Z.ltb_spec n 5); [|destruct (Z.ltb_spec 20 n)]; repeat split;
    intros; try lia; try reflexivity; eexists; split; reflexivity.
Qed.

Lemma connection_pool_by_value_witness :
  exists f,
    Config.analyze_connection_pool [(tx "pool", Config.YInt 50)] (tx "production")
    = [f] /\ is_info f = true.
Proof.
  apply (proj1 (proj2 (connection_pool_by_value [(tx "pool", Config.YInt 50)]
                         (tx "production")))).
  reflexivity.
Defined.

Lemma py_in_scalar (s : text) (v : Config.yaml) :
  Config.py_in s v = Raise TypeError <-> is_scalar v = true.
Proof. destruct v; simpl; split; congruence. Qed.

Lemma py_in_container (s : text) (v : Config.yaml) :
  is_scalar v = false -> exists b, Config.py_in s v = Ok b.
Proof. destruct v; simpl; try discriminate; eauto. Qed.

Lemma analyze_timeouts_outcome (env_config : Dict.dict Config.yaml)
  (env_name : text) :
  if scalar_variables env_config
  then Config.analyze_timeouts env_config env_name = Raise TypeError
  else exists fs,
      Config.analyze_timeouts env_config env_name = Ok fs /\
      List.length fs <= 3.
Proof.
  unfold scalar_variables, Config.analyze_timeouts, Dict.contains, bind.
  destruct (Dict.get env_config (tx "variables")) as [v|]; cbn [negb].
  - destruct (is_scalar v) eqn:Ev.
    + apply (py_in_scalar (tx "statement_timeout")) in Ev. now rewrite Ev.
    + destruct (@py_in_container (tx "statement_timeout") v Ev) as (b & ->).
      eexists. split; [reflexivity|].
      rewrite !length_app.
      destruct (negb b), (Dict.get env_config (tx "connect_timeout")),
        (Dict.get env_config (tx "checkout_timeout")); simpl; lia.
  - eexists. split; [reflexivity|].
    rewrite !length_app.
    destruct (Dict.get env_config (tx "connect_timeout")),
      (Dict.get env_config (tx "checkout_timeout")); simpl; lia.
Qed.

(** X2: [analyze_timeouts] raises exactly when the section has a
    [variables] key whose value is null, a boolean, a number, a date or
    bytes, and then it raises [TypeError]; otherwise (no [variables] key, or
    a string, a sequence, a mapping or a set under it) it returns at most
    three findings. *)
Theorem timeouts_raise_on_scalar_variables :
  forall env_config env_name,
    if scalar_variables env_config
    then Config.analyze_timeouts env_config env_name = Raise TypeError
    else exists fs,
        Config.analyze_timeouts env_config env_name = Ok fs /\
        List.length fs <= 3.
Proof. exact analyze_timeouts_outcome. Qed.

Lemma timeouts_by_key :
  forall env_config env_name variables,
    Dict.get env_config (tx "variables") = Some (Config.YMap variables) ->
    exists fs,
      Config.analyze_timeouts env_config env_name = Ok fs /\
      (existsb (has_text "setting" (tx "statement_timeout")) fs
       = negb (Dict.contains variables (tx "statement_timeout"))) /\
      (existsb (has_text "setting" (tx "connect_timeout")) fs
       = negb (Dict.contains env_config (tx "connect_timeout"))) /\
      (existsb (has_text "setting" (tx "checkout_timeout")) fs
       = negb (Dict.contains env_config (tx "checkout_timeout"))) /\
      List.length fs
      = (if Dict.contains variables (tx "statement_timeout") then 0 else 1)
        + (if Dict.contains env_config (tx "connect_timeout") then 0 else 1)
        + (if Dict.contains env_config (tx "checkout_timeout") then 0 else 1).
Proof.
  intros env_config env_name variables Hv.
  unfold Config.analyze_timeouts.
  assert (Hc : Dict.contains env_config (tx "variables") = true)
    by (unfold Dict.contains; now rewrite Hv).
  rewrite Hc, Hv. cbn [negb Config.py_in bind].
  destruct (Dict.contains variables (tx "statement_timeout")),
    (Dict.contains env_config (tx "connect_timeout")),
    (Dict.contains env_config (tx "checkout_timeout"));
    eexists; (split; [reflexivity|]); repeat split; reflexivity.
Qed.

(** X3: the timeouts a section has set are not reported: with
    [statement_timeout] under a [variables] mapping and the keys
    [connect_timeout] and [checkout_timeout], [analyze_timeouts] returns no
    finding; each one that is missing gives exactly its own finding. *)
Theorem timeouts_reported_when_missing :
  forall env_config env_name variables,
    Dict.get env_config (tx "variables") = Some (Config.YMap variables) ->
    exists fs,
      Config.analyze_timeouts env_config env_name = Ok fs /\
      (existsb (has_text "setting" (tx "statement_timeout")) fs
       = negb (Dict.contains variables (tx "statement_timeout"))) /\
      (existsb (has_text "setting" (tx "connect_timeout")) fs
       = negb (Dict.contains env_config (tx "connect_timeout"))) /\
      (existsb (has_text "setting" (tx "checkout_timeout")) fs
       = negb (Dict.contains env_config (tx "checkout_timeout"))) /\
      List.length fs
      = (if Dict.contains variables (tx "statement_timeout") then 0 else 1)
        + (if Dict.contains env_config (tx "connect_timeout") then 0 else 1)
        + (if Dict.contains env_config (tx "checkout_timeout") then 0 else 1).
Proof. exact timeouts_by_key. Qed.

Lemma timeouts_reported_when_missing_witness :
  exists fs,
    Config.analyze_timeouts tuned_production (tx "production") = Ok fs /\
    List.length fs = 0.
Proof.
  destruct (@timeouts_reported_when_missing tuned_production (tx "production")
              [(tx "statement_timeout", Config.YInt 30000)] eq_refl)
    as (fs & Hfs & _ & _ & _ & Hlen).
  exists fs. split; [exact Hfs|exact Hlen].
Defined.

Lemma analyze_environment_section (m : Dict.dict Config.yaml)
  (acc : list finding) (env_name : text) :
  Config.analyze_environment (Config.YMap m) acc env_name =
  match env_section m env_name with
  | Some env_config =>
      timeouts <- Config.analyze_timeouts env_config env_name ;;
      Ok (acc ++ Config.analyze_connection_pool env_config env_name ++ timeouts
          ++ Config.analyze_prepared_statements env_config env_name
          ++ Config.analyze_reaping_frequency env_config env_name
          ++ Config.check_ssl_configuration env_config env_name)
  | None => Ok acc
  end.
Proof.
  unfold Config.analyze_environment, env_section, Config.py_in, Config.py_item,
    Dict.contains, Dict.item, bind.
  destruct (Dict.get m env_name) as [[]|]; reflexivity.
Qed.

(** X4: a section with every setting the analyzers look at adds no finding:
    an integer [pool] from 5 to 20, [statement_timeout] under a [variables]
    mapping, the keys [connect_timeout], [checkout_timeout] and
    [reaping_frequency], a [prepared_statements] that is neither null nor
    false, and an [sslmode] that is set and is not [disable]. *)
Theorem tuned_section_adds_nothing :
  forall m env_config env_name acc n variables prepared sslmode,
    Dict.get m env_name = Some (Config.YMap env_config) ->
    Dict.get env_config (tx "pool") = Some (Config.YInt n) ->
    (5 <= n <= 20)%Z ->
    Dict.get env_config (tx "variables") = Some (Config.YMap variables) ->
    Dict.contains variables (tx "statement_timeout") = true ->
    Dict.contains env_config (tx "connect_timeout") = true ->
    Dict.contains env_config (tx "checkout_timeout") = true ->
    Dict.contains env_config (tx "reaping_frequency") = true ->
    Dict.get env_config (tx "prepared_statements") = Some prepared ->
    prepared <> Config.YNull -> prepared <> Config.YBool false ->
    Dict.get env_config (tx "sslmode") = Some sslmode ->
    Config.truthy sslmode = true ->
    Config.eq_str sslmode (tx "disable") = false ->
    Config.analyze_environment (Config.YMap m) acc env_name = Ok acc.
Proof.
  intros m env_config env_name acc n variables prepared sslmode
    Hsec Hpool Hn Hvars Hst Hct Hco Hrf Hps Hps1 Hps2 Hssl Hssl1 Hssl2.
  rewrite analyze_environment_section. unfold env_section. rewrite Hsec.
  destruct (@timeouts_by_key env_config env_name variables Hvars)
    as (fs & Hfs & _ & _ & _ & Hlen).
  rewrite Hfs, Hst, Hct, Hco in *. simpl in Hlen.
  destruct fs; [|discriminate]. cbn [bind].
  unfold Config.analyze_connection_pool, Config.pool_int_issues.
  rewrite Hpool.
  destruct (Z.ltb_spec n 5); [lia|]. destruct (Z.ltb_spec 20 n); [lia|].
  unfold Config.analyze_prepared_statements. rewrite Hps.
  unfold Config.analyze_reaping_frequency. rewrite Hrf.
  unfold Config.check_ssl_configuration. rewrite Hssl, Hssl1, Hssl2.
  cbn [negb andb orb app].
  replace (match prepared with
           | Config.YNull => _
           | Config.YBool true => []
           | Config.YBool false => _
           | _ => []
           end) with (@nil finding).
  - destruct (text_eqb env_name (tx "production")); now rewrite !app_nil_r.
  - destruct prepared as [| [|] | | | | | | | |]; try reflexivity; congruence.
Qed.

Lemma tuned_section_adds_nothing_witness :
  Config.analyze_environment
    (Config.YMap [(tx "production", Config.YMap tuned_production)])
    [] (tx "production") = Ok [].
Proof.
  apply (@tuned_section_adds_nothing
           [(tx "production", Config.YMap tuned_production)]
           tuned_production (tx "production") [] 10%Z
           [(tx "statement_timeout", Config.YInt 30000)]
           (Config.YBool true) (Config.YStr (tx "require")));
    try reflexivity; try discriminate; lia.
Defined.


Lemma analyze_environment_outcome (m : Dict.dict Config.yaml)
  (acc : list finding) (env_name : text) :
  if raising_section m env_name
  then Config.analyze_environment (Config.YMap m) acc env_name = Raise TypeError
  else exists more,
      Config.analyze_environment (Config.YMap m) acc env_name = Ok (acc ++ more) /\
      (env_section m env_name = None -> more = []).
Proof.
  rewrite analyze_environment_section. unfold raising_section.
  destruct (env_section m env_name) as [env_config|].
  - pose proof (analyze_timeouts_outcome env_config env_name) as H.
    destruct (scalar_variables env_config).
    + now rewrite H.
    + destruct H as (fs & -> & _). cbn [bind]. eexists. split; [reflexivity|].
      discriminate.
  - exists []. now rewrite app_nil_r.
Qed.

(** X5: for a configuration mapping, the analysis raises exactly when one
    of [development], [test], [production] is a mapping whose [variables]
    is null, a boolean, a number, a date or bytes, and then it raises
    [TypeError]; otherwise it returns findings that end with the extension
    suggestion. *)
Theorem analyze_outcome :
  forall m,
    if existsb (raising_section m) environments
    then Config.analyze (Config.YMap m) = Raise TypeError
    else exists issues,
        Config.analyze (Config.YMap m)
        = Ok (issues ++ Config.suggest_performance_extensions (tx "all")).
Proof.
  intros m. unfold Config.analyze, environments. cbn [for_each existsb].
  pose proof (analyze_environment_outcome m [] (tx "development")) as H1.
  destruct (raising_section m (tx "development")); [now rewrite H1|].
  destruct H1 as (i1 & -> & _). cbn [bind app orb].
  pose proof (analyze_environment_outcome m i1 (tx "test")) as H2.
  destruct (raising_section m (tx "test")); [now rewrite H2|].
  destruct H2 as (i2 & -> & _). cbn [bind orb].
  pose proof (analyze_environment_outcome m (i1 ++ i2) (tx "production")) as H3.
  destruct (raising_section m (tx "production")); [now rewrite H3|].
  destruct H3 as (i3 & -> & _). cbn [bind orb]. eauto.
Qed.

(** X6: a configuration mapping in which none of [development], [test],
    [production] is a mapping (an empty file of settings, other environment
    names, a section that is a string) gives exactly one finding, the
    extension suggestion. *)
Theorem analyze_without_sections :
  forall m,
    (forall env_name, In env_name environments -> env_section m env_name = None) ->
    Config.analyze (Config.YMap m)
    = Ok (Config.suggest_performance_extensions (tx "all")).
Proof.
  intros m H. unfold Config.analyze. cbn [for_each].
  rewrite !analyze_environment_section.
  rewrite (H (tx "development")) by (simpl; auto). cbn [bind].
  rewrite analyze_environment_section.
  rewrite (H (tx "test")) by (simpl; auto). cbn [bind].
  rewrite analyze_environment_section.
  rewrite (H (tx "production")) by (simpl; auto). reflexivity.
Qed.

Lemma analyze_without_sections_witness :
  Config.analyze (Config.YMap [(tx "staging", Config.YMap [])])
  = Ok (Config.suggest_performance_extensions (tx "all")).
Proof.
  apply analyze_without_sections.
  intros env_name [<-|[<-|[<-|[]]]]; reflexivity.
Defined.

Lemma analyze_environment_raises (config : Config.yaml) (acc : list finding)
  (env_name : text) (e : exn) :
  Config.analyze_environment config acc env_name = Raise e -> e = TypeError.
Proof.
  destruct config as [| | | | | |m| | |];
    try (unfold Config.analyze_environment; simpl; congruence).
  - unfold Config.analyze_environment, bind. simpl.
    destruct (substring_of env_name s); simpl; congruence.
  - unfold Config.analyze_environment, bind. simpl.
    destruct (existsb _ l); simpl; congruence.
  - pose proof (analyze_environment_outcome m acc env_name) as H.
    destruct (raising_section m env_name).
    + rewrite H. congruence.
    + destruct H as (more & -> & _). discriminate.
  - unfold Config.analyze_environment, bind. simpl.
    destruct (existsb _ l); simpl; congruence.
Qed.

Lemma analyze_raises (config : Config.yaml) (e : exn) :
  Config.analyze config = Raise e -> e = TypeError.
Proof.
  unfold Config.analyze. cbn [for_each]. unfold bind at 1 2 3 4.
  destruct (Config.analyze_environment config [] (tx "development")) as [i1|e1] eqn:E1.
  - destruct (Config.analyze_environment config i1 (tx "test")) as [i2|e2] eqn:E2.
    + destruct (Config.analyze_environment config i2 (tx "production")) as [i3|e3] eqn:E3.
      * discriminate.
      * intros [= <-]. eapply analyze_environment_raises; eauto.
    + intros [= <-]. eapply analyze_environment_raises; eauto.
  - intros [= <-]. eapply analyze_environment_raises; eauto.
Qed.

(** X7: how the configuration script ends: with status 1 when the Rails
    root or [config/database.yml] is missing; otherwise it prints the line
    that names the root, and ends with an uncaught [UnicodeEncodeError] where
    the standard output lacks that line, and with status 1 when the file
    does not load.  When the analysis raises, it ends with an uncaught
    [TypeError].  When the analysis returns, whatever it found, it ends with
    status 0 on a standard output that takes everything it prints, with an
    uncaught [UnicodeEncodeError] on one that lacks the signs of the report,
    and in no other way. *)
Theorem config_main_outcome :
  forall out w,
    match Config.root_found w, Config.database_yml w with
    | true, Some loaded =>
        if encodes_root out then
          match loaded with
          | Raise _ => Config.main out w = Exit 1
          | Ok config =>
              match Config.analyze config with
              | Raise _ => Config.main out w = Uncaught TypeError
              | Ok _ =>
                  (capable out -> Config.main out w = Exit 0) /\
                  (encodes_signs out = false ->
                   Config.main out w = Uncaught UnicodeEncodeError) /\
                  (Config.main out w = Exit 0 \/
                   Config.main out w = Uncaught UnicodeEncodeError)
              end
          end
        else Config.main out w = Uncaught UnicodeEncodeError
    | _, _ => Config.main out w = Exit 1
    end.
Proof.
  intros out w. destruct (Config.root_found w) eqn:Hroot.
  - destruct (Config.database_yml w) as [[config|e]|] eqn:Hyml.
    + destruct (encodes_root out) eqn:Hr.
      * destruct (Config.analyze config) as [issues|e] eqn:Han.
        -- eapply config_main_status; eauto.
        -- apply analyze_raises in Han as Ht. subst e.
           unfold Config.main, print_root.
           rewrite Hroot, Hyml, Hr, Han, (proj1 (rule_printed out)).
           reflexivity.
      * unfold Config.main, print_root. now rewrite Hroot, Hyml, Hr.
    + unfold Config.main, print_root. rewrite Hroot, Hyml.
      destruct (encodes_root out); [|reflexivity].
      cbn [negb bind]. now rewrite (proj1 (rule_printed out)).
    + unfold Config.main. now rewrite Hroot, Hyml.
  - unfold Config.main. rewrite Hroot.
    destruct (Config.database_yml w) as [[|]|]; reflexivity.
Qed.

Lemma config_main_outcome_witness :
  Config.main unicode_stdout
    {| Config.root_found := true;
       Config.database_yml := Some (Ok bare_sections_config) |}
  = Exit 0.
Proof.
  apply (config_main_outcome unicode_stdout
           {| Config.root_found := true;
              Config.database_yml := Some (Ok bare_sections_config) |}).
  exact unicode_stdout_capable.
Defined.

(** * Where a search finds a match *)

Lemma finditer_from_In_at (r : regex) (s : text) :
  forall prev skip m,
    In m (finditer_from r prev skip s) ->
    exists pre rest,
      s = pre ++ rest /\ match_here r (prev_after prev pre) rest = Some m.
Proof.
  induction s as [|c s IH]; intros prev skip m.
  - destruct skip; simpl; [|contradiction].
    destruct (match_here r prev []) eqn:E; [|contradiction].
    intros [<-|[]]. now exists [], [].
  - assert (Hrec : forall k, In m (finditer_from r (Some c) k s) ->
                exists pre rest, c :: s = pre ++ rest /\
                                 match_here r (prev_after prev pre) rest = Some m).
    { intros k H. apply IH in H as (pre & rest & -> & H).
      now exists (c :: pre), rest. }
    destruct skip; cbn [finditer_from]; [|apply Hrec].
    destruct (match_here r prev (c :: s)) eqn:E; [|apply Hrec].
    intros [<-|H]; [|eapply Hrec; eauto]. now exists [], (c :: s).
Qed.

Lemma finditer_from_at (r : regex) (pre rest : text) :
  forall prev,
    match_here r (prev_after prev pre) rest <> None ->
    finditer_from r prev 0 (pre ++ rest) <> [].
Proof.
  induction pre as [|c pre IH]; intros prev H.
  - simpl in *. destruct (match_here r prev rest) eqn:E; [|contradiction].
    destruct rest; simpl; rewrite E; discriminate.
  - cbn [app finditer_from].
    destruct (match_here r prev (c :: pre ++ rest)); [discriminate|].
    now apply IH.
Qed.

(** A search succeeds exactly when the pattern matches at some position. *)
Lemma found_iff (r : regex) (s : text) :
  found r s = true <->
  exists pre rest, s = pre ++ rest /\ ways r (prev_after None pre) rest <> [].
Proof.
  unfold found, search, finditer. split.
  - destruct (finditer_from r None 0 s) as [|m l] eqn:E; [discriminate|].
    intros _.
    destruct (@finditer_from_In_at r s None 0 m) as (pre & rest & Hs & Hm).
    { rewrite E. now left. }
    exists pre, rest. split; [exact Hs|].
    intros Hw. apply match_here_None in Hw. congruence.
  - intros (pre & rest & -> & Hw).
    destruct (finditer_from r None 0 (pre ++ rest)) eqn:E; [|reflexivity].
    exfalso. revert E. apply finditer_from_at.
    intros Hn. apply match_here_None in Hn. contradiction.
Qed.

Lemma ways_nonempty_iff (r : regex) prev (s : text) :
  ways r prev s <> [] <-> exists w rest k, matches r prev s w rest k.
Proof.
  split.
  - destruct (ways r prev s) as [|[[w rest] k] l] eqn:E; [congruence|].
    intros _. exists w, rest, k. apply ways_matches. rewrite E. now left.
  - intros (w & rest & k & H) E. apply ways_matches in H. now rewrite E in H.
Qed.

Lemma matches_lit_intro (l : text) prev (rest : text) :
  l <> [] -> matches (Lit_chars l) prev (l ++ rest) l rest [].
Proof.
  intros Hl. apply ways_matches.
  pose proof (@first_lit l prev rest Hl) as H.
  destruct (ways (Lit_chars l) prev (l ++ rest)); [discriminate|].
  injection H as ->. now left.
Qed.

Lemma matches_lit_elim (l : text) prev (s w rest : text) (k : caps) :
  matches (Lit_chars l) prev s w rest k -> w = l /\ s = l ++ rest /\ k = [].
Proof.
  revert prev s w rest k. induction l as [|c l IH]; intros prev s w rest k.
  - simpl. intros (-> & -> & ->). auto.
  - destruct l as [|c' l].
    + simpl. intros (-> & -> & ->). auto.
    + change (Lit_chars (c :: c' :: l)) with (Seq (Chr c) (Lit_chars (c' :: l))).
      simpl matches at 1.
      intros (u & s1 & c1 & v & c2 & (-> & -> & ->) & Hb & -> & ->).
      apply IH in Hb as (-> & -> & ->). auto.
Qed.

Lemma matches_alts_lits (K : list text) prev (s w rest : text) (k : caps) :
  K <> [] -> (forall kw, In kw K -> kw <> []) ->
  (matches (Alts (map Lit_chars K)) prev s w rest k <->
   In w K /\ s = w ++ rest /\ k = []).
Proof.
  induction K as [|a K IH]; intros HK Hne; [contradiction|].
  destruct K as [|b K].
  - simpl map. simpl Alts. split.
    + intros H. apply matches_lit_elim in H as (-> & -> & ->). simpl. auto.
    + intros ([<-|[]] & -> & ->). apply matches_lit_intro. apply Hne. now left.
  - change (Alts (map Lit_chars (a :: b :: K)))
      with (Alt (Lit_chars a) (Alts (map Lit_chars (b :: K)))).
    simpl matches. rewrite IH; [|discriminate|intros kw Hkw; apply Hne; now right].
    split.
    + intros [H|(Hin & -> & ->)].
      * apply matches_lit_elim in H as (-> & -> & ->). simpl. auto.
      * split; [now right|auto].
    + intros ([<-|Hin] & -> & ->).
      * left. apply matches_lit_intro. apply Hne. now left.
      * right. auto.
Qed.

Lemma prev_after_app (prev : option ascii) (u v : text) :
  prev_after prev (u ++ v) = prev_after (prev_after prev u) v.
Proof. unfold prev_after. apply fold_left_app. Qed.

Lemma word_before (prev : option ascii) (kw : text) :
  kw <> [] -> forallb is_word kw = true -> word_at (prev_after prev kw) = true.
Proof.
  revert prev. induction kw as [|c kw IH]; intros prev Hne Hw; [contradiction|].
  simpl in Hw. apply andb_true_iff in Hw as [Hc Hw].
  destruct kw as [|c' kw]; [exact Hc|].
  apply (IH (Some c)); [discriminate|exact Hw].
Qed.

(** Where a call pattern matches. *)
Lemma call_pattern_here (K : list text) prev (s : text) :
  K <> [] -> is_words K ->
  (ways (call_pattern K) prev s <> [] <->
   exists kw rest,
     In kw K /\ s = "."%char :: kw ++ rest /\ word_at (hd_error rest) = false).
Proof.
  intros HK Hw.
  assert (Hne : forall kw, In kw K -> kw <> []) by (intros kw H; now apply Hw).
  rewrite ways_nonempty_iff. unfold call_pattern, Lit. cbn [Seqs tx list_ascii_of_string Lit_chars].
  split.
  - intros (w & rest & k & H). simpl in H.
    destruct H as (u & s1 & c1 & v & c2 & (-> & -> & ->) & H & -> & ->).
    destruct H as (u & s2 & c1 & v' & c2' & (k0 & Hk & ->) & Hb & -> & ->).
    apply (matches_alts_lits _ _ _ _ _ HK Hne) in Hk as (Hin & -> & ->).
    destruct Hb as (Hx & -> & -> & ->).
    exists u, s2. split; [exact Hin|]. split; [reflexivity|].
    destruct (Hw u Hin) as [Hu0 Huw].
    rewrite (word_before _ Hu0 Huw) in Hx.
    now destruct (word_at (hd_error s2)).
  - intros (kw & rest & Hin & -> & Hnext).
    destruct (Hw kw Hin) as [Hk0 Hkw].
    exists ("."%char :: kw), rest, [(1, kw)]. simpl.
    exists ["."%char], (kw ++ rest), [], kw, [(1, kw)].
    split; [auto|]. split; [|auto].
    exists kw, rest, [(1, kw)], [], []. split.
    + exists []. split; [|reflexivity].
      apply (matches_alts_lits _ _ _ _ _ HK Hne). auto.
    + split; [|now rewrite app_nil_r].
      rewrite (word_before _ Hk0 Hkw), Hnext. auto.
Qed.

Lemma found_call_pattern (K : list text) (s : text) :
  K <> [] -> is_words K -> (found (call_pattern K) s = true <-> calls K s).
Proof.
  intros HK Hw. rewrite found_iff. unfold calls. split.
  - intros (pre & rest & -> & H).
    apply (call_pattern_here _ _ HK Hw) in H as (kw & rest' & Hin & -> & Hn).
    now exists pre, kw, rest'.
  - intros (pre & kw & rest & Hin & -> & Hn).
    exists pre, ("."%char :: kw ++ rest). split; [reflexivity|].
    apply (call_pattern_here _ _ HK Hw). now exists kw, rest.
Qed.

Lemma query_words_words : is_words query_words.
Proof. intros kw [<-|[<-|[<-|[<-|[]]]]]; split; (discriminate || reflexivity). Qed.

Lemma eager_words_words : is_words eager_words.
Proof. intros kw [<-|[<-|[<-|[]]]]; split; (discriminate || reflexivity). Qed.

Lemma found_eager_call (line : text) :
  found NPlusOne.eager_pattern line = true <-> calls eager_words line.
Proof.
  apply (@found_call_pattern eager_words line); [discriminate|].
  exact eager_words_words.
Qed.

(** X8: what the two call patterns of the N+1 analyzer find: a dot, one of
    the method names, and then no word character; so [.find_by_name] or
    [.includes_all] is not a call. *)
Theorem call_patterns_found :
  forall line,
    (found NPlusOne.query_pattern line = true <-> calls query_words line) /\
    (found NPlusOne.eager_pattern line = true <-> calls eager_words line).
Proof.
  intros line. split.
  - apply (@found_call_pattern query_words line); [discriminate|].
    exact query_words_words.
  - apply found_eager_call.
Qed.

(** * Searching the joined lines of a window *)

Lemma prefix_before_sep (c : ascii) (m rest l J : text) :
  ~ In c m -> m ++ rest = l ++ c :: J ->
  exists x, l = m ++ x /\ rest = x ++ c :: J.
Proof.
  revert l. induction m as [|a m IH]; intros l Hc E.
  - now exists l.
  - destruct l as [|a' l]; simpl in E; injection E as -> E.
    + exfalso. apply Hc. now left.
    + destruct (IH l) as (x & -> & ->); [intros H; apply Hc; now right|exact E|].
      now exists x.
Qed.

Lemma occurrence_beside_sep (c : ascii) (pre m rest l J : text) :
  ~ In c m -> pre ++ m ++ rest = l ++ c :: J ->
  (exists x, l = pre ++ m ++ x /\ rest = x ++ c :: J) \/
  (exists y, pre = l ++ c :: y /\ J = y ++ m ++ rest).
Proof.
  revert l. induction pre as [|a pre IH]; intros l Hc E.
  - left. simpl in *. now apply prefix_before_sep.
  - destruct l as [|a' l]; simpl in E; injection E as -> E.
    + right. now exists pre.
    + destruct (IH l Hc E) as [(x & -> & ->)|(y & -> & ->)].
      * left. now exists x.
      * right. now exists y.
Qed.

Lemma word_no_newline (kw : text) :
  forallb is_word kw = true -> ~ In newline ("."%char :: kw).
Proof.
  intros Hw [H|H]; [discriminate|].
  rewrite forallb_forall in Hw. apply Hw in H. discriminate.
Qed.

Lemma calls_join (K : list text) (ls : list text) :
  is_words K ->
  (calls K (join [newline] ls) <-> exists l, In l ls /\ calls K l).
Proof.
  intros Hw. induction ls as [|l ls IH].
  - simpl. split.
    + intros (pre & kw & rest & _ & E & _). now destruct pre.
    + intros (l & [] & _).
  - destruct ls as [|l2 ls].
    + simpl. split; [intros H; exists l; auto|].
      now intros (l' & [<-|[]] & H).
    + change (join [newline] (l :: l2 :: ls))
        with (l ++ newline :: join [newline] (l2 :: ls)).
      split.
      * intros (pre & kw & rest & Hin & E & Hn).
        destruct (Hw kw Hin) as [_ Hkw].
        symmetry in E.
        change (pre ++ "."%char :: kw ++ rest)
          with (pre ++ ("."%char :: kw) ++ rest) in E.
        apply occurrence_beside_sep in E as [(x & -> & ->)|(y & -> & E)];
          [| |now apply word_no_newline].
        -- exists (pre ++ ("."%char :: kw) ++ x). split; [now left|].
           exists pre, kw, x. split; [exact Hin|]. split; [reflexivity|].
           destruct x; [reflexivity|exact Hn].
        -- destruct IH as [IH _].
           destruct IH as (l' & Hl' & Hc).
           { exists y, kw, rest. auto. }
           exists l'. split; [now right|exact Hc].
      * intros (l' & [<-|Hl'] & Hc).
        -- destruct Hc as (pre & kw & rest & Hin & -> & Hn).
           exists pre, kw, (rest ++ newline :: join [newline] (l2 :: ls)).
           split; [exact Hin|]. split.
           ++ rewrite <- app_assoc. simpl. now rewrite <- app_assoc.
           ++ destruct rest; [reflexivity|exact Hn].
        -- destruct IH as [_ IH].
           destruct IH as (pre & kw & rest & Hin & E & Hn); [now exists l'|].
           exists (l ++ newline :: pre), kw, rest.
           split; [exact Hin|]. split; [|exact Hn].
           rewrite E, <- app_assoc. reflexivity.
Qed.

Lemma context_search (lines : list text) (L : nat) :
  found NPlusOne.eager_pattern (NPlusOne.context lines L)
  = existsb (fun n => found NPlusOne.eager_pattern (line_at lines n))
            (window lines L).
Proof.
  apply eq_true_iff_eq.
  rewrite context_window. fold (window lines L).
  rewrite found_eager_call.
  rewrite (calls_join _ eager_words_words), existsb_exists.
  split.
  - intros (l & Hl & Hc). apply in_map_iff in Hl as (n & <- & Hn).
    exists n. split; [exact Hn|]. now apply found_eager_call.
  - intros (n & Hn & Hf). exists (line_at lines n). split.
    + now apply in_map.
    + now apply found_eager_call.
Qed.

(** X9: the search for eager loading in the joined window is a search in
    each line of the window: lines [L - 2] to [L + 2] of the file, cut at
    its first and last line. *)
Theorem eager_window_by_line :
  forall lines L,
    found NPlusOne.eager_pattern (NPlusOne.context lines L)
    = existsb (fun n => found NPlusOne.eager_pattern (line_at lines n))
              (window lines L).
Proof. exact context_search. Qed.

(** * The N+1 rule in terms of the text *)

Lemma found_query_call (line : text) :
  found NPlusOne.query_pattern line = true <-> calls query_words line.
Proof.
  apply (@found_call_pattern query_words line); [discriminate|].
  exact query_words_words.
Qed.

(** [re.search] returns the match at the first place that has one. *)
Lemma first_match (r : regex) (s : text) :
  forall prev m,
    hd_error (finditer_from r prev 0 s) = Some m <->
    exists pre rest,
      s = pre ++ rest /\
      match_here r (prev_after prev pre) rest = Some m /\
      forall pre1 pre2,
        pre = pre1 ++ pre2 -> pre2 <> [] ->
        match_here r (prev_after prev pre1) (pre2 ++ rest) = None.
Proof.
  induction s as [|c s IH]; intros prev m.
  - cbn [finditer_from]. split.
    + destruct (match_here r prev []) as [m'|] eqn:E; [|discriminate].
      intros [= <-]. exists [], []. split; [reflexivity|]. split; [exact E|].
      intros pre1 pre2 H Hne. destruct pre1, pre2; try discriminate.
      now contradiction Hne.
    + intros (pre & rest & E & Hm & _).
      symmetry in E. apply app_eq_nil in E as [-> ->]. simpl in Hm.
      now rewrite Hm.
  - cbn [finditer_from]. split.
    + destruct (match_here r prev (c :: s)) as [m'|] eqn:E.
      * intros [= <-]. exists [], (c :: s). split; [reflexivity|]. split; [exact E|].
        intros pre1 pre2 H Hne. destruct pre1, pre2; try discriminate.
        now contradiction Hne.
      * intros H. apply IH in H as (pre & rest & -> & Hm & Hno).
        exists (c :: pre), rest. split; [reflexivity|]. split; [exact Hm|].
        intros [|c1 pre1] pre2 H Hne.
        -- simpl in H. subst pre2. exact E.
        -- injection H as <- ->. simpl. now apply Hno.
    + intros (pre & rest & E & Hm & Hno).
      destruct pre as [|c0 pre].
      * simpl in *. subst rest. now rewrite Hm.
      * injection E as <- ->.
        pose proof (Hno [] (c :: pre) eq_refl ltac:(discriminate)) as E0.
        simpl in E0. rewrite E0.
        apply IH. exists pre, rest. split; [reflexivity|]. split; [exact Hm|].
        intros pre1 pre2 -> Hne. now apply (Hno (c :: pre1) pre2).
Qed.

Lemma var_matches prev s w rest k :
  matches NPlusOne.var_pattern prev s w rest k ->
  exists var, assigns_at var s /\ k = [(1, var)].
Proof.
  intros H. cbn in H. break.
  match goal with
  | Hx : is_word ?x = true, HW : forallb is_word ?W = true,
    HS : forallb is_space ?S = true |- _ =>
      exists (x :: W); split; [exists S; eexists; split; [|split]|]
  end.
  - list_eq.
  - split; [discriminate|]. cbn [forallb].
    repeat match goal with H : _ = true |- _ => rewrite H end. reflexivity.
  - assumption.
  - reflexivity.
Qed.

Lemma var_matches_intro prev var s :
  assigns_at var s -> exists w rest k, matches NPlusOne.var_pattern prev s w rest k.
Proof.
  intros (S & post & -> & [Hv0 Hv] & HS).
  destruct var as [|x W]; [contradiction|].
  cbn in Hv. apply andb_true_iff in Hv as [Hx HW].
  exists ("@"%char :: (x :: W) ++ S ++ ["="%char]), post, [(1, x :: W)].
  eapply matches_cast.
  - unfold NPlusOne.var_pattern, Lit. cbn [Seqs Lit_chars tx list_ascii_of_string].
    eapply matches_seq_intro; [apply matches_chr_intro|].
    eapply matches_seq_intro;
      [apply matches_grp_intro; apply matches_plus_intro; eassumption|].
    eapply matches_seq_intro; [apply matches_star_intro; eassumption|].
    apply matches_chr_intro.
  - list_eq.
  - reflexivity.
Qed.

Lemma assigns_at_unique (v1 v2 s : text) :
  assigns_at v1 s -> assigns_at v2 s -> v1 = v2.
Proof.
  intros (S1 & p1 & E1 & [_ H1] & HS1) (S2 & p2 & E2 & [_ H2] & HS2).
  rewrite E1 in E2. injection E2 as E.
  assert (Hstop : forall S p, forallb is_space S = true ->
                              exists d t, S ++ "="%char :: p = d :: t /\
                                          is_word d = false).
  { intros [|b S] p HS; [now exists "="%char, p|].
    simpl in HS. apply andb_true_iff in HS as [Hb _].
    exists b, (S ++ "="%char :: p). split; [reflexivity|].
    now apply space_not_word. }
  destruct (Hstop S1 p1 HS1) as (d1 & t1 & Ed1 & Hd1).
  destruct (Hstop S2 p2 HS2) as (d2 & t2 & Ed2 & Hd2).
  rewrite Ed1, Ed2 in E.
  now apply run_unique with (p := is_word) in E as [-> _].
Qed.

Lemma match_here_var prev s m :
  match_here NPlusOne.var_pattern prev s = Some m -> assigns_at (group 1 m) s.
Proof.
  intros H. apply match_here_Some in H as (rest & H).
  apply ways_matches, var_matches in H as (var & Hv & Hk).
  destruct m as [w k]. simpl in Hk. subst k. exact Hv.
Qed.

Lemma match_here_var_None prev s :
  match_here NPlusOne.var_pattern prev s = None <-> forall v, ~ assigns_at v s.
Proof.
  split.
  - intros H v Hv. apply match_here_None in H.
    destruct (var_matches_intro prev Hv) as (w & rest & k & Hm).
    apply ways_matches in Hm. now rewrite H in Hm.
  - intros H. destruct (match_here NPlusOne.var_pattern prev s) as [m|] eqn:E;
      [|reflexivity].
    exfalso. apply (H (group 1 m)). now apply match_here_var in E.
Qed.

(** The variable the analyzer takes from a line. *)
Lemma search_variable (line var : text) :
  (exists m, search NPlusOne.var_pattern line = Some m /\ group 1 m = var) <->
  names_variable line var.
Proof.
  unfold search, finditer, names_variable. split.
  - intros (m & Hm & <-). apply first_match in Hm as (pre & rest & -> & Hm & Hno).
    exists pre, rest. split; [reflexivity|]. split; [now apply match_here_var in Hm|].
    intros pre1 pre2 v E Hne.
    pose proof (Hno pre1 pre2 E Hne) as Hnone.
    exact (proj1 (match_here_var_None _ _) Hnone v).
  - intros (pre & rest & -> & Hv & Hno).
    destruct (match_here NPlusOne.var_pattern (prev_after None pre) rest)
      as [m|] eqn:E.
    + exists m. split.
      * apply first_match. exists pre, rest. split; [reflexivity|].
        split; [exact E|]. intros pre1 pre2 E' Hne.
        apply (proj2 (match_here_var_None _ _)). intros v.
        now apply (Hno pre1 pre2 v).
      * apply match_here_var in E. now apply (assigns_at_unique E).
    + exfalso. exact (proj1 (match_here_var_None _ _) E var Hv).
Qed.

(** Where the chain of a variable is found. *)
Lemma usage_here (var : text) prev (s : text) :
  var <> [] ->
  (ways (NPlusOne.usage_pattern var) prev s <> [] <->
   exists W c post,
     s = "@"%char :: var ++ "."%char :: W ++ "."%char :: c :: post /\
     is_name W /\ is_word c = true).
Proof.
  intros Hv. rewrite ways_nonempty_iff.
  unfold NPlusOne.usage_pattern, Lit. cbn [Seqs tx list_ascii_of_string Lit_chars].
  split.
  - intros (w & rest & k & H).
    destruct H as (u1 & s1 & c1 & v1 & c1' & Hat & H & -> & ->).
    simpl in Hat. destruct Hat as (-> & -> & ->).
    destruct H as (u2 & s2 & c2 & v2 & c2' & Hlit & H & -> & ->).
    apply matches_lit_elim in Hlit as (-> & -> & ->).
    cbn in H. break.
    match goal with
    | Hx : is_word ?x = true, HW : forallb is_word ?W = true,
      Hy : is_word ?y = true, HY : forallb is_word ?Y = true |- _ =>
        first [ exists (x :: W), y, (Y ++ rest); split; [list_eq|]
              | exists (y :: Y), x, (W ++ rest); split; [list_eq|] ]
    end.
    split; [|assumption]. split; [discriminate|].
    cbn [forallb].
    repeat match goal with H : _ = true |- _ => rewrite H end. reflexivity.
  - intros (W & c & post & -> & [HW0 HW] & Hc).
    destruct W as [|x W]; [contradiction|].
    cbn in HW. apply andb_true_iff in HW as [Hx HW].
    exists ("@"%char :: var ++ "."%char :: (x :: W) ++ ["."%char; c]), post, [].
    eapply matches_cast.
    + eapply matches_seq_intro; [apply matches_chr_intro|].
      eapply matches_seq_intro; [now apply matches_lit_intro|].
      eapply matches_seq_intro; [apply matches_chr_intro|].
      eapply matches_seq_intro; [apply matches_plus_intro; eassumption|].
      eapply matches_seq_intro; [apply matches_chr_intro|].
      apply (@matches_plus_intro true is_word _ c [] post); [exact Hc|reflexivity].
    + list_eq.
    + reflexivity.
Qed.

Lemma found_usage (var s : text) :
  var <> [] -> (found (NPlusOne.usage_pattern var) s = true <-> chain_on var s).
Proof.
  intros Hv. rewrite found_iff. unfold chain_on. split.
  - intros (pre & rest & -> & H).
    apply (usage_here _ _ Hv) in H as (W & c & post & -> & H).
    now exists pre, W, c, post.
  - intros (pre & W & c & post & -> & H).
    eexists pre, _. split; [reflexivity|].
    apply (usage_here _ _ Hv). now exists W, c, post.
Qed.

(** The four tests of the analyzer, in terms of the text. *)
Lemma flagged_by_text (lines : list text) (L : nat) :
  flagged lines L <-> flagged_text lines L.
Proof.
  unfold flagged, flagged_text.
  rewrite found_query_call, context_search.
  assert (Hwin : existsb (fun n => found NPlusOne.eager_pattern (line_at lines n))
                         (window lines L) = false <->
                 forall n, In n (window lines L) ->
                           ~ calls eager_words (line_at lines n)).
  { rewrite <- not_true_iff_false, existsb_exists. split.
    - intros H n Hn Hc. apply H. exists n. split; [exact Hn|].
      now apply found_eager_call.
    - intros H (n & Hn & Hf). apply (H n Hn). now apply found_eager_call. }
  rewrite Hwin. clear Hwin.
  split.
  - intros (HL & Hq & He & m & Hm & k & Hk1 & Hk2 & Hu).
    repeat split; try assumption; try apply HL.
    exists (group 1 m). split; [apply search_variable; eauto|].
    exists k. repeat split; try assumption; try apply Hk1.
    apply found_usage; [|exact Hu].
    assert (Hn : names_variable (line_at lines L) (group 1 m))
      by (apply search_variable; eauto).
    destruct Hn as (_ & _ & _ & (_ & _ & _ & [Hne _] & _) & _). exact Hne.
  - intros (HL & Hq & He & var & Hv & k & Hk1 & Hk2 & Hu).
    pose proof Hv as Hv'.
    apply search_variable in Hv' as (m & Hm & <-).
    repeat split; try assumption; try apply HL.
    exists m. split; [exact Hm|].
    exists k. repeat split; try assumption; try apply Hk1.
    apply found_usage; [|exact Hu].
    destruct Hv as (_ & _ & _ & (_ & _ & _ & [Hne _] & _) & _). exact Hne.
Qed.

Lemma controller_findings_by_text (path content : text) (f : finding) :
  In f (NPlusOne.analyze_controller_action path content) <->
  exists L, f = NPlusOne.n_plus_one_issue path L /\
            flagged_text (split newline content) L.
Proof.
  rewrite analyze_controller_action_In. split; intros (L & Hf & HL);
    exists L; (split; [exact Hf|]); now apply flagged_by_text.
Qed.

(** C4 (amended): the controller analyzer reports line [L] exactly when the
    line has a query call ([.all], [.where], [.find_by] or [.find] and then
    no word character), no line from [L - 2] to [L + 2] has an eager-loading
    call, and one of the next twenty lines has the chain [@var.a.b] for the
    variable of the line, which is that of the first place in the line where
    [@var], blanks and [=] stand: whether the fetch is what is assigned
    there, or anything is assigned at all, is not looked at.  Each finding is
    a [potential_n_plus_one] warning at such a line. *)
Theorem C4_n_plus_one_exactly_when_flagged :
  forall path content,
    let lines := split newline content in
    let issues := NPlusOne.analyze_controller_action path content in
    (forall L, (exists f, In f issues /\ n_plus_one_at L f) <->
               flagged_text lines L) /\
    (forall f, In f issues -> exists L, n_plus_one_at L f /\ flagged_text lines L).
Proof.
  intros path content lines issues. split.
  - intros L. split.
    + intros (f & Hin & Hat).
      apply controller_findings_by_text in Hin as (L' & -> & Hfl).
      apply n_plus_one_issue_at in Hat. now subst.
    + intros Hfl. exists (NPlusOne.n_plus_one_issue path L). split.
      * apply controller_findings_by_text. eauto.
      * now apply n_plus_one_issue_at.
  - intros f Hin.
    apply controller_findings_by_text in Hin as (L & -> & Hfl).
    exists L. split; [now apply n_plus_one_issue_at|exact Hfl].
Qed.

Lemma C4_n_plus_one_exactly_when_flagged_witness :
  exists L,
    n_plus_one_at L
      (NPlusOne.n_plus_one_issue (tx "/srv/shop/app/controllers/posts_controller.rb") 2) /\
    flagged_text (split newline posts_controller) L.
Proof.
  apply (proj2 (C4_n_plus_one_exactly_when_flagged
                  (tx "/srv/shop/app/controllers/posts_controller.rb") posts_controller)).
  vm_compute. left. reflexivity.
Defined.

(** The fetch is assigned to [@posts], whose chain follows, but the
    variable of the line is [@a]: nothing is reported. *)
Example second_assignment_missed :
  NPlusOne.analyze_controller_action (tx "posts_controller.rb") second_assignment = [].
Proof. vm_compute. reflexivity. Qed.

(** Nothing is assigned, but [@w ==] names the variable [@w]: the line is
    reported. *)
Example comparison_flagged :
  NPlusOne.analyze_controller_action (tx "users_controller.rb") comparison
  = [NPlusOne.n_plus_one_issue (tx "users_controller.rb") 1].
Proof. vm_compute. reflexivity. Qed.

(** C4 as stated fails: a line that assigns the fetch to a second variable
    is flagged by the rule of the specification and not by the analyzer. *)
Lemma C4_counterexample : ~ claim_C4_as_stated.
Proof.
  intros H.
  destruct (H (tx "posts_controller.rb") second_assignment 1) as [_ H1].
  destruct H1 as (f & Hf & _); [|rewrite second_assignment_missed in Hf; exact Hf].
  split; [vm_compute; lia|]. split; [|split].
  - exists (tx "@a = 1; @posts = Post"), (tx "all"), [].
    split; [simpl; auto|]. split; reflexivity.
  - intros n Hn Hc. apply found_eager_call in Hc.
    vm_compute in Hn. destruct Hn as [<-|[<-|[]]]; vm_compute in Hc; discriminate.
  - exists (tx "posts"). split.
    + exists (tx "@a = 1; "), (tx " "), (tx " Post.all").
      split; [reflexivity|]. split; [split; [discriminate|reflexivity]|].
      split; [reflexivity|]. split; [discriminate|].
      exists (tx " Post"), (tx "all"), [].
      split; [simpl; auto|]. split; reflexivity.
    + exists 2. split; [lia|]. split; [vm_compute; lia|].
      exists [], (tx "first"), "t"%char, (tx "itle").
      split; [reflexivity|]. split; [split; [discriminate|reflexivity]|reflexivity].
Qed.

(** * One finding per line, in line order *)

Lemma per_line_sorted {A} (g : nat -> finding) (h : nat -> A -> list finding)
  (l : list A) :
  (forall i x, h i x = [] \/ h i x = [g i]) ->
  forall start,
    exists Ls,
      flat_map (fun il : nat * A => h (fst il) (snd il)) (NPlusOne.enumerate start l)
      = map g Ls /\
      StronglySorted lt Ls /\
      Forall (fun i => start <= i < start + List.length l) Ls.
Proof.
  intros Hh. unfold NPlusOne.enumerate.
  induction l as [|a l IH]; intros start; simpl.
  - exists []. repeat constructor.
  - destruct (IH (S start)) as (Ls & E & Hs & Hb). rewrite E.
    assert (Hb' : Forall (fun i => start <= i < start + S (List.length l)) Ls).
    { eapply Forall_impl; [|exact Hb]. simpl. intros i Hi. lia. }
    destruct (Hh start a) as [->| ->].
    + now exists Ls.
    + exists (start :: Ls). split; [reflexivity|]. split.
      * constructor; [exact Hs|].
        eapply Forall_impl; [|exact Hb]. simpl. intros i Hi. lia.
      * constructor; [lia|exact Hb'].
Qed.

Lemma check_line_cases (path : text) (lines : list text) (i : nat) (line : text) :
  NPlusOne.check_line path lines i line = [] \/
  NPlusOne.check_line path lines i line = [NPlusOne.n_plus_one_issue path i].
Proof.
  unfold NPlusOne.check_line.
  destruct (found NPlusOne.query_pattern line); [|now left].
  destruct (negb _); [|now left].
  destruct (search NPlusOne.var_pattern line); [|now left].
  destruct (NPlusOne.used_later _ _ _); auto.
Qed.

(** X10: both analyzers of [analyze_n_plus_one.py] report each line at most
    once and in increasing line order. *)
Theorem findings_in_line_order :
  forall path content,
    (exists Ls,
       NPlusOne.analyze_controller_action path content
       = map (NPlusOne.n_plus_one_issue path) Ls /\
       StronglySorted lt Ls) /\
    (exists Ls,
       NPlusOne.analyze_view_file path content
       = map (NPlusOne.view_issue path) Ls /\
       StronglySorted lt Ls).
Proof.
  intros path content. split.
  - destruct (@per_line_sorted text (NPlusOne.n_plus_one_issue path)
                (NPlusOne.check_line path (split newline content))
                (split newline content)
                (check_line_cases path (split newline content)) 1)
      as (Ls & E & Hs & _).
    exists Ls. split; [exact E|exact Hs].
  - destruct (@per_line_sorted text (NPlusOne.view_issue path)
                (fun i line => if found NPlusOne.association_pattern line
                               then [NPlusOne.view_issue path i] else [])
                (split newline content)) with (start := 1)
      as (Ls & E & Hs & _).
    + intros i x. destruct (found NPlusOne.association_pattern x); auto.
    + exists Ls. split; [exact E|exact Hs].
Qed.

(** * The view analyzer *)

Lemma association_here prev (s : text) :
  ways NPlusOne.association_pattern prev s <> [] <->
  exists a W1 b W2 c post,
    s = a :: W1 ++ "."%char :: b :: W2 ++ "."%char :: c :: post /\
    is_word a = true /\ forallb is_word W1 = true /\
    is_word b = true /\ forallb is_word W2 = true /\ is_word c = true.
Proof.
  rewrite ways_nonempty_iff. split.
  - intros (w & rest & k & H). cbn in H. break_or.
    all: repeat (progress (cbn [app]; rewrite <- ?app_assoc)).
    all: match goal with
         | |- exists _ _ _ _ _ _,
             ?a :: ?W1 ++ "."%char :: ?b :: ?W2 ++ "."%char :: ?c :: ?post = _ /\ _ =>
             exists a, W1, b, W2, c, post
         end.
    all: repeat split; auto.
  - intros (a & W1 & b & W2 & c & post & -> & Ha & HW1 & Hb & HW2 & Hc).
    exists (a :: W1 ++ "."%char :: b :: W2 ++ ["."%char; c]), post,
           [(1, a :: W1); (2, b :: W2); (3, [c])].
    eapply matches_cast.
    + unfold NPlusOne.association_pattern, Lit.
      cbn [Seqs Alts Lit_chars tx list_ascii_of_string].
      eapply matches_seq_intro; [apply matches_grp_intro;
                                 apply matches_plus_intro; eassumption|].
      eapply matches_seq_intro; [apply matches_chr_intro|].
      eapply matches_seq_intro; [apply matches_grp_intro;
                                 apply matches_plus_intro; eassumption|].
      eapply matches_seq_intro; [apply matches_chr_intro|].
      apply matches_grp_intro. right. right. right. right.
      apply (@matches_plus_intro true is_word _ c [] post); [exact Hc|reflexivity].
    + repeat (progress (cbn [app]; rewrite <- ?app_assoc)). reflexivity.
    + reflexivity.
Qed.

Lemma found_association (s : text) :
  found NPlusOne.association_pattern s = true <-> dotted_chain s.
Proof.
  rewrite found_iff. unfold dotted_chain. split.
  - intros (pre & rest & -> & H).
    apply association_here in H
      as (a & W1 & b & W2 & c & post & -> & H).
    now exists pre, a, W1, b, W2, c, post.
  - intros (pre & a & W1 & b & W2 & c & post & -> & H).
    eexists pre, _. split; [reflexivity|].
    apply association_here. now exists a, W1, b, W2, c, post.
Qed.

Lemma view_issue_at (path : text) (L L' : nat) :
  view_at L (NPlusOne.view_issue path L') <-> L' = L.
Proof.
  unfold view_at. split.
  - intros (_ & _ & H). cbn in H. injection H as H. lia.
  - intros ->. repeat split.
Qed.

(** X11: the view analyzer reports line [L] of a template exactly when the
    line has three words joined by dots ([object.association.method]); the
    finding is a [view_association_access] info, and nothing else is
    reported. *)
Theorem view_lines_reported :
  forall path content,
    let lines := split newline content in
    let issues := NPlusOne.analyze_view_file path content in
    (forall L, (exists f, In f issues /\ view_at L f) <->
               1 <= L <= List.length lines /\ dotted_chain (line_at lines L)) /\
    (forall f, In f issues -> exists L, view_at L f).
Proof.
  intros path content lines issues.
  assert (Hin : forall f, In f issues <->
                          exists L, f = NPlusOne.view_issue path L /\
                                    1 <= L <= List.length lines /\
                                    dotted_chain (line_at lines L)).
  { intros f. unfold issues, NPlusOne.analyze_view_file. fold lines.
    rewrite in_flat_map. split.
    - intros ([i line] & Hil & Hf). simpl in Hf.
      apply enumerate_In in Hil as [Hi Hnth].
      apply nth_error_line_at in Hnth as [Hlen Hline]; [|exact Hi].
      destruct (found NPlusOne.association_pattern line) eqn:E; [|contradiction].
      destruct Hf as [<-|[]]. exists i. split; [reflexivity|]. split; [lia|].
      rewrite Hline. now apply found_association.
    - intros (L & -> & (HL1 & HL2) & Hd).
      exists (L, line_at lines L). split.
      + apply enumerate_In. split; [exact HL1|].
        unfold line_at. apply nth_error_nth'. lia.
      + simpl. apply found_association in Hd. rewrite Hd. now left. }
  split.
  - intros L. split.
    + intros (f & Hf & Hat). apply Hin in Hf as (L' & -> & Hb & Hd).
      apply view_issue_at in Hat. now subst.
    + intros [Hb Hd]. exists (NPlusOne.view_issue path L). split.
      * apply Hin. eauto.
      * now apply view_issue_at.
  - intros f Hf. apply Hin in Hf as (L & -> & _). exists L.
    now apply view_issue_at.
Qed.

(** * The exit status of the N+1 script *)





(** * Foreign keys are the columns named [..._id] *)

Lemma id_suffixed_spec (x : text) :
  id_suffixed x = true <-> exists Y, Y <> [] /\ x = Y ++ tx "_id".
Proof.
  unfold id_suffixed. split.
  - intros H. rewrite <- (rev_involutive x).
    destruct (rev x) as [|c1 [|c2 [|c3 [|c4 r]]]]; try discriminate;
      try (destruct c1 as [[] [] [] [] [] [] [] []]; discriminate);
      try (destruct c1 as [[] [] [] [] [] [] [] []]; try discriminate;
           destruct c2 as [[] [] [] [] [] [] [] []]; discriminate).
    + destruct c1 as [[] [] [] [] [] [] [] []]; try discriminate;
        destruct c2 as [[] [] [] [] [] [] [] []]; try discriminate;
        destruct c3 as [[] [] [] [] [] [] [] []]; discriminate.
    + destruct c1 as [[] [] [] [] [] [] [] []]; try discriminate;
        destruct c2 as [[] [] [] [] [] [] [] []]; try discriminate;
        destruct c3 as [[] [] [] [] [] [] [] []]; try discriminate.
      exists (rev r ++ [c4]). split.
      * destruct (rev r); discriminate.
      * simpl. repeat rewrite <- app_assoc. reflexivity.
  - intros (Y & HY & ->). rewrite rev_app_distr. simpl.
    destruct (rev Y) eqn:E; [|reflexivity].
    apply (f_equal (@rev ascii)) in E. rewrite rev_involutive in E. contradiction.
Qed.

Lemma fk_matches_intro prev W S Y rest :
  forallb is_word W = true -> W <> [] ->
  forallb is_space S = true -> S <> [] ->
  forallb is_word Y = true -> Y <> [] ->
  matches Indexes.fk_pattern prev (col_text W S (Y ++ tx "_id") ++ rest)
          (col_text W S (Y ++ tx "_id")) rest [(1, Y ++ tx "_id")].
Proof.
  intros HW HW0 HS HS0 HY HY0.
  destruct W as [|a W]; [contradiction|].
  destruct S as [|b S]; [contradiction|].
  destruct Y as [|c Y]; [contradiction|].
  cbn in HW, HS, HY.
  apply andb_true_iff in HW as [Ha HW].
  apply andb_true_iff in HS as [Hb HS].
  apply andb_true_iff in HY as [Hc HY].
  unfold col_text. repeat (progress (cbn [app tx list_ascii_of_string]; rewrite <- ?app_assoc)).
  eapply matches_cast.
  - unfold Indexes.fk_pattern. cbn [Seqs Lit Lit_chars tx list_ascii_of_string].
    build_match.
  - list_eq.
  - list_eq.
Qed.

Lemma fk_match_here prev s W S Y rest :
  forallb is_word W = true -> W <> [] ->
  forallb is_space S = true -> S <> [] ->
  forallb is_word Y = true -> Y <> [] ->
  s = col_text W S (Y ++ tx "_id") ++ rest ->
  match_here Indexes.fk_pattern prev s =
  Some {| whole := col_text W S (Y ++ tx "_id"); groups := [(1, Y ++ tx "_id")] |}.
Proof.
  intros HW HW0 HS HS0 HY HY0 ->.
  apply match_here_unique with (rest := rest).
  - apply ways_matches. now apply fk_matches_intro.
  - intros w' rest' k' H. apply ways_matches, fk_matches in H.
    destruct H as (W' & S' & Y' & HW' & _ & HS' & HS0' & HY' & _ & -> & E & ->).
    apply col_text_unique in E as (-> & -> & -> & _); auto using forallb_word_id.
Qed.

(** Where both patterns match, the column is named [..._id]; where only the
    column pattern matches, it is not. *)
Lemma col_without_fk prev s mc :
  match_here Indexes.col_pattern prev s = Some mc ->
  match_here Indexes.fk_pattern prev s = None ->
  id_suffixed (group 2 mc) = false.
Proof.
  intros Hc Hf. apply match_here_Some in Hc as (rest & Hc).
  apply ways_matches, col_matches in Hc.
  destruct Hc as (W & S & X & HW & HW0 & HS & HS0 & HX & HX0 & Hw & Hs & Hk).
  destruct mc as [w k]. simpl in *. subst k.
  destruct (id_suffixed (group 2 {| whole := w; groups := [(1, W); (2, X)] |})) eqn:E;
    [exfalso|reflexivity].
  change (id_suffixed X = true) in E.
  apply id_suffixed_spec in E as (Y & HY0 & ->).
  rewrite forallb_app in HX. apply andb_true_iff in HX as [HY _].
  rewrite (@fk_match_here prev s W S Y rest) in Hf; auto; [discriminate|].
  now rewrite Hs, Hw.
Qed.

Lemma fk_id_suffixed prev s mf :
  match_here Indexes.fk_pattern prev s = Some mf ->
  id_suffixed (group 1 mf) = true.
Proof.
  intros H. apply match_here_Some in H as (rest & H).
  apply ways_matches, fk_matches in H.
  destruct H as (W & S & Y & _ & _ & _ & _ & _ & HY0 & _ & _ & Hk).
  destruct mf as [w k]. simpl in *. subst k.
  change (id_suffixed (Y ++ tx "_id") = true).
  apply id_suffixed_spec. now exists Y.
Qed.

Lemma fk_filter_col_from (s : text) :
  forall prev a b,
    a = b \/ (a = 0 /\ forall i, i < b ->
                       forall p, ways Indexes.fk_pattern p (skipn i s) = []) ->
    map (group 1) (finditer_from Indexes.fk_pattern prev a s)
    = filter id_suffixed
             (map (group 2) (finditer_from Indexes.col_pattern prev b s)).
Proof.
  induction s as [|c s IH]; intros prev a b Hab.
  - destruct Hab as [<-|[-> Hb]].
    + destruct a; reflexivity.
    + destruct b; reflexivity.
  - assert (Hstep : forall mc,
               match_here Indexes.col_pattern prev (c :: s) = Some mc ->
               forall i, i < Nat.pred (List.length (whole mc)) ->
               forall p, ways Indexes.fk_pattern p (skipn i s) = []).
    { intros mc Ec i Hi p.
      apply (@col_no_overlap prev (c :: s) mc Ec (S i)); [lia|now right]. }
    assert (Hhere :
              map (group 1) (finditer_from Indexes.fk_pattern prev 0 (c :: s))
              = filter id_suffixed
                  (map (group 2) (finditer_from Indexes.col_pattern prev 0 (c :: s)))).
    { cbn [finditer_from].
      destruct (match_here Indexes.fk_pattern prev (c :: s)) as [mf|] eqn:Ef.
      - destruct (fk_then_col _ _ Ef) as (mc & Ec & Hw & Hg).
        rewrite Ec. cbn [map filter]. rewrite Hg, Hw, (fk_id_suffixed _ _ Ef).
        f_equal. apply IH. now left.
      - destruct (match_here Indexes.col_pattern prev (c :: s)) as [mc|] eqn:Ec.
        + cbn [map filter]. rewrite (col_without_fk _ _ Ec Ef).
          apply IH. right. split; [reflexivity|]. exact (Hstep mc eq_refl).
        + apply IH. now left. }
    destruct Hab as [<-|[-> Hb]].
    + destruct a as [|a]; [exact Hhere|].
      cbn [finditer_from]. apply IH. now left.
    + destruct b as [|b]; [exact Hhere|].
      cbn [finditer_from].
      assert (Ef : match_here Indexes.fk_pattern prev (c :: s) = None).
      { apply match_here_None. apply (Hb 0). lia. }
      rewrite Ef. apply IH. right. split; [reflexivity|].
      intros i Hi p. apply (Hb (S i)). lia.
Qed.

(** X13: in the model of every schema text, the foreign keys of each table
    are exactly its columns whose name is [_id] after at least one more
    character, in the order of the columns and as often as they are declared. *)
Theorem foreign_keys_are_id_columns :
  forall content,
    exists tables,
      Indexes.parse_schema content = Ok tables /\
      forall name info,
        In (name, info) tables ->
        Indexes.foreign_keys info = filter id_suffixed (Indexes.columns info).
Proof.
  intros content.
  destruct (parse_schema_spec content) as (tables & Hp & _ & _ & Hget).
  exists tables. split; [exact Hp|].
  intros name info Hin.
  pose proof (@In_get _ tables name info
                (parse_schema_keys_NoDup _ Hp) Hin) as E.
  rewrite Hget in E.
  destruct (last_block name (table_blocks content)) as [m|]; [|discriminate].
  injection E as <-. simpl. apply fk_filter_col_from. now left.
Qed.

(** * The boolean-column analyzer *)

Lemma names_pair_boolean (name column name' column' : text) :
  names_pair name column (Indexes.boolean_issue name' column') =
  text_eqb name' name && text_eqb column' column.
Proof. reflexivity. Qed.

Lemma boolean_in_table (name column name' : text) (idx cols : list text) :
  filter (names_pair name column)
    (flat_map (fun c => if Indexes.boolean_named c then
                          if mem c idx then []
                          else [Indexes.boolean_issue name' c]
                        else []) cols) =
  if text_eqb name' name && (Indexes.boolean_named column && negb (mem column idx))
  then repeat (Indexes.boolean_issue name column) (occurrences column cols)
  else [].
Proof.
  unfold occurrences. induction cols as [|x cols IH]; simpl.
  - now destruct (text_eqb name' name && _).
  - rewrite filter_app, IH. clear IH.
    rewrite (text_eqb_sym column x).
    destruct (text_eqb x column) eqn:Ex.
    + apply text_eqb_eq in Ex. subst x.
      destruct (Indexes.boolean_named column); simpl;
        [|now rewrite andb_false_r].
      destruct (mem column idx) eqn:Em; simpl.
      * now rewrite andb_false_r.
      * rewrite names_pair_boolean, text_eqb_refl, andb_true_r.
        destruct (text_eqb name' name) eqn:En; simpl; [|reflexivity].
        apply text_eqb_eq in En. now subst.
    + destruct (Indexes.boolean_named x); simpl; [|reflexivity].
      destruct (mem x idx); simpl; [reflexivity|].
      rewrite names_pair_boolean, Ex, andb_false_r. reflexivity.
Qed.

Lemma boolean_absent_table (tables : Indexes.schema) (name column : text) :
  ~ In name (Dict.keys tables) ->
  filter (names_pair name column) (Indexes.analyze_boolean_columns tables) = [].
Proof.
  unfold Indexes.analyze_boolean_columns.
  induction tables as [|[n0 i0] tables IH]; simpl; [reflexivity|].
  intros H. rewrite filter_app, IH by tauto.
  rewrite boolean_in_table.
  destruct (text_eqb n0 name) eqn:E; [|reflexivity].
  apply text_eqb_eq in E. tauto.
Qed.

Lemma boolean_for_pair (tables : Indexes.schema) name info column :
  NoDup (Dict.keys tables) ->
  In (name, info) tables ->
  filter (names_pair name column) (Indexes.analyze_boolean_columns tables) =
  if Indexes.boolean_named column && negb (mem column (Indexes.indexes info))
  then repeat (Indexes.boolean_issue name column)
              (occurrences column (Indexes.columns info))
  else [].
Proof.
  induction tables as [|[n0 i0] tables IH]; simpl; [contradiction|].
  intros Hnd Hin. inversion Hnd as [|? ? Hnot Hnd']; subst.
  unfold Indexes.analyze_boolean_columns in *. simpl.
  rewrite filter_app, boolean_in_table.
  destruct Hin as [Heq|Hin].
  - injection Heq as -> ->. rewrite text_eqb_refl. simpl.
    fold (Indexes.analyze_boolean_columns tables).
    rewrite (@boolean_absent_table tables name column Hnot), app_nil_r.
    reflexivity.
  - assert (Hne : text_eqb n0 name = false).
    { apply text_eqb_neq. intros ->. apply Hnot.
      apply (in_map fst) in Hin. exact Hin. }
    rewrite Hne. simpl. now apply IH.
Qed.

Lemma boolean_issue_well_formed (name column : text) :
  well_formed_boolean name column (Indexes.boolean_issue name column).
Proof.
  repeat split. eexists. split; [reflexivity|]. split.
  - apply occurs_in_middle.
  - exists (tx "add_index :" ++ name ++ tx ", :"),
           (tx ", where: " ++ [dquote] ++ column ++ tx " = true" ++ [dquote]).
    now rewrite <- !app_assoc.
Qed.

(** X14: for a table of the model and any column name, the boolean-column
    analyzer emits nothing when the name is not boolean-looking or is in the
    table's indexed-column list, and otherwise one finding per declaration of
    the column, each a [boolean_index_opportunity] info whose suggestion
    holds the table and the column. *)
Theorem boolean_column_findings :
  forall (tables : Indexes.schema) name info column,
    NoDup (Dict.keys tables) ->
    In (name, info) tables ->
    let hits :=
      filter (names_pair name column) (Indexes.analyze_boolean_columns tables) in
    hits = (if Indexes.boolean_named column
               && negb (mem column (Indexes.indexes info))
            then repeat (Indexes.boolean_issue name column)
                        (occurrences column (Indexes.columns info))
            else []) /\
    (forall f, In f hits -> well_formed_boolean name column f).
Proof.
  intros tables name info column Hnd Hin hits.
  assert (Hhits : hits = if Indexes.boolean_named column
                            && negb (mem column (Indexes.indexes info))
                         then repeat (Indexes.boolean_issue name column)
                                (occurrences column (Indexes.columns info))
                         else []).
  { unfold hits. now apply boolean_for_pair. }
  split; [exact Hhits|].
  intros f Hf. rewrite Hhits in Hf.
  destruct (Indexes.boolean_named column && _); [|contradiction].
  apply repeat_spec in Hf. subst f. apply boolean_issue_well_formed.
Qed.

Lemma boolean_column_findings_witness :
  filter (names_pair (tx "users") (tx "is_admin"))
         (Indexes.analyze_boolean_columns users_model)
  = [Indexes.boolean_issue (tx "users") (tx "is_admin")].
Proof.
  refine (proj1 (@boolean_column_findings users_model (tx "users") users_info
                   (tx "is_admin") _ _)).
  - repeat constructor. simpl. tauto.
  - left. reflexivity.
Defined.

(** * The outcome of the index script *)



(** * The WHERE-clause findings as a whole *)

Lemma kept_In (evs : list event) :
  forall seen e,
    In e (kept seen evs) ->
    In e evs /\ ~ In (Indexes.pattern_key (fst e) (snd e)) seen.
Proof.
  induction evs as [|e0 evs IH]; intros seen e; simpl; [contradiction|].
  destruct (mem (Indexes.pattern_key (fst e0) (snd e0)) seen) eqn:Em.
  - intros H. apply IH in H as [H1 H2]. auto.
  - intros [<-|H].
    + split; [now left|]. now apply mem_not_In.
    + apply IH in H as [H1 H2]. split; [now right|].
      intros Hin. apply H2. now right.
Qed.

Lemma kept_NoDup (evs : list event) :
  forall seen,
    NoDup (map (fun e => Indexes.pattern_key (fst e) (snd e)) (kept seen evs)).
Proof.
  induction evs as [|e0 evs IH]; intros seen; simpl; [constructor|].
  destruct (mem (Indexes.pattern_key (fst e0) (snd e0)) seen) eqn:Em.
  - apply IH.
  - simpl. constructor; [|apply IH].
    intros Hin. apply in_map_iff in Hin as (e & Hk & He).
    apply kept_In in He as [_ He]. apply He. rewrite Hk. now left.
Qed.

Lemma kept_covers (evs : list event) :
  forall seen e,
    In e evs ->
    ~ In (Indexes.pattern_key (fst e) (snd e)) seen ->
    exists e', In e' (kept seen evs) /\
               Indexes.pattern_key (fst e') (snd e')
               = Indexes.pattern_key (fst e) (snd e).
Proof.
  induction evs as [|e0 evs IH]; intros seen e; simpl; [contradiction|].
  intros Hin Hseen.
  destruct (mem (Indexes.pattern_key (fst e0) (snd e0)) seen) eqn:Em.
  - destruct Hin as [->|Hin].
    + apply mem_In in Em. contradiction.
    + now apply IH.
  - destruct Hin as [->|Hin].
    + exists e. split; [now left|reflexivity].
    + destruct (text_eqb (Indexes.pattern_key (fst e) (snd e))
                         (Indexes.pattern_key (fst e0) (snd e0))) eqn:Ek.
      * apply text_eqb_eq in Ek. exists e0. split; [now left|now symmetry].
      * apply text_eqb_neq in Ek.
        destruct (IH (Indexes.pattern_key (fst e0) (snd e0) :: seen) e Hin)
          as (e' & He' & Hk).
        -- intros [H|H]; [now apply Ek|contradiction].
        -- exists e'. split; [now right|exact Hk].
Qed.

Lemma NoDup_map_compose {A B C} (h : A -> B) (g : B -> C) (l : list A) :
  NoDup (map (fun a => g (h a)) l) -> NoDup (map h l).
Proof.
  induction l as [|a l IH]; simpl; [constructor|].
  intros H. inversion H as [|? ? Hn Hd]; subst. constructor; [|auto].
  intros Hin. apply Hn. apply in_map_iff in Hin as (a' & E & Ha').
  apply in_map_iff. exists a'. split; [now rewrite E|exact Ha'].
Qed.

(** X16: the findings of the WHERE-clause analyzer are those of a list of
    filter call sites, in which no two sites have both the same file stem and
    the same column, every site is a filter found in a scanned file that can
    be read, and every such filter has a site of its stem and column. *)
Theorem where_findings_cover :
  forall w : Indexes.project,
    exists sites : list event,
      Indexes.analyze_where_clauses w
      = map (fun e => Indexes.where_issue (fst e) (snd e)) sites /\
      NoDup (map stem_and_column sites) /\
      (forall e, In e sites ->
                 exists f, In f (scanned w) /\ fst e = file_path f /\
                           has_filter f (snd e)) /\
      (forall f column,
         In f (scanned w) -> has_filter f column ->
         exists e, In e sites /\
                   stem_and_column e = (Indexes.stem (file_path f), column)).
Proof.
  intros w. exists (kept [] (flat_map file_events (scanned w))).
  split; [apply analyze_where_clauses_kept|]. split; [|split].
  - apply NoDup_map_compose
      with (g := fun p : text * text => fst p ++ tx ":" ++ snd p).
    apply (kept_NoDup (flat_map file_events (scanned w)) []).
  - intros e He. apply kept_In in He as [He _].
    apply in_flat_map in He as (f & Hf & He).
    apply file_events_In in He as [Hp Hc]. now exists f.
  - intros f column Hf Hc.
    destruct (@kept_covers (flat_map file_events (scanned w)) []
                           (file_path f, column)) as (e & He & Hk).
    + apply in_flat_map. exists f. split; [exact Hf|].
      apply file_events_In. auto.
    + simpl. tauto.
    + exists e. split; [exact He|].
      pose proof He as He'. apply kept_In in He' as [He' _].
      apply in_flat_map in He' as (g & Hg & He').
      apply file_events_In in He' as [_ Hgc].
      unfold Indexes.pattern_key in Hk.
      cbn [fst snd tx list_ascii_of_string app] in Hk.
      apply key_inj in Hk as [Hs Hcol];
        eauto using word_no_colon, has_filter_word.
      unfold stem_and_column. now rewrite Hs, Hcol.
Qed.

(** * The Rails root *)

Lemma find_rails_root_spec (has_application_rb : list text -> bool)
  (current : list text) :
  match find_rails_root has_application_rb current with
  | Some root =>
      exists n,
        n < List.length current /\ root = up n current /\
        has_application_rb root = true /\
        forall k, k < n -> has_application_rb (up k current) = false
  | None =>
      forall k, k < List.length current ->
                has_application_rb (up k current) = false
  end.
Proof.
  induction current as [|c parent IH]; simpl.
  - intros k Hk. lia.
  - destruct (has_application_rb (c :: parent)) eqn:E.
    + exists 0. repeat split; auto; [lia|]. intros k Hk. lia.
    + destruct (find_rails_root has_application_rb parent) as [root|].
      * destruct IH as (n & Hn & Hr & Hroot & Hbelow).
        exists (S n). repeat split; auto; [lia|].
        intros [|k] Hk; [exact E|]. apply Hbelow. lia.
      * intros [|k] Hk; [exact E|]. apply IH. lia.
Qed.

(** X17: [find_rails_root] returns the nearest directory, from the start
    directory upwards, that holds [config/application.rb]; the filesystem
    root itself is never looked at, so the search fails exactly when no
    directory below the root holds the file. *)
Theorem nearest_rails_root :
  forall has_application_rb current,
    (forall root,
       find_rails_root has_application_rb current = Some root <->
       exists n,
         n < List.length current /\ root = up n current /\
         has_application_rb root = true /\
         forall k, k < n -> has_application_rb (up k current) = false) /\
    (find_rails_root has_application_rb current = None <->
     forall k, k < List.length current ->
               has_application_rb (up k current) = false).
Proof.
  intros has_application_rb current.
  pose proof (find_rails_root_spec has_application_rb current) as H.
  destruct (find_rails_root has_application_rb current) as [r|].
  - destruct H as (n & Hn & Hr & Hroot & Hbelow). split.
    + intros root. split.
      * intros [= <-]. now exists n.
      * intros (n' & Hn' & Hr' & Hroot' & Hbelow').
        destruct (Nat.lt_trichotomy n n') as [Hlt|[->|Hlt]].
        -- apply Hbelow' in Hlt. rewrite <- Hr in Hlt. congruence.
        -- now rewrite Hr, Hr'.
        -- apply Hbelow in Hlt. rewrite <- Hr' in Hlt. congruence.
    + split; [discriminate|]. intros Hnone.
      rewrite Hr in Hroot. rewrite (Hnone n Hn) in Hroot. discriminate.
  - split.
    + intros root. split; [discriminate|].
      intros (n & Hn & -> & Hroot & _). rewrite (H n Hn) in Hroot. discriminate.
    + split; auto.
Qed.

(** * The associations of a model *)

Lemma word_run_split (t : text) :
  exists W rest,
    t = W ++ rest /\ forallb is_word W = true /\ stops is_word rest = true.
Proof.
  induction t as [|c t IH].
  - now exists [], [].
  - destruct (is_word c) eqn:E.
    + destruct IH as (W & rest & -> & HW & Hrest).
      exists (c :: W), rest. simpl. now rewrite E, HW.
    + exists [], (c :: t). simpl. now rewrite E.
Qed.

Lemma stops_word_at (rest : text) :
  stops is_word rest = true <-> word_at (hd_error rest) = false.
Proof.
  destruct rest as [|c rest]; simpl; [tauto|]. now rewrite negb_true_iff.
Qed.

Lemma declaration_matches (kind : text) prev (s w rest : text) (k : caps) :
  kind <> [] ->
  matches (declaration_pattern kind) prev s w rest k ->
  exists S c W,
    s = kind ++ S ++ ":"%char :: c :: W ++ rest /\
    S <> [] /\ forallb is_space S = true /\
    is_word c = true /\ forallb is_word W = true.
Proof.
  intros Hk H. unfold declaration_pattern, Lit in H.
  cbn [Seqs tx list_ascii_of_string Lit_chars] in H.
  destruct H as (u & s1 & c1 & v & c2 & Hlit & H & -> & ->).
  apply matches_lit_elim in Hlit as (-> & -> & ->).
  cbn in H. break.
  match goal with
  | Hs : is_space ?b = true, HS : forallb is_space ?S = true,
    Hc : is_word ?c = true, HW : forallb is_word ?W = true |- _ =>
      exists (b :: S), c, W
  end.
  cbn [forallb].
  repeat match goal with H : _ = true |- _ => rewrite H end.
  repeat split; try discriminate; try list_eq.
Qed.

Lemma declaration_first (kind : text) prev (S : text) (c : ascii) (W rest : text) :
  kind <> [] ->
  S <> [] -> forallb is_space S = true ->
  is_word c = true -> forallb is_word W = true -> stops is_word rest = true ->
  match_here (declaration_pattern kind) prev
             (kind ++ S ++ ":"%char :: c :: W ++ rest)
  = Some {| whole := kind ++ S ++ ":"%char :: c :: W; groups := [(1, c :: W)] |}.
Proof.
  intros Hk HS0 HS Hc HW Hrest.
  destruct S as [|b S]; [contradiction|].
  cbn in HS. apply andb_true_iff in HS as [Hb HS].
  assert (H : hd_error (ways (declaration_pattern kind) prev
                             (kind ++ (b :: S) ++ ":"%char :: c :: W ++ rest))
              = Some (kind ++ (b :: S) ++ ":"%char :: c :: W, rest,
                      [(1, c :: W)])).
  { unfold declaration_pattern, Lit.
    cbn [Seqs tx list_ascii_of_string Lit_chars app].
    eapply eq_trans.
    - eapply first_seq; [now apply first_lit|].
      eapply first_seq;
        [apply (@first_plus is_space _ b S (":"%char :: c :: W ++ rest));
         [assumption|assumption|reflexivity]|].
      eapply first_seq; [apply first_chr|].
      apply first_grp. now apply first_plus.
    - reflexivity. }
  unfold match_here.
  destruct (ways (declaration_pattern kind) prev _) as [|[[u' r'] k'] tl];
    [discriminate|].
  now injection H as -> -> ->.
Qed.

Lemma declaration_here (kind : text) prev (s : text) (m : rmatch) :
  kind <> [] ->
  match_here (declaration_pattern kind) prev s = Some m ->
  exists S post,
    s = kind ++ S ++ ":"%char :: group 1 m ++ post /\
    S <> [] /\ forallb is_space S = true /\
    is_name (group 1 m) /\ word_at (hd_error post) = false.
Proof.
  intros Hk Hm. pose proof Hm as Hm'.
  apply match_here_Some in Hm' as (rest & Hw).
  apply ways_matches, declaration_matches in Hw
    as (S & c & W & -> & HS0 & HS & Hc & HW); [|exact Hk].
  destruct (word_run_split (W ++ rest)) as (W' & post & E & HW' & Hpost).
  rewrite E in Hm.
  rewrite (@declaration_first kind prev S c W' post) in Hm by assumption.
  injection Hm as <-. exists S, post. cbn [group groups last_group Nat.eqb].
  rewrite E. repeat split; auto; try discriminate.
  - simpl. now rewrite Hc, HW'.
  - now apply stops_word_at.
Qed.

Lemma findall_declares (kind content name : text) :
  kind <> [] ->
  In name (findall (declaration_pattern kind) content) ->
  declares kind name content.
Proof.
  intros Hk H. unfold findall in H.
  apply in_map_iff in H as (m & <- & Hm).
  apply finditer_from_In_at in Hm as (pre & rest & -> & Hm).
  apply declaration_here in Hm as (S & post & -> & H); [|exact Hk].
  now exists pre, S, post.
Qed.

Lemma declares_findall (kind content name : text) :
  kind <> [] ->
  declares kind name content ->
  findall (declaration_pattern kind) content <> [].
Proof.
  intros Hk (pre & S & post & -> & HS0 & HS & [Hn0 Hn] & Hpost).
  destruct name as [|c W]; [contradiction|].
  cbn in Hn. apply andb_true_iff in Hn as [Hc HW].
  unfold findall, finditer. intros E. apply map_eq_nil in E. revert E.
  apply finditer_from_at.
  replace (kind ++ S ++ ":"%char :: (c :: W) ++ post)
    with (kind ++ S ++ ":"%char :: c :: W ++ post) by reflexivity.
  rewrite (@declaration_first kind _ S c W post); auto; [discriminate|].
  now apply stops_word_at.
Qed.

(** X18: for a model file that can be read, [extract_associations] returns
    the lists of [has_many], [has_one] and [belongs_to], in this order; every
    name of a list is declared in the file (the type, blanks, a colon and the
    whole word after it), and a list is empty only when the file has no such
    declaration. *)
Theorem associations_extracted :
  forall read content,
    read = Ok content ->
    exists many one belongs,
      extract_associations read
      = Ok [(tx "has_many", many); (tx "has_one", one);
            (tx "belongs_to", belongs)] /\
      forall kind names,
        In (kind, names)
           [(tx "has_many", many); (tx "has_one", one);
            (tx "belongs_to", belongs)] ->
        (forall name, In name names -> declares kind name content) /\
        ((exists name, declares kind name content) -> names <> []).
Proof.
  intros read content Hc.
  exists (findall (declaration_pattern (tx "has_many")) content),
         (findall (declaration_pattern (tx "has_one")) content),
         (findall (declaration_pattern (tx "belongs_to")) content).
  split.
  - unfold extract_associations. rewrite Hc. reflexivity.
  - intros kind names [H|[H|[H|[]]]]; injection H as <- <-; split;
      try (intros name Hn; apply findall_declares in Hn; [exact Hn|discriminate]);
      intros (name & Hd); apply declares_findall in Hd; auto; discriminate.
Qed.

Lemma associations_extracted_witness :
  exists many one belongs,
    extract_associations (Ok (tx "belongs_to :user"))
    = Ok [(tx "has_many", many); (tx "has_one", one);
          (tx "belongs_to", belongs)].
Proof.
  destruct (@associations_extracted (Ok (tx "belongs_to :user"))
              (tx "belongs_to :user") eq_refl)
    as (many & one & belongs & H & _).
  now exists many, one, belongs.
Defined.

(** * Checks made for production only *)

Lemma section_production_only (env_config : Dict.dict Config.yaml)
  (env_name : text) (timeouts : list finding) (f : finding) :
  Config.analyze_timeouts env_config env_name = Ok timeouts ->
  In f (Config.analyze_connection_pool env_config env_name ++ timeouts
        ++ Config.analyze_prepared_statements env_config env_name
        ++ Config.analyze_reaping_frequency env_config env_name
        ++ Config.check_ssl_configuration env_config env_name) ->
  production_only f = true ->
  has_text "environment" (tx "production") f = true.
Proof.
  intros Ht Hf Hp. rewrite !in_app_iff in Hf.
  destruct Hf as [Hf|[Hf|[Hf|[Hf|Hf]]]].
  - unfold Config.analyze_connection_pool, Config.pool_int_issues in Hf.
    destruct (Dict.get env_config (tx "pool")) as [[| [|] |n| | | | | | |]|];
      repeat match type of Hf with
             | In _ (if ?b then _ else _) => destruct b
             | In _ [] => contradiction Hf
             | In _ [_] => destruct Hf as [<-|[]]; discriminate Hp
             end.
  - unfold Config.analyze_timeouts, bind in Ht.
    destruct (if negb (Dict.contains env_config (tx "variables")) then Ok true else _)
      as [b|]; [|discriminate].
    injection Ht as <-.
    repeat match type of Hf with
           | In _ (_ ++ _) => apply in_app_iff in Hf; destruct Hf as [Hf|Hf]
           | In _ (if ?b then _ else _) => destruct b
           | In _ [] => contradiction Hf
           | In _ [_] => destruct Hf as [<-|[]]; discriminate Hp
           end.
  - unfold Config.analyze_prepared_statements in Hf.
    destruct (Dict.get env_config (tx "prepared_statements")) as [[| [|] | | | | | | | |]|];
      repeat match type of Hf with
             | In _ (if ?b then _ else _) => destruct b
             | In _ [] => contradiction Hf
             | In _ [_] => destruct Hf as [<-|[]]; discriminate Hp
             end.
  - unfold Config.analyze_reaping_frequency in Hf.
    destruct (text_eqb env_name (tx "production")) eqn:E;
      [|rewrite andb_false_r in Hf; contradiction].
    destruct (negb _ && true); [|contradiction].
    destruct Hf as [<-|[]]. exact E.
  - unfold Config.check_ssl_configuration in Hf.
    destruct (text_eqb env_name (tx "production")) eqn:E; [|contradiction].
    destruct (_ || _); [|contradiction].
    destruct Hf as [<-|[]]. exact E.
Qed.

Lemma environment_production_only (config : Config.yaml) (acc : list finding)
  (env_name : text) (issues : list finding) :
  Config.analyze_environment config acc env_name = Ok issues ->
  forall f, In f issues ->
            In f acc \/
            (production_only f = true ->
             has_text "environment" (tx "production") f = true).
Proof.
  unfold Config.analyze_environment, bind.
  destruct (Config.py_in env_name config) as [[|]|]; simpl; try discriminate.
  - destruct (Config.py_item config env_name) as [[| | | | | |env_config| | |]|];
      try discriminate; try (intros [= <-]; auto).
    destruct (Config.analyze_timeouts env_config env_name) as [ts|] eqn:Et;
      [|discriminate].
    intros [= <-] f Hf. apply in_app_iff in Hf as [Hf|Hf]; [now left|right].
    now apply (@section_production_only env_config env_name ts).
  - intros [= <-]. auto.
Qed.

(** X19: in the findings of a whole analysis, [sslmode] and
    [reaping_frequency] are only ever reported for the [production]
    environment. *)
Theorem ssl_and_reaping_for_production_only :
  forall config issues f,
    Config.analyze config = Ok issues ->
    In f issues ->
    production_only f = true ->
    has_text "environment" (tx "production") f = true.
Proof.
  intros config issues f. unfold Config.analyze. cbn [for_each]. unfold bind.
  destruct (Config.analyze_environment config [] (tx "development")) as [i1|] eqn:E1;
    [|discriminate].
  destruct (Config.analyze_environment config i1 (tx "test")) as [i2|] eqn:E2;
    [|discriminate].
  destruct (Config.analyze_environment config i2 (tx "production")) as [i3|] eqn:E3;
    [|discriminate].
  intros [= <-] Hf Hp. apply in_app_iff in Hf as [Hf|Hf].
  - eapply environment_production_only in Hf; [|exact E3].
    destruct Hf as [Hf|Hf]; [|auto].
    eapply environment_production_only in Hf; [|exact E2].
    destruct Hf as [Hf|Hf]; [|auto].
    eapply environment_production_only in Hf; [|exact E1].
    destruct Hf as [[]|Hf]. auto.
  - destruct Hf as [<-|[]]. discriminate Hp.
Qed.

Lemma ssl_and_reaping_for_production_only_witness :
  has_text "environment" (tx "production")
    (Config.issue (tx "production") "sslmode" "warning"
       (tx "SSL/TLS not enforced for production database connections")
       (tx "Add sslmode: require or sslmode: verify-full for secure connections"))
  = true.
Proof.
  eapply (@ssl_and_reaping_for_production_only bare_sections_config).
  - vm_compute. reflexivity.
  - vm_compute. tauto.
  - reflexivity.
Defined.

(** * A configuration that is no mapping *)

(** X20: when [database.yml] loads as null (a file with nothing in it), a
    boolean, a number, a date or bytes, the script ends with an uncaught
    exception: the [TypeError] of the first membership test of its loop (or,
    where the standard output lacks the line that names the Rails root, the
    [UnicodeEncodeError] of that line). *)
Theorem scalar_config_uncaught :
  forall out w config,
    Config.root_found w = true ->
    Config.database_yml w = Some (Ok config) ->
    is_scalar config = true ->
    Config.main out w
    = Uncaught (if encodes_root out then TypeError else UnicodeEncodeError).
Proof.
  intros out w config Hroot Hyml Hs. unfold Config.main, print_root.
  rewrite Hroot, Hyml. cbn [negb].
  destruct (encodes_root out); [|reflexivity].
  cbn [bind]. rewrite (proj1 (rule_printed out)).
  destruct config; try discriminate Hs; reflexivity.
Qed.

Lemma scalar_config_uncaught_witness :
  Config.main unicode_stdout empty_yml_project = Uncaught TypeError.
Proof.
  apply (@scalar_config_uncaught unicode_stdout empty_yml_project Config.YNull);
    reflexivity.
Defined.

(** * The names of the model are words *)

Lemma matches_word_group (n : nat) (r : regex) :
  word_group n r ->
  forall prev s w rest k,
    matches r prev s w rest k -> forall g, In (n, g) k -> is_name g.
Proof.
  induction r as [|c|p|a IHa b IHb|a IHa b IHb|gr p|m a IHa|];
    intros Hn prev s w rest k; simpl in *.
  - intros (_ & _ & ->) g [].
  - intros (_ & _ & ->) g [].
  - intros (x & _ & _ & _ & ->) g [].
  - intros (u & s1 & c1 & v & c2 & Ha & Hb & _ & ->) g Hin.
    destruct Hn as [Hna Hnb].
    apply in_app_iff in Hin as [Hin|Hin]; eauto.
  - destruct Hn as [Hna Hnb]. intros [H|H]; eauto.
  - intros (_ & _ & ->) g [].
  - intros (k0 & H & ->) g Hin. destruct Hn as [Hm Hna].
    apply in_app_iff in Hin as [Hin|[[= -> <-]|[]]]; [eauto|].
    destruct (Hm eq_refl) as [Hne Hco]. split.
    + eapply matches_nonempty; eauto.
    + apply forallb_forall. apply Forall_forall.
      eapply matches_consumes; eauto.
  - intros (_ & _ & _ & ->) g [].
Qed.

Lemma finditer_name (r : regex) (n : nat) (s : text) (m : rmatch) :
  word_group n r -> participates n r = true ->
  In m (finditer r s) -> is_name (group n m).
Proof.
  intros Hn Hp Hin.
  apply finditer_from_In in Hin as (prev & s' & H).
  apply match_here_Some in H as (rest & H). apply ways_matches in H.
  unfold group. destruct (last_group n (groups m) None) as [g|] eqn:E.
  - apply last_group_In in E as [E|E]; [discriminate|].
    eapply matches_word_group; eauto.
  - exfalso. eapply matches_participates; eauto.
Qed.

Lemma finditer_names (r : regex) (n : nat) (s : text) (ms : list rmatch) :
  word_group n r -> participates n r = true ->
  incl ms (finditer r s) -> Forall is_name (map (group n) ms).
Proof.
  intros Hn Hp Hincl. apply Forall_forall. intros x Hx.
  apply in_map_iff in Hx as (m & <- & Hm).
  eapply finditer_name; eauto.
Qed.

Ltac word_group_of :=
  cbn; repeat split; try discriminate; try reflexivity; auto.

(** X21: in the model of every schema text, the table names, the columns,
    the foreign keys and the indexed columns are all words: never empty and
    made of letters, digits and underscores only. *)
Theorem model_names_are_words :
  forall content,
    exists tables,
      Indexes.parse_schema content = Ok tables /\
      forall name info,
        In (name, info) tables ->
        is_name name /\
        Forall is_name (Indexes.columns info) /\
        Forall is_name (Indexes.foreign_keys info) /\
        Forall is_name (Indexes.indexes info).
Proof.
  intros content.
  destruct (parse_schema_spec content) as (tables & Hp & _ & _ & Hget).
  exists tables. split; [exact Hp|].
  intros name info Hin.
  pose proof (@In_get _ tables name info
                (parse_schema_keys_NoDup _ Hp) Hin) as E.
  rewrite Hget in E.
  destruct (last_block name (table_blocks content)) as [m|] eqn:Hm;
    [|discriminate].
  injection E as <-. apply last_block_Some in Hm as [Hm <-].
  split; [|split; [|split]].
  - apply (@finditer_name Indexes.table_pattern 1 content m);
      [word_group_of|reflexivity|exact Hm].
  - apply (@finditer_names Indexes.col_pattern 2 (group 2 m));
      [word_group_of|reflexivity|apply incl_refl].
  - apply (@finditer_names Indexes.fk_pattern 1 (group 2 m));
      [word_group_of|reflexivity|apply incl_refl].
  - simpl. unfold indexed_columns.
    apply (@finditer_names Indexes.index_pattern 2 content);
      [word_group_of|reflexivity|].
    intros x Hx. apply filter_In in Hx as [Hx _]. exact Hx.
Qed.

(** * Table blocks in terms of the text *)

Lemma flat_map_of_map {A B C : Type} (g : A -> B) (f : B -> list C) (l : list A) :
  flat_map f (map g l) = flat_map (fun x => f (g x)) l.
Proof. induction l as [|a l IH]; simpl; [reflexivity|]. now rewrite IH. Qed.

Lemma hd_flat_map {A B : Type} (f : A -> list B) (l : list A) (y : B) :
  hd_error (flat_map f l) = Some y ->
  exists a, In a l /\ hd_error (f a) = Some y.
Proof.
  induction l as [|a l IH]; simpl; [discriminate|].
  destruct (f a) as [|b t] eqn:E; simpl.
  - intros H. destruct (IH H) as (a' & Hin & Ha'). exists a'. auto.
  - intros [= <-]. exists a. rewrite E. auto.
Qed.

Lemma hd_map {A B : Type} (f : A -> B) (l : list A) (y : B) :
  hd_error (map f l) = Some y -> exists a, hd_error l = Some a /\ y = f a.
Proof. destruct l as [|a l]; simpl; [discriminate|]. intros [= <-]. eauto. Qed.

(** The first way through a lazy repetition takes the shortest run after
    which the rest of the pattern matches. *)
Lemma lazy_head {B : Type} (p : ascii -> bool) :
  forall (s : text) (f : text -> text -> list B) (y : B),
    hd_error (flat_map (fun w => f (fst w) (snd w)) (star_lazy p s)) = Some y ->
    exists x t,
      s = x ++ t /\ forallb p x = true /\ hd_error (f x t) = Some y /\
      forall x0 t0, s = x0 ++ t0 -> List.length x0 < List.length x ->
                    f x0 t0 = [].
Proof.
  induction s as [|c s IH]; intros f y.
  - simpl. rewrite app_nil_r. intros H. exists [], []. repeat split; auto.
    simpl. intros; lia.
  - cbn [star_lazy flat_map fst snd].
    destruct (f [] (c :: s)) as [|b0 l0] eqn:E0.
    + cbn [app]. destruct (p c) eqn:Ep; [|discriminate].
      rewrite flat_map_of_map. cbn [fst snd]. intros H.
      destruct (IH (fun x t => f (c :: x) t) y H) as (x & t & -> & Hx & Hy & Hmin).
      exists (c :: x), t. repeat split; auto.
      * simpl. now rewrite Ep.
      * intros [|c0 x0] t0; simpl.
        -- intros <- _. exact E0.
        -- intros [= <- E] Hl. apply Hmin; [exact E|lia].
    + simpl. intros [= <-]. exists [], (c :: s). repeat split; auto.
      * now rewrite E0.
      * simpl. intros; lia.
Qed.

Lemma seq_head (a b : regex) prev s w rest k :
  hd_error (ways (Seq a b) prev s) = Some (w, rest, k) ->
  exists u s1 c1 v c2,
    In (u, s1, c1) (ways a prev s) /\
    hd_error (ways b (prev_after prev u) s1) = Some (v, rest, c2) /\
    w = u ++ v /\ k = c1 ++ c2.
Proof.
  cbn [ways]. intros H. apply hd_flat_map in H as ([[u s1] c1] & Hin & H).
  apply hd_map in H as ([[v s2] c2] & Hv & [= -> -> ->]).
  exists u, s1, c1, v, c2. auto.
Qed.

Lemma lazy_seq_head (p : ascii -> bool) (r : regex) prev s w rest k :
  hd_error (ways (Seq (Star false p) r) prev s) = Some (w, rest, k) ->
  exists x t v,
    s = x ++ t /\ forallb p x = true /\
    hd_error (ways r (prev_after prev x) t) = Some (v, rest, k) /\
    w = x ++ v /\
    forall x0 t0, s = x0 ++ t0 -> List.length x0 < List.length x ->
                  ways r (prev_after prev x0) t0 = [].
Proof.
  cbn [ways]. rewrite flat_map_of_map. cbn [fst snd]. intros H.
  apply (@lazy_head way p s
           (fun x t => map (fun wb : way => let '(v, s2, c2) := wb in
                                            (x ++ v, s2, [] ++ c2))
                           (ways r (prev_after prev x) t))) in H.
  destruct H as (x & t & -> & Hx & Hy & Hmin).
  apply hd_map in Hy as ([[v s2] c2] & Hv & [= -> -> ->]).
  exists x, t, v. repeat split; auto.
  intros x0 t0 E Hl. specialize (Hmin x0 t0 E Hl).
  destruct (ways r (prev_after prev x0) t0); [reflexivity|discriminate].
Qed.

Lemma lazy_grp_seq_head (n : nat) (p : ascii -> bool) (r : regex) prev s w rest k :
  hd_error (ways (Seq (Grp n (Star false p)) r) prev s) = Some (w, rest, k) ->
  exists x t v c2,
    s = x ++ t /\ forallb p x = true /\
    hd_error (ways r (prev_after prev x) t) = Some (v, rest, c2) /\
    w = x ++ v /\ k = (n, x) :: c2 /\
    forall x0 t0, s = x0 ++ t0 -> List.length x0 < List.length x ->
                  ways r (prev_after prev x0) t0 = [].
Proof.
  cbn [ways]. rewrite !flat_map_of_map. cbn [fst snd]. intros H.
  apply (@lazy_head way p s
           (fun x t => map (fun wb : way => let '(v, s2, c2) := wb in
                                            (x ++ v, s2, ([] ++ [(n, x)]) ++ c2))
                           (ways r (prev_after prev x) t))) in H.
  destruct H as (x & t & -> & Hx & Hy & Hmin).
  apply hd_map in Hy as ([[v s2] c2] & Hv & [= -> -> ->]).
  exists x, t, v, c2. repeat split; auto.
  intros x0 t0 E Hl. specialize (Hmin x0 t0 E Hl).
  destruct (ways r (prev_after prev x0) t0); [reflexivity|discriminate].
Qed.

Lemma starts_with_iff (p s : text) :
  starts_with p s = true <-> exists r, s = p ++ r.
Proof.
  revert s. induction p as [|x p IH]; intros s; simpl.
  - split; eauto.
  - destruct s as [|y s].
    + split; [discriminate|]. intros (r & H). discriminate.
    + rewrite andb_true_iff, Ascii.eqb_eq, IH. split.
      * intros (-> & r & ->). eauto.
      * intros (r & [= -> ->]). eauto.
Qed.

Lemma starts_with_app (p s : text) : starts_with p (p ++ s) = true.
Proof. apply starts_with_iff. eauto. Qed.

Lemma starts_with_more (p s rest : text) :
  starts_with p (s ++ rest) = false -> starts_with p s = false.
Proof.
  intros H. destruct (starts_with p s) eqn:E; [|reflexivity].
  apply starts_with_iff in E as (r & ->).
  rewrite <- app_assoc, starts_with_app in H. discriminate.
Qed.

Lemma lit_needs_prefix (l : text) prev (s : text) :
  ways (Lit_chars l) prev s = [] -> l <> [] -> starts_with l s = false.
Proof.
  intros H Hl. destruct (starts_with l s) eqn:E; [|reflexivity].
  apply starts_with_iff in E as (r & ->).
  pose proof (@first_lit l prev r Hl) as F. rewrite H in F. discriminate.
Qed.

Lemma hd_In {A : Type} (l : list A) (a : A) : hd_error l = Some a -> In a l.
Proof. destruct l; simpl; [discriminate|]. intros [= ->]. now left. Qed.

(** Two prefixes of one text: the shorter is a prefix of the longer. *)
Lemma app_prefix_le (a b c d : text) :
  a ++ b = c ++ d -> List.length a <= List.length c ->
  exists e, c = a ++ e /\ b = e ++ d.
Proof.
  intros E Hl. apply app_eq_app in E as (l & [[-> ->]|[-> ->]]).
  - rewrite length_app in Hl. destruct l; [|simpl in Hl; lia].
    exists []. now rewrite !app_nil_r.
  - now exists l.
Qed.

(** A run of blanks after [do] ends before the bar that follows. *)
Lemma blanks_before_bar (g X M Y : text) :
  forallb is_space g = true ->
  tx "do" ++ g ++ X = M ++ tx "|" ++ Y -> 2 <= List.length M ->
  List.length (tx "do" ++ g) <= List.length M.
Proof.
  intros Hg E HM.
  destruct (le_lt_dec (List.length (tx "do" ++ g)) (List.length M)) as [H|H];
    [exact H|exfalso].
  rewrite app_assoc in E.
  destruct (@app_split_long (tx "do" ++ g) X M (tx "|" ++ Y) E H)
    as (y & Ey & Hy & EY).
  destruct M as [|m1 [|m2 M]]; try (simpl in HM; lia).
  cbn in Ey. injection Ey as _ _ ->.
  rewrite forallb_app in Hg. apply andb_true_iff in Hg as [_ Hg].
  destruct y as [|c y]; [contradiction|].
  cbn in EY. injection EY as <- _. discriminate.
Qed.

(** The pattern after the quoted name, on the rest of a block: it reads up
    to the first [do |t|] and from there to the first [end], inside the
    block. *)
Lemma table_tail_head prev (options gap body post : text) :
  forallb is_space gap = true ->
  exists x g y z,
    hd_error (ways (Seqs [Star false any_char; Lit "do"; Star true is_space;
                          Lit "|t|"; Grp 2 (Star false any_char); Lit "end"])
                   prev
                   ((options ++ tx "do" ++ gap ++ tx "|t|" ++ body ++ tx "end")
                      ++ post))
    = Some (x ++ tx "do" ++ g ++ tx "|t|" ++ y ++ tx "end", z ++ post, [(2, y)]) /\
    options ++ tx "do" ++ gap ++ tx "|t|" ++ body ++ tx "end"
    = x ++ tx "do" ++ g ++ tx "|t|" ++ y ++ tx "end" ++ z /\
    forallb is_space g = true /\
    (forall j, j < List.length x ->
               ~ opens_body (skipn j (options ++ tx "do" ++ gap ++ tx "|t|"
                                              ++ body ++ tx "end"))) /\
    first_at (tx "end") y.
Proof.
  intros Hgap.
  set (R5 := Seq (Grp 2 (Star false any_char)) (Lit "end")).
  set (R4 := Seq (Lit "|t|") R5).
  set (R3 := Seq (Star true is_space) R4).
  set (R2 := Seq (Lit "do") R3).
  change (Seqs [Star false any_char; Lit "do"; Star true is_space;
                Lit "|t|"; Grp 2 (Star false any_char); Lit "end"])
    with (Seq (Star false any_char) R2).
  set (T := options ++ tx "do" ++ gap ++ tx "|t|" ++ body ++ tx "end").
  assert (HR : forall p g0 u0 v0,
             forallb is_space g0 = true ->
             ways R2 p (tx "do" ++ g0 ++ tx "|t|" ++ u0 ++ tx "end" ++ v0) <> []).
  { intros p g0 u0 v0 Hg0. apply ways_nonempty_iff. do 3 eexists.
    unfold R2, R3, R4, R5.
    eapply matches_seq_intro; [apply (@matches_lit_intro (tx "do")); discriminate|].
    eapply matches_seq_intro; [apply matches_star_intro; exact Hg0|].
    eapply matches_seq_intro; [apply (@matches_lit_intro (tx "|t|")); discriminate|].
    eapply matches_seq_intro;
      [apply matches_grp_intro; apply (@matches_star_intro false any_char _ u0);
       unfold any_char; now apply forallb_forall|].
    apply (@matches_lit_intro (tx "end")). discriminate. }
  assert (HR2 : forall p, ways R2 p (tx "do" ++ gap ++ tx "|t|" ++ body
                                        ++ tx "end" ++ post) <> []).
  { intros p. now apply HR. }
  assert (ET : T ++ post = options ++ tx "do" ++ gap ++ tx "|t|" ++ body
                                  ++ tx "end" ++ post).
  { unfold T. now repeat rewrite <- app_assoc. }
  rewrite ET.
  assert (Hall : forall t : text, forallb any_char t = true).
  { intros t. now apply forallb_forall. }
  destruct (ways (Seq (Star false any_char) R2) prev
              (options ++ tx "do" ++ gap ++ tx "|t|" ++ body ++ tx "end" ++ post))
    as [|[[w rest] k] l] eqn:Ew.
  { exfalso. specialize (HR2 (prev_after prev options)).
    apply ways_nonempty_iff in HR2 as (w & rest & k & H).
    assert (Hin : In (options ++ w, rest, [] ++ k)
                     (ways (Seq (Star false any_char) R2) prev
                        (options ++ tx "do" ++ gap ++ tx "|t|" ++ body
                           ++ tx "end" ++ post))).
    { apply ways_matches. eapply matches_seq_intro; [|exact H].
      apply matches_star_intro. apply Hall. }
    now rewrite Ew in Hin. }
  assert (Hhd : hd_error (ways (Seq (Star false any_char) R2) prev
              (options ++ tx "do" ++ gap ++ tx "|t|" ++ body ++ tx "end" ++ post))
                = Some (w, rest, k)) by now rewrite Ew.
  cbn [hd_error]. clear Ew l.
  apply lazy_seq_head in Hhd as (x & t & v & Es & _ & Hv & -> & Hminx).
  (* the first [do |t|] is not after the options *)
  assert (Hx : List.length x <= List.length options).
  { destruct (le_lt_dec (List.length x) (List.length options)) as [H|H];
      [exact H|exfalso].
    apply (HR2 (prev_after prev options)). now apply Hminx. }
  destruct (@app_prefix_le _ _ _ _ (eq_sym Es) Hx) as (o' & -> & Et).
  unfold R2 in Hv.
  apply seq_head in Hv as (u1 & s1 & c1 & v1 & k1 & Hdo & Hv & -> & ->).
  apply ways_matches, matches_lit_elim in Hdo as (-> & -> & ->).
  unfold R3 in Hv.
  apply seq_head in Hv as (g & s2 & c2 & v2 & k2 & Hg & Hv & -> & ->).
  apply ways_matches in Hg. simpl in Hg. destruct Hg as (-> & Hg & ->).
  unfold R4 in Hv.
  apply seq_head in Hv as (u3 & s3 & c3 & v3 & k3 & Hbar & Hv & -> & ->).
  apply ways_matches, matches_lit_elim in Hbar as (-> & -> & ->).
  unfold R5 in Hv.
  apply lazy_grp_seq_head in Hv as (y & t4 & v4 & k4 & -> & _ & Hend & -> & -> & Hminy).
  apply hd_In, ways_matches, matches_lit_elim in Hend as (-> & -> & ->).
  assert (Et' : tx "do" ++ g ++ (tx "|t|" ++ y ++ tx "end" ++ rest)
                = (o' ++ tx "do" ++ gap) ++ tx "|"
                  ++ (tx "t|" ++ body ++ tx "end" ++ post)).
  { rewrite Et. now repeat rewrite <- app_assoc. }
  assert (HM : List.length (tx "do" ++ g)
               <= List.length (o' ++ tx "do" ++ gap)).
  { apply (@blanks_before_bar g _ _ _ Hg Et').
    rewrite !length_app. simpl. lia. }
  rewrite app_assoc in Et'.
  destruct (@app_prefix_le _ _ _ _ Et' HM) as (e & Ee & Et2).
  assert (Et3 : tx "|t|" ++ (y ++ tx "end" ++ rest)
                = (e ++ tx "|t|") ++ body ++ tx "end" ++ post).
  { rewrite Et2. now repeat rewrite <- app_assoc. }
  destruct (@app_prefix_le _ _ _ _ Et3) as (d & Ed & Et4).
  { rewrite length_app. lia. }
  assert (Hy : List.length y <= List.length (d ++ body)).
  { destruct (le_lt_dec (List.length y) (List.length (d ++ body))) as [H|H];
      [exact H|exfalso].
    specialize (Hminy (d ++ body) (tx "end" ++ post)).
    rewrite <- app_assoc in Hminy. specialize (Hminy Et4 H).
    pose proof (@first_lit (tx "end")
                  (prev_after
                     (prev_after
                        (prev_after (prev_after (prev_after prev x) (tx "do")) g)
                        (tx "|t|")) (d ++ body)) post ltac:(discriminate)) as F.
    unfold Lit in Hminy. rewrite Hminy in F. discriminate. }
  assert (Et5 : y ++ (tx "end" ++ rest) = (d ++ body) ++ tx "end" ++ post).
  { rewrite Et4. now rewrite <- app_assoc. }
  destruct (@app_prefix_le _ _ _ _ Et5 Hy) as (e2 & Ee2 & Et6).
  rewrite app_assoc in Et6.
  destruct (@app_prefix_le _ _ _ _ Et6) as (z & Ez & ->).
  { rewrite length_app. lia. }
  assert (ETx : T = x ++ tx "do" ++ g ++ tx "|t|" ++ y ++ tx "end" ++ z).
  { apply app_inv_tail with (l := post). rewrite ET, Es.
    now repeat rewrite <- app_assoc. }
  exists x, g, y, z. split; [reflexivity|].
  split; [exact ETx|split; [exact Hg|split]].
  - intros j Hj (g0 & u & Hg0 & Eu). fold T in Eu. rewrite ETx in Eu.
    rewrite skipn_app in Eu. replace (j - List.length x) with 0 in Eu by lia.
    cbn [skipn] in Eu.
    assert (Eu' : tx "do" ++ g0 ++ (tx "|t|" ++ u)
                  = (skipn j x ++ tx "do" ++ g) ++ tx "|"
                    ++ (tx "t|" ++ y ++ tx "end" ++ z)).
    { rewrite <- Eu. now repeat rewrite <- app_assoc. }
    assert (HM0 : List.length (tx "do" ++ g0)
                  <= List.length (skipn j x ++ tx "do" ++ g)).
    { apply (@blanks_before_bar g0 _ _ _ Hg0 Eu').
      rewrite !length_app. simpl. lia. }
    assert (Eu2 : (tx "do" ++ g0 ++ tx "|t|") ++ u
                  = (skipn j x ++ tx "do" ++ g ++ tx "|t|")
                      ++ y ++ tx "end" ++ z).
    { repeat rewrite <- app_assoc. now rewrite <- Eu. }
    destruct (@app_prefix_le _ _ _ _ Eu2) as (e0 & Ee0 & ->).
    { rewrite !length_app in *. simpl in *. lia. }
    apply (HR (prev_after prev (firstn j x)) g0 (e0 ++ y) (z ++ post) Hg0).
    assert (Ew : tx "do" ++ g0 ++ tx "|t|" ++ (e0 ++ y) ++ tx "end" ++ z ++ post
                 = skipn j x ++ tx "do" ++ g ++ tx "|t|" ++ y ++ tx "end"
                     ++ z ++ post).
    { transitivity (((tx "do" ++ g0 ++ tx "|t|") ++ e0)
                      ++ y ++ tx "end" ++ z ++ post);
        [now repeat rewrite <- app_assoc|].
      rewrite <- Ee0. now repeat rewrite <- app_assoc. }
    rewrite Ew. apply Hminx.
    + rewrite Es, (app_assoc (firstn j x)), firstn_skipn. reflexivity.
    + rewrite length_firstn. lia.
  - intros j Hj.
    specialize (Hminy (firstn j y) (skipn j y ++ tx "end" ++ z ++ post)).
    assert (Ej : y ++ tx "end" ++ z ++ post
                 = firstn j y ++ skipn j y ++ tx "end" ++ z ++ post).
    { now rewrite (app_assoc (firstn j y)), firstn_skipn. }
    specialize (Hminy Ej).
    rewrite length_firstn in Hminy. specialize (Hminy ltac:(lia)).
    apply lit_needs_prefix in Hminy; [|discriminate].
    rewrite skipn_app. replace (j - List.length y) with 0 by lia. cbn [skipn].
    apply starts_with_more with (rest := z ++ post).
    now rewrite <- app_assoc.
Qed.

(** The table pattern at the head of a block the parser reads: the match
    gives the name and a part of the block, and ends inside the block. *)
Lemma table_block_head prev (b : table_block) (post : text) :
  parsed_block b ->
  exists m,
    match_here Indexes.table_pattern prev (block_text b ++ post) = Some m /\
    group 1 m = tb_name b /\
    read_from b (group 2 m) /\
    0 < List.length (whole m) <= List.length (block_text b).
Proof.
  destruct b as [S name options gap variable body].
  unfold parsed_block. cbn [tb_blanks tb_name tb_gap tb_variable].
  intros ([HS0 HS] & [Hn0 Hn] & Hgap & ->).
  destruct S as [|b1 S]; [contradiction|].
  destruct name as [|n0 N]; [contradiction|].
  cbn in HS, Hn.
  apply andb_true_iff in HS as [Hb1 HS]. apply andb_true_iff in Hn as [Hn1 Hn].
  destruct (@table_tail_head (Some dquote) options gap body post Hgap)
    as (x & g & y & z & Hhd & ET & Hg & Hx & Hy).
  assert (H : exists u s' k,
             hd_error (ways Indexes.table_pattern prev
                          (block_text
                             {| tb_blanks := b1 :: S; tb_name := n0 :: N;
                                tb_options := options; tb_gap := gap;
                                tb_variable := tx "t"; tb_body := body |}
                             ++ post))
             = Some (u, s', k) /\
             k = [(1, n0 :: N); (2, y)] /\
             u = tx "create_table" ++ (b1 :: S) ++ [dquote] ++ (n0 :: N)
                    ++ [dquote]
                    ++ (x ++ tx "do" ++ g ++ tx "|t|" ++ y ++ tx "end")).
  { unfold block_text, block_tail, quoted.
    cbn [tb_blanks tb_name tb_options tb_gap tb_variable tb_body].
    repeat (progress (cbn [app tx list_ascii_of_string]; rewrite <- ?app_assoc)).
    unfold Indexes.table_pattern.
    change (Seqs [Lit "create_table"; Plus true is_space; Chr dquote;
                  Grp 1 (Plus true is_word); Chr dquote; Star false any_char;
                  Lit "do"; Star true is_space; Lit "|t|";
                  Grp 2 (Star false any_char); Lit "end"])
      with (Seq (Lit "create_table")
              (Seq (Plus true is_space)
                 (Seq (Chr dquote)
                    (Seq (Grp 1 (Plus true is_word))
                       (Seq (Chr dquote)
                          (Seqs [Star false any_char; Lit "do";
                                 Star true is_space; Lit "|t|";
                                 Grp 2 (Star false any_char); Lit "end"])))))).
    unfold Lit at 1.
    do 3 eexists. split; [|split].
    - eapply first_seq; [first_step|].
      eapply first_seq; [first_step|].
      eapply first_seq; [first_step|].
      eapply first_seq; [apply first_grp; first_step|].
      eapply first_seq; [first_step|].
      cbn [prev_after fold_left app].
      repeat (progress (cbn [app tx list_ascii_of_string] in Hhd;
                        rewrite <- ?app_assoc in Hhd)).
      exact Hhd.
    - reflexivity.
    - reflexivity. }
  destruct H as (u & s' & k & Hhead & -> & ->).
  exists {| whole := tx "create_table" ++ (b1 :: S) ++ [dquote] ++ (n0 :: N)
                    ++ [dquote]
                    ++ (x ++ tx "do" ++ g ++ tx "|t|" ++ y ++ tx "end");
            groups := [(1, n0 :: N); (2, y)] |}.
  split; [|split; [reflexivity|split]].
  - unfold match_here.
    destruct (ways Indexes.table_pattern prev _) as [|[[u0 r0] k0] l];
      [discriminate|].
    cbn [hd_error] in Hhead. now injection Hhead as -> _ ->.
  - exists x, g, z. repeat split; auto.
  - cbn [whole]. unfold block_text, block_tail, quoted.
    cbn [tb_blanks tb_name tb_options tb_gap tb_variable tb_body].
    change (tx "|" ++ tx "t" ++ tx "|" ++ body ++ tx "end")
      with (tx "|t|" ++ body ++ tx "end").
    rewrite ET. rewrite !length_app. simpl. lia.
Qed.

Lemma table_needs_prefix prev (s : text) :
  ways Indexes.table_pattern prev s <> [] ->
  starts_with (tx "create_table") s = true.
Proof.
  intros H. apply ways_nonempty_iff in H as (w & rest & k & H).
  unfold Indexes.table_pattern in H.
  change (Seqs [Lit "create_table"; Plus true is_space; Chr dquote;
                Grp 1 (Plus true is_word); Chr dquote; Star false any_char;
                Lit "do"; Star true is_space; Lit "|t|";
                Grp 2 (Star false any_char); Lit "end"])
    with (Seq (Lit_chars (tx "create_table"))
            (Seqs [Plus true is_space; Chr dquote;
                   Grp 1 (Plus true is_word); Chr dquote; Star false any_char;
                   Lit "do"; Star true is_space; Lit "|t|";
                   Grp 2 (Star false any_char); Lit "end"])) in H.
  cbn [matches] in H.
  destruct H as (u & s1 & c1 & v & c2 & Ha & _).
  apply matches_lit_elim in Ha as (_ & -> & _). apply starts_with_app.
Qed.

Lemma table_not_here prev (s : text) :
  starts_with (tx "create_table") s = false ->
  match_here Indexes.table_pattern prev s = None.
Proof.
  intros H. apply match_here_None.
  destruct (ways Indexes.table_pattern prev s) eqn:E; [reflexivity|].
  assert (Hne : ways Indexes.table_pattern prev s <> []) by (rewrite E; discriminate).
  apply table_needs_prefix in Hne. congruence.
Qed.

Lemma no_table_in_tail (c : ascii) (pre rest : text) :
  no_table_in (c :: pre) rest -> no_table_in pre rest.
Proof. intros H j Hj. apply (H (S j)). simpl. lia. Qed.

(** The scan passes over a text in which no table is declared. *)
Lemma scan_no_table (pre rest : text) :
  no_table_in pre rest ->
  forall prev skip,
    skip <= List.length pre ->
    exists prev',
      finditer_from Indexes.table_pattern prev skip (pre ++ rest)
      = finditer_from Indexes.table_pattern prev' 0 rest.
Proof.
  induction pre as [|c pre IH]; intros Hno prev skip Hskip.
  - simpl in Hskip. assert (skip = 0) by lia. subst. now exists prev.
  - pose proof (no_table_in_tail Hno) as Hno'.
    simpl in Hskip. destruct skip as [|k]; cbn [app finditer_from].
    + rewrite table_not_here; [apply IH; [assumption|lia]|].
      apply (Hno 0). simpl. lia.
    + apply IH; [assumption|lia].
Qed.

Lemma block_text_cons (b : table_block) :
  block_text b = "c"%char :: tl (block_text b).
Proof. reflexivity. Qed.

(** The matches of the table pattern are the blocks, one for one. *)
Lemma scan_blocks :
  forall bs pre prev skip,
    skip <= List.length pre ->
    laid_out pre bs ->
    Forall parsed_block (map fst bs) ->
    Forall2 (fun (b : table_block * text) m =>
               group 1 m = tb_name (fst b) /\ read_from (fst b) (group 2 m))
            bs
            (finditer_from Indexes.table_pattern prev skip (pre ++ blocks_text bs)).
Proof.
  induction bs as [|[b sep] bs IH]; intros pre prev skip Hskip Hlaid Hbs.
  - cbn [laid_out blocks_text] in *.
    destruct (scan_no_table Hlaid prev Hskip) as (prev' & ->).
    cbn [finditer_from]. rewrite table_not_here by reflexivity. constructor.
  - cbn [laid_out blocks_text] in *. destruct Hlaid as [Hno Hlaid].
    cbn [map fst] in Hbs. inversion Hbs as [|b0 l0 Hb Hbs']; subst.
    destruct (scan_no_table Hno prev Hskip) as (prev' & ->).
    destruct (@table_block_head prev' b (sep ++ blocks_text bs) Hb)
      as (m & Hm & Hg1 & Hg2 & Hpos & Hlen).
    rewrite block_text_cons in Hm |- *. cbn [app finditer_from] in Hm |- *.
    rewrite Hm. constructor; [auto|].
    rewrite app_assoc. apply IH; [|assumption|assumption].
    rewrite block_text_cons in Hlen. rewrite length_app. cbn [List.length] in Hlen. lia.
Qed.

Lemma blocks_names (bs : list (table_block * text)) (ms : list rmatch) :
  Forall2 (fun (b : table_block * text) m =>
             group 1 m = tb_name (fst b) /\ read_from (fst b) (group 2 m)) bs ms ->
  map (group 1) ms = block_names bs /\ List.length ms = List.length bs.
Proof.
  induction 1 as [|b m bs ms [Hn _] _ [IH1 IH2]]; [auto|].
  simpl. now rewrite Hn, IH1, IH2.
Qed.

(** The last match of a name belongs to the last block of that name. *)
Lemma blocks_last (name : text) (bs : list (table_block * text)) (ms : list rmatch) :
  Forall2 (fun (b : table_block * text) m =>
             group 1 m = tb_name (fst b) /\ read_from (fst b) (group 2 m)) bs ms ->
  forall m, last_block name ms = Some m ->
    exists before b sep after,
      bs = before ++ (b, sep) :: after /\
      tb_name b = name /\ ~ In name (block_names after) /\
      read_from b (group 2 m).
Proof.
  induction 1 as [|[b sep] m0 bs ms [Hn Hr] Hall IH]; intros m; simpl;
    [discriminate|].
  destruct (last_block name ms) as [m'|] eqn:E.
  - intros [= <-]. destruct (IH m' eq_refl) as (before & b1 & sep1 & after & -> & H).
    exists ((b, sep) :: before), b1, sep1, after. auto.
  - destruct (text_eqb (group 1 m0) name) eqn:En; [|discriminate].
    intros [= <-]. apply text_eqb_eq in En.
    exists [], b, sep, bs. repeat split; auto.
    + simpl in Hn. congruence.
    + intros Hin. destruct (blocks_names Hall) as [Hnames _].
      rewrite <- Hnames in Hin.
      destruct (@last_block_In name ms Hin) as (m1 & Hm1 & _). congruence.
Qed.

(** C3 (amended): on a text laid out as blocks whose names are words and
    whose block variable is [t], the parser returns a model whose tables are
    the distinct names of the blocks in order of first occurrence: as many
    tables as blocks when no two blocks share a name, and otherwise the last
    block of a name gives the table's columns and foreign keys, read between
    the first [do |t|] of that block and the first [end] after it; an index
    statement on a table that is not in the model changes nothing, and the
    index statements add no table. *)
Theorem C3_one_table_per_block_name :
  forall pre bs,
    laid_out pre bs ->
    Forall parsed_block (map fst bs) ->
    let content := pre ++ blocks_text bs in
    let names := block_names bs in
    exists tables,
      Indexes.parse_schema content = Ok tables /\
      Dict.keys tables = first_occurrences names /\
      (NoDup names -> List.length tables = List.length bs) /\
      List.length tables <= List.length bs /\
      (forall name, In name names ->
         exists before b sep after y,
           bs = before ++ (b, sep) :: after /\
           tb_name b = name /\ ~ In name (block_names after) /\
           read_from b y /\
           Dict.get tables name =
           Some {| Indexes.columns :=
                     map (group 2) (finditer Indexes.col_pattern y);
                   Indexes.foreign_keys :=
                     map (group 1) (finditer Indexes.fk_pattern y);
                   Indexes.indexes :=
                     indexed_columns name (index_statements content) |}) /\
      Dict.keys tables = Dict.keys (Indexes.build_tables content) /\
      (forall (tables0 : Indexes.schema) m,
         Dict.contains tables0 (group 1 m) = false ->
         Indexes.add_index tables0 m = Ok tables0).
Proof.
  intros pre bs Hlaid Hbs content names.
  assert (Hscan := @scan_blocks bs pre None 0 (Nat.le_0_l _) Hlaid Hbs).
  fold (finditer Indexes.table_pattern (pre ++ blocks_text bs)) in Hscan.
  fold content in Hscan. fold (table_blocks content) in Hscan.
  destruct (blocks_names Hscan) as [Hnames Hcount].
  destruct (parse_schema_spec content) as (tables & Hp & Hk & Hk' & Hget).
  rewrite Hnames in Hk. fold names in Hk.
  exists tables. split; [exact Hp|]. split; [exact Hk|].
  assert (Hlen : List.length tables = List.length (first_occurrences names)).
  { rewrite <- Hk. unfold Dict.keys. now rewrite length_map. }
  assert (Hn : List.length names = List.length bs).
  { unfold names, block_names. now rewrite length_map. }
  split; [|split; [|split; [|split]]].
  - intros Hnd. now rewrite Hlen, (first_occurrences_NoDup_id Hnd).
  - rewrite Hlen, <- Hn.
    apply NoDup_incl_length; [apply first_occurrences_NoDup|].
    intros x. apply first_occurrences_In.
  - intros name Hin. unfold names in Hin. rewrite <- Hnames in Hin.
    destruct (@last_block_In name (table_blocks content) Hin) as (m & Hm & _).
    destruct (@blocks_last name _ _ Hscan m Hm)
      as (before & b & sep & after & Ebs & Hb & Hafter & Hread).
    exists before, b, sep, after, (group 2 m).
    repeat split; auto. now rewrite Hget, Hm.
  - exact Hk'.
  - intros tables0 m. apply add_index_absent.
Qed.

Lemma no_table_in_check (t rest : text) :
  forallb (fun j => negb (starts_with (tx "create_table") (skipn j (t ++ rest))))
          (seq 0 (List.length t)) = true ->
  no_table_in t rest.
Proof.
  intros H j Hj. rewrite forallb_forall in H.
  apply negb_true_iff, H, in_seq. lia.
Qed.

Example two_blocks_laid_out :
  blocks_text two_blocks = two_blocks_text /\
  laid_out [] two_blocks /\
  Forall parsed_block (map fst two_blocks).
Proof.
  split; [vm_compute; reflexivity|]. split.
  - cbn [laid_out two_blocks].
    repeat split; apply no_table_in_check; vm_compute; reflexivity.
  - repeat constructor; try discriminate.
Qed.

Lemma C3_one_table_per_block_name_witness :
  exists tables,
    Indexes.parse_schema two_blocks_text = Ok tables /\
    Dict.keys tables = [tx "users"; tx "posts"] /\
    List.length tables = 2.
Proof.
  destruct two_blocks_laid_out as (_ & Hlaid & Hparsed).
  destruct (@C3_one_table_per_block_name [] two_blocks Hlaid Hparsed)
    as (tables & Hp & Hk & Hlen & _).
  exists tables. split; [exact Hp|]. split.
  - rewrite Hk. vm_compute. reflexivity.
  - rewrite Hlen; [reflexivity|].
    vm_compute. repeat constructor; simpl; intuition discriminate.
Defined.

(** A block whose table name is not a word gives no table. *)
Example dotted_name_missed :
  laid_out [] dotted_blocks /\
  Forall spec_block (map fst dotted_blocks) /\
  NoDup (block_names dotted_blocks) /\
  exists info,
    Indexes.parse_schema (blocks_text dotted_blocks) = Ok [(tx "users", info)].
Proof.
  split; [|split; [|split]].
  - cbn [laid_out dotted_blocks].
    repeat split; apply no_table_in_check; vm_compute; reflexivity.
  - repeat constructor; try discriminate; vm_compute; intuition discriminate.
  - vm_compute. repeat constructor; simpl; intuition discriminate.
  - eexists. vm_compute. reflexivity.
Qed.

(** A block whose variable is not [t] takes the body of the next block that
    has [do |t|]: two blocks, one table, with the columns of the second. *)
Example block_variable_missed :
  laid_out [] renamed_blocks /\
  Forall spec_block (map fst renamed_blocks) /\
  Indexes.parse_schema (blocks_text renamed_blocks)
  = Ok [(tx "users",
         {| Indexes.columns := [tx "user_id"];
            Indexes.foreign_keys := [tx "user_id"];
            Indexes.indexes := [] |})].
Proof.
  split; [|split].
  - cbn [laid_out renamed_blocks].
    repeat split; apply no_table_in_check; vm_compute; reflexivity.
  - repeat constructor; try discriminate; vm_compute; intuition discriminate.
  - vm_compute. reflexivity.
Qed.

(** C3 as stated fails: two blocks with the names [users] and [audit.logs]
    give one table. *)
Lemma C3_counterexample : ~ claim_C3_as_stated.
Proof.
  intros H.
  destruct dotted_name_missed as (Hlaid & Hspec & Hnd & info & Hp).
  destruct (H [] dotted_blocks Hlaid Hspec Hnd) as (tables & Hp' & Hlen).
  cbn [app] in Hp'. rewrite Hp in Hp'. injection Hp' as <-. discriminate.
Qed.
